(** * banana-sprite: audio-driven sprite animation

    A shallow embedding of the logic-bearing parts of the repository:

    - [analyzeAudioBuffer] (utils/audioAnalysis): the offline loudness pass;
    - [classifyMouth], [smoothTransition], [resolvedSelection],
      [resolveFrameIndex] and the video-generation effect of [FaceAnimator];
    - [createInitialSelection] of [FaceAnimationEditor];
    - [handleMouseMove] of [FacePartEditor];
    - [findBestExpressionFrames] (the pixel heuristic);
    - [analyzeSpriteSheet] (services/geminiService).

    JavaScript numbers are modelled by rationals extended with the three
    non-finite values of IEEE arithmetic ([JS.num]); division by zero and
    [NaN] are kept, the sign of zero is left out.

    In the loudness pass, where frame counts, window bounds and the
    release window are read off products and quotients, every operation
    rounds its result to the nearest double ([JS.double]: a significand of
    53 bits, ties to even), and a rational parameter stands for the double
    nearest to it, as a literal of that value does in the source.  The
    exponent of a double is not bounded here: there is no overflow and no
    underflow.  Loop counters and sample indices are integers below
    [2^53], on which the arithmetic of doubles is exact.

    Everywhere else the arithmetic is exact: there rounding moves a value
    by its last bit and changes none of the outcomes stated. *)

From Stdlib Require Import String QArith Qround Qminmax Qpower ZArith List Bool Lia Lqa.
Import ListNotations.

(** ** JavaScript numbers *)

Module JS.

Inductive num : Type :=
| Fin (q : Q)
| PInf
| NInf
| NaN.

Definition ofZ (z : Z) : num := Fin (inject_Z z).

Definition Qltb (a b : Q) : bool := negb (Qle_bool b a).

Definition is_zero (a : Q) : bool := Qeq_bool a 0.

(** [a + b] *)
Definition add (a b : num) : num :=
  match a, b with
  | NaN, _ | _, NaN => NaN
  | PInf, NInf | NInf, PInf => NaN
  | PInf, _ | _, PInf => PInf
  | NInf, _ | _, NInf => NInf
  | Fin x, Fin y => Fin (x + y)
  end.

(** [-a] *)
Definition neg (a : num) : num :=
  match a with
  | Fin x => Fin (- x)
  | PInf => NInf
  | NInf => PInf
  | NaN => NaN
  end.

(** [a - b] *)
Definition sub (a b : num) : num := add a (neg b).

(** sign of a number that is neither zero nor [NaN] *)
Definition positive (a : num) : bool :=
  match a with
  | Fin x => Qltb 0 x
  | PInf => true
  | _ => false
  end.

Definition zero (a : num) : bool :=
  match a with
  | Fin x => is_zero x
  | _ => false
  end.

Definition signed_inf (pos : bool) : num := if pos then PInf else NInf.

(** [a * b] *)
Definition mul (a b : num) : num :=
  match a, b with
  | NaN, _ | _, NaN => NaN
  | Fin x, Fin y => Fin (x * y)
  | _, _ =>
      if zero a || zero b then NaN
      else signed_inf (Bool.eqb (positive a) (positive b))
  end.

(** [a / b]; a zero divisor counts as [+0] *)
Definition div (a b : num) : num :=
  match a, b with
  | NaN, _ | _, NaN => NaN
  | Fin x, Fin y =>
      if is_zero y then
        if is_zero x then NaN else signed_inf (Qltb 0 x)
      else Fin (x / y)
  | Fin _, _ => Fin 0
  | _, Fin y => signed_inf (Bool.eqb (positive a) (Qle_bool 0 y))
  | _, _ => NaN
  end.

(** [a < b]: every comparison with [NaN] is false *)
Definition lt (a b : num) : bool :=
  match a, b with
  | NaN, _ | _, NaN => false
  | Fin x, Fin y => Qltb x y
  | PInf, _ => false
  | _, PInf => true
  | NInf, Fin _ => true
  | _, NInf => false
  end.

(** [a > b] *)
Definition gt (a b : num) : bool := lt b a.

(** [a <= b] *)
Definition le (a b : num) : bool :=
  match a, b with
  | NaN, _ | _, NaN => false
  | Fin x, Fin y => Qle_bool x y
  | NInf, _ => true
  | _, PInf => true
  | _, _ => false
  end.

(** [a >= b] *)
Definition ge (a b : num) : bool := le b a.

(** [Math.min(a, b)] *)
Definition Math_min (a b : num) : num :=
  match a, b with
  | NaN, _ | _, NaN => NaN
  | _, _ => if lt b a then b else a
  end.

(** [Math.max(a, b)] *)
Definition Math_max (a b : num) : num :=
  match a, b with
  | NaN, _ | _, NaN => NaN
  | _, _ => if lt a b then b else a
  end.

(** [Math.floor(a)] *)
Definition Math_floor (a : num) : num :=
  match a with
  | Fin x => ofZ (Qfloor x)
  | _ => a
  end.

(** [Math.ceil(a)] *)
Definition Math_ceil (a : num) : num :=
  match a with
  | Fin x => ofZ (Qceiling x)
  | _ => a
  end.

(** [Math.sqrt(a)], over a square root [sqrtQ] of the non-negative
    rationals *)
Definition Math_sqrt (sqrtQ : Q -> Q) (a : num) : num :=
  match a with
  | Fin x => if Qltb x 0 then NaN else Fin (sqrtQ x)
  | PInf => PInf
  | _ => NaN
  end.

(** Number of iterations of [for (i = from; i < to; i++)].  With a finite
    start the loop body runs for [i = from, from+1, ...] as long as
    [i < to].  The two shapes on which the JavaScript loop does not end
    (a start of [-Infinity], or a finite start with a bound of
    [+Infinity]) do not arise in this development, whose loop bounds are
    finite (see [no_frames_at_rate_zero] and [window_ends_finite]); they
    are given no iteration. *)
Definition trip_count (from to : num) : nat :=
  match from, to with
  | Fin s, Fin e => Z.to_nat (Qceiling (e - s))
  | _, _ => 0%nat
  end.

(** [arr[i]] on a typed array: a stored sample for an integer index in
    range, [undefined] (which arithmetic turns into [NaN]) otherwise *)
Definition typed_get (arr : list Q) (i : num) : num :=
  match i with
  | Fin x =>
      if Qeq_bool x (inject_Z (Qfloor x)) && (0 <=? Qfloor x)%Z then
        match nth_error arr (Z.to_nat (Qfloor x)) with
        | Some s => Fin s
        | None => NaN
        end
      else NaN
  | _ => NaN
  end.


(** *** Doubles *)

(** The exponent of the binade of a positive rational:
    [2 ^ floor_log2 x <= x < 2 ^ (floor_log2 x + 1)]. *)
Definition floor_log2 (x : Q) : Z :=
  let l := (Z.log2 (Qnum x) - Z.log2 (Zpos (Qden x)))%Z in
  if Qle_bool (2 ^ l) x then l else (l - 1)%Z.

(** The integer nearest to a rational, the even one of two that are
    equally near. *)
Definition nearest_even (x : Q) : Z :=
  let f := Qfloor x in
  match Qcompare (x - inject_Z f) (1 # 2) with
  | Lt => f
  | Gt => (f + 1)%Z
  | Eq => if Z.even f then f else (f + 1)%Z
  end.

(** The double nearest to a positive rational: its significand, scaled
    into [2^52, 2^53), is rounded to an integer. *)
Definition double_pos (x : Q) : Q :=
  let e := (floor_log2 x - 52)%Z in
  inject_Z (nearest_even (x / 2 ^ e)) * 2 ^ e.

(** The double nearest to a rational. *)
Definition double (x : Q) : Q :=
  match Qnum x with
  | Z0 => 0
  | Zpos _ => Qred (double_pos x)
  | Zneg _ => Qred (- double_pos (- x))
  end.


(** The JavaScript number a rational parameter or literal stands for. *)
Definition number (q : Q) : num := Fin (double q).

(** The result of an operation, as a double. *)
Definition rounded (a : num) : num :=
  match a with
  | Fin q => Fin (double q)
  | _ => a
  end.

(** [a + b], [a * b] and [a / b] on doubles *)
Definition addD (a b : num) : num := rounded (add a b).

Definition mulD (a b : num) : num := rounded (mul a b).

Definition divD (a b : num) : num := rounded (div a b).

(** a square root of the rationals, rounded down to 128 binary digits
    after the point; exact on squares of such numbers, and near enough to
    the root for its double to be the one [Math.sqrt] returns on a
    double *)
Definition sqrt_approx (q : Q) : Q :=
  Z.sqrt (Qnum q * Zpos (Qden q) * 4 ^ 128) # (Qden q * 2 ^ 128).

End JS.

Import JS.

(** ** utils/audioAnalysis *)

Inductive OpenClosed : Type := oc_open | oc_closed.

Record VolumeFrame : Type := {
  time : num;
  volume : num;
  mouthState : OpenClosed
}.

(** The three attributes of an [AudioBuffer] the analysis reads;
    [channelData] is [getChannelData(0)].  The rationals stand for the
    doubles nearest to them. *)
Record AudioBuffer : Type := {
  sampleRate : Q;
  duration : Q;
  channelData : list Q
}.

Section AudioAnalysis.

(** [Math.sqrt], before its result is rounded. *)
Variable sqrtQ : Q -> Q.

(** The inner loop
    [for (let i = startSample; i < endSample; i++) { sum += sample*sample; count++ }]
    with [n] iterations left.  A sample is read as the double it is stored
    as; [i] and [count] are integers. *)
Fixpoint rms_loop (data : list Q) (n : nat) (i sum count : num) : num * num :=
  match n with
  | O => (sum, count)
  | S n' =>
      let sample := rounded (typed_get data i) in
      rms_loop data n' (add i (Fin 1)) (addD sum (mulD sample sample))
               (add count (Fin 1))
  end.

Definition window_rms (data : list Q) (startSample endSample : num) : num :=
  let '(sum, count) :=
    rms_loop data (trip_count startSample endSample) startSample (Fin 0) (Fin 0) in
  rounded (Math_sqrt sqrtQ (divD sum count)).

(** The variables the outer loop carries from one frame to the next. *)
Record LoopState : Type := {
  smoothing : num;
  lastOpenTime : Z;
  isOpen : bool
}.

Definition initial_state : LoopState :=
  {| smoothing := Fin 0; lastOpenTime := (-1)%Z; isOpen := false |}.

(** One pass through the body of the outer loop, at [frameIndex]. *)
Definition frame_body (data : list Q) (frameInterval samplesPerFrame threshold
                       releaseFrames : num) (frameIndex : Z) (st : LoopState)
  : LoopState * VolumeFrame :=
  let time := mulD (ofZ frameIndex) frameInterval in
  let startSample := Math_floor (mulD (ofZ frameIndex) samplesPerFrame) in
  let endSample :=
    Math_min (addD startSample samplesPerFrame) (ofZ (Z.of_nat (length data))) in
  let rms := window_rms data startSample endSample in
  let smoothing' :=
    addD (mulD (smoothing st) (number (7 # 10))) (mulD rms (number (3 # 10))) in
  let smoothedVolume := smoothing' in
  if gt smoothedVolume threshold then
    ({| smoothing := smoothing'; lastOpenTime := frameIndex; isOpen := true |},
     {| time := time; volume := smoothedVolume; mouthState := oc_open |})
  else if isOpen st && lt (ofZ (frameIndex - lastOpenTime st)) releaseFrames then
    ({| smoothing := smoothing'; lastOpenTime := lastOpenTime st; isOpen := isOpen st |},
     {| time := time; volume := smoothedVolume; mouthState := oc_open |})
  else
    ({| smoothing := smoothing'; lastOpenTime := lastOpenTime st; isOpen := false |},
     {| time := time; volume := smoothedVolume; mouthState := oc_closed |}).

(** The outer loop with [n] iterations left; the frames are returned in
    the order they are pushed. *)
Fixpoint frames_loop (data : list Q) (frameInterval samplesPerFrame threshold
                      releaseFrames : num) (n : nat) (frameIndex : Z)
                     (st : LoopState) : list VolumeFrame :=
  match n with
  | O => []
  | S n' =>
      let '(st', f) :=
        frame_body data frameInterval samplesPerFrame threshold releaseFrames
                   frameIndex st in
      f :: frames_loop data frameInterval samplesPerFrame threshold releaseFrames
             n' (frameIndex + 1) st'
  end.

Definition frameInterval_of (fps : Q) : num := divD (Fin 1) (number fps).

Definition samplesPerFrame_of (audioBuffer : AudioBuffer) (fps : Q) : num :=
  Math_floor (mulD (number (sampleRate audioBuffer)) (frameInterval_of fps)).

Definition releaseFrames_of (releaseTime fps : Q) : num :=
  Math_ceil (mulD (number releaseTime) (number fps)).

Definition frame_bound (audioBuffer : AudioBuffer) (fps : Q) : num :=
  Math_ceil (mulD (number (duration audioBuffer)) (number fps)).

Definition analyzeAudioBuffer (audioBuffer : AudioBuffer)
           (fps threshold releaseTime : Q) : list VolumeFrame :=
  frames_loop (channelData audioBuffer)
              (frameInterval_of fps)
              (samplesPerFrame_of audioBuffer fps)
              (number threshold)
              (releaseFrames_of releaseTime fps)
              (trip_count (ofZ 0) (frame_bound audioBuffer fps))
              0%Z initial_state.

End AudioAnalysis.

(** A buffer as the Web Audio API builds it: a positive sample rate and a
    duration of [length / sampleRate], which the analysis reads as a
    double. *)
Definition buffer_of (rate : Q) (samples : list Q) : AudioBuffer :=
  {| sampleRate := rate;
     duration := inject_Z (Z.of_nat (length samples)) / rate;
     channelData := samples |}.

(** ** components/FaceAnimator: mouth states *)

Inductive MouthState : Type := m_open | m_mid | m_closed.

Inductive EyeState : Type := e_open | e_closed.

(** [a ?? b] on an optional number *)
Definition nullish {A : Type} (a : option A) (b : A) : A :=
  match a with
  | Some v => v
  | None => b
  end.

Definition classifyMouth (volumeThreshold : num)
           (mouthMidThreshold mouthOpenThreshold : option num)
           (volume : num) : MouthState :=
  let midThreshold :=
    nullish mouthMidThreshold
            (Math_max (mul volumeThreshold (Fin (3 # 2)))
                      (add volumeThreshold (Fin (5 # 1000)))) in
  let openThreshold :=
    nullish mouthOpenThreshold
            (Math_max (mul volumeThreshold (Fin 3))
                      (add volumeThreshold (Fin (1 # 100)))) in
  if ge volume openThreshold then m_open
  else if ge volume midThreshold then m_mid
  else m_closed.

Definition smoothTransition (prev target : MouthState) : MouthState :=
  match prev, target with
  | m_closed, m_open => m_mid
  | m_open, m_closed => m_mid
  | m_mid, m_open => m_open
  | m_mid, m_closed => m_closed
  | _, _ => target
  end.

(** The states [mouthStateRef] goes through when the smoother is called
    with the targets [targets] one after the other, starting from [prev]:
    each call receives the state the previous call returned. *)
Fixpoint displayed (prev : MouthState) (targets : list MouthState)
  : list MouthState :=
  match targets with
  | [] => []
  | target :: rest =>
      let nextMouth := smoothTransition prev target in
      nextMouth :: displayed nextMouth rest
  end.

(** The mouth states one recording shows for the analysed frames: the
    first frame's class is installed as it is, then [updateFrame] passes
    every frame, the first one included, through the smoother. *)
Definition recording_states (volumeThreshold : num)
           (mouthMidThreshold mouthOpenThreshold : option num)
           (volumeFrames : list VolumeFrame) : list MouthState :=
  let classify := classifyMouth volumeThreshold mouthMidThreshold mouthOpenThreshold in
  match volumeFrames with
  | [] => []
  | f0 :: _ =>
      let initial := classify (volume f0) in
      initial :: displayed initial (map (fun f => classify (volume f)) volumeFrames)
  end.

(** A direct cut between the wide-open and the closed mouth. *)
Definition jump (a b : MouthState) : Prop :=
  (a = m_open /\ b = m_closed) \/ (a = m_closed /\ b = m_open).


(** ** Frame resolution *)

(** The six keys of an [ExpressionFrameSelection]. *)
Inductive SelectionKey : Type :=
| eyesOpenMouthOpen
| eyesOpenMouthMid
| eyesOpenMouthClosed
| eyesClosedMouthOpen
| eyesClosedMouthMid
| eyesClosedMouthClosed.

(** An [ExpressionFrameSelection]; a field that is absent reads as
    [undefined]. *)
Definition ExpressionFrameSelection : Type := SelectionKey -> option Z.

(** The four recommended frames of a [SpriteSheetAnalysis], as the parsed
    response carries them (a key the response leaves out is absent). *)
Record SpriteSheetAnalysis : Type := {
  recommendedEyesOpenFrame : option Z;
  recommendedEyesClosedFrame : option Z;
  recommendedMouthOpenFrame : option Z;
  recommendedMouthClosedFrame : option Z
}.

(** [analysis?.field ?? 0] *)
Definition recommended (analysis : option SpriteSheetAnalysis)
           (field : SpriteSheetAnalysis -> option Z) : Z :=
  nullish (match analysis with Some a => field a | None => None end) 0%Z.

(** [a || b] on numbers: [0] is the falsy one *)
Definition or_else (a b : Z) : Z := if (a =? 0)%Z then b else a.

(** [createInitialSelection] of the editor; the body of the default
    branch of [resolvedSelection] is the same text. *)
Definition createInitialSelection (analysis : option SpriteSheetAnalysis)
  : ExpressionFrameSelection :=
  let eyesOpen := recommended analysis recommendedEyesOpenFrame in
  let eyesClosed := recommended analysis recommendedEyesClosedFrame in
  let mouthOpen := recommended analysis recommendedMouthOpenFrame in
  let mouthClosed := recommended analysis recommendedMouthClosedFrame in
  let mouthMid := mouthOpen in
  fun key =>
    match key with
    | eyesOpenMouthOpen => Some eyesOpen
    | eyesOpenMouthMid => Some mouthMid
    | eyesOpenMouthClosed => Some eyesOpen
    | eyesClosedMouthOpen => Some eyesClosed
    | eyesClosedMouthMid => Some mouthMid
    | eyesClosedMouthClosed => Some (or_else eyesClosed mouthClosed)
    end.

Definition resolvedSelection (selectedFrames : option ExpressionFrameSelection)
           (spriteAnalysis : option SpriteSheetAnalysis)
  : ExpressionFrameSelection :=
  match selectedFrames with
  | Some sel => sel
  | None =>
      let eyesOpen := recommended spriteAnalysis recommendedEyesOpenFrame in
      let eyesClosed := recommended spriteAnalysis recommendedEyesClosedFrame in
      let mouthOpen := recommended spriteAnalysis recommendedMouthOpenFrame in
      let mouthClosed := recommended spriteAnalysis recommendedMouthClosedFrame in
      let mouthMid := mouthOpen in
      fun key =>
        match key with
        | eyesOpenMouthOpen => Some eyesOpen
        | eyesOpenMouthMid => Some mouthMid
        | eyesOpenMouthClosed => Some eyesOpen
        | eyesClosedMouthOpen => Some eyesClosed
        | eyesClosedMouthMid => Some mouthMid
        | eyesClosedMouthClosed => Some (or_else eyesClosed mouthClosed)
        end
  end.

Definition selection_key (eye : EyeState) (mouth : MouthState) : SelectionKey :=
  match eye with
  | e_open =>
      match mouth with
      | m_open => eyesOpenMouthOpen
      | m_mid => eyesOpenMouthMid
      | m_closed => eyesOpenMouthClosed
      end
  | e_closed =>
      match mouth with
      | m_open => eyesClosedMouthOpen
      | m_mid => eyesClosedMouthMid
      | m_closed => eyesClosedMouthClosed
      end
  end.

Definition resolveFrameIndex (selectedFrames : option ExpressionFrameSelection)
           (spriteAnalysis : option SpriteSheetAnalysis)
           (eye : EyeState) (mouth : MouthState) : Z :=
  nullish (resolvedSelection selectedFrames spriteAnalysis (selection_key eye mouth)) 0%Z.

(** [frames[i]]: [undefined] outside the array *)
Definition array_get {A : Type} (frames : list A) (i : Z) : option A :=
  if (0 <=? i)%Z then nth_error frames (Z.to_nat i) else None.

(** [frames[frameIdx] || frames[0]] in [renderFrame]: the data URL that is
    drawn; the empty string is falsy like [undefined]. *)
Definition frameSrc (frames : list string) (frameIdx : Z) : option string :=
  match array_get frames frameIdx with
  | Some src => if String.eqb src "" then array_get frames 0%Z else Some src
  | None => array_get frames 0%Z
  end.

(** ** The video-generation effect of [FaceAnimator]

    The effect is run by React after a render in which one of its
    dependencies changed; before every re-run React calls the cleanup the
    previous run returned.  The state below is what the effect and
    [generateVideo] read and write between renders. *)

Inductive AudioSource : Type :=
| BufferSource (buffer : nat)   (* an [AudioBuffer], named by a number *)
| StreamSource.                 (* a [MediaStream] *)

Record Animator : Type := {
  videoGenerationRef : bool;            (* a generation is in flight *)
  generatedVideoUrl : option nat;      (* an object URL, named by a number *)
  lastRegenerateKeyRef : Z;
  startTimer : bool;                    (* [setTimeout(generateVideo, 500)] is pending *)
  recordingAttempts : nat               (* calls of [generateVideo] so far *)
}.

(** The component as mounted with [regenerateKey]. *)
Definition mounted (regenerateKey : Z) : Animator :=
  {| videoGenerationRef := false;
     generatedVideoUrl := None;
     lastRegenerateKeyRef := regenerateKey;
     startTimer := false;
     recordingAttempts := 0 |}.

(** The props and refs the effect body looks at. *)
Record EffectProps : Type := {
  canvas : bool;                        (* [canvasRef.current] is set *)
  audioSource : option AudioSource;
  regenerateKey : Z
}.

Definition is_buffer (a : option AudioSource) : bool :=
  match a with
  | Some (BufferSource _) => true
  | _ => false
  end.

(** [generatedVideoUrl] is [null] or a blob URL, which is never empty. *)
Definition truthy_url (u : option nat) : bool :=
  match u with
  | Some _ => true
  | None => false
  end.

(** The body of the effect, up to the [setTimeout] it ends with. *)
Definition effect_body (p : EffectProps) (s : Animator) : Animator :=
  if negb (canvas p) || negb (is_buffer (audioSource p)) then s
  else if videoGenerationRef s then s
  else if truthy_url (generatedVideoUrl s)
          && (lastRegenerateKeyRef s =? regenerateKey p)%Z then s
  else
    {| videoGenerationRef := videoGenerationRef s;
       generatedVideoUrl := generatedVideoUrl s;
       lastRegenerateKeyRef := regenerateKey p;
       startTimer := true;
       recordingAttempts := recordingAttempts s |}.

(** The cleanup [() => clearTimeout(timer)]: a start that has not fired
    yet is cancelled. *)
Definition effect_cleanup (s : Animator) : Animator :=
  {| videoGenerationRef := videoGenerationRef s;
     generatedVideoUrl := generatedVideoUrl s;
     lastRegenerateKeyRef := lastRegenerateKeyRef s;
     startTimer := false;
     recordingAttempts := recordingAttempts s |}.

(** What happens between two renders. *)
Inductive Event : Type :=
| Trigger (p : EffectProps)       (* React re-runs the effect *)
| TimerFires                      (* the 500 ms are over: [generateVideo()] *)
| RecorderStops (url : nat)       (* [mediaRecorder.onstop] *)
| GenerationFails.                (* the [catch] of [generateVideo] *)

Definition step (s : Animator) (e : Event) : Animator :=
  match e with
  | Trigger p => effect_body p (effect_cleanup s)
  | TimerFires =>
      if startTimer s then
        {| videoGenerationRef := true;
           generatedVideoUrl := generatedVideoUrl s;
           lastRegenerateKeyRef := lastRegenerateKeyRef s;
           startTimer := false;
           recordingAttempts := S (recordingAttempts s) |}
      else s
  | RecorderStops url =>
      if videoGenerationRef s then
        {| videoGenerationRef := false;
           generatedVideoUrl := Some url;
           lastRegenerateKeyRef := lastRegenerateKeyRef s;
           startTimer := startTimer s;
           recordingAttempts := recordingAttempts s |}
      else s
  | GenerationFails =>
      if videoGenerationRef s then
        {| videoGenerationRef := false;
           generatedVideoUrl := generatedVideoUrl s;
           lastRegenerateKeyRef := lastRegenerateKeyRef s;
           startTimer := startTimer s;
           recordingAttempts := recordingAttempts s |}
      else s
  end.

Definition run (s : Animator) (events : list Event) : Animator :=
  fold_left step events s.

(** Events of a generation that runs to its end: time passes, nothing is
    triggered and nothing fails. *)
Definition quiet (e : Event) : Prop :=
  match e with
  | TimerFires | RecorderStops _ => True
  | _ => False
  end.

(** Time passes and a generation may fail, but nothing is triggered. *)
Definition untriggered (e : Event) : Prop :=
  match e with
  | Trigger _ => False
  | _ => True
  end.

(** The cleanup of the next re-run has a pending start to cancel. *)
Definition cancels (s : Animator) : Prop := startTimer s = true.

(** The props of a render with a canvas, the audio buffer [buffer] and
    [key]. *)
Definition with_audio (buffer : nat) (key : Z) : EffectProps :=
  {| canvas := true; audioSource := Some (BufferSource buffer); regenerateKey := key |}.

(** ** components/FacePartEditor: dragging a rectangle

    Coordinates are normalised to one frame.  [dx] and [dy] are the pointer
    displacement since the mouse went down, in the same unit. *)

Record FacePartRect : Type := {
  x : Q;
  y : Q;
  w : Q;
  h : Q
}.

Inductive Handle : Type :=
| h_move | h_nw | h_ne | h_sw | h_se | h_n | h_s | h_e | h_w.

Definition set_x (r : FacePartRect) (v : Q) : FacePartRect :=
  {| x := v; y := y r; w := w r; h := h r |}.
Definition set_y (r : FacePartRect) (v : Q) : FacePartRect :=
  {| x := x r; y := v; w := w r; h := h r |}.
Definition set_w (r : FacePartRect) (v : Q) : FacePartRect :=
  {| x := x r; y := y r; w := v; h := h r |}.
Definition set_h (r : FacePartRect) (v : Q) : FacePartRect :=
  {| x := x r; y := y r; w := w r; h := v |}.

Definition is_in (handle : Handle) (handles : list Handle) : bool :=
  existsb (fun k =>
             match handle, k with
             | h_move, h_move | h_nw, h_nw | h_ne, h_ne | h_sw, h_sw
             | h_se, h_se | h_n, h_n | h_s, h_s | h_e, h_e | h_w, h_w => true
             | _, _ => false
             end) handles.

(** [if (c) r = f(r)] *)
Definition when (c : bool) (f : FacePartRect -> FacePartRect)
           (r : FacePartRect) : FacePartRect :=
  if c then f r else r.

(** [if (handle === 'nw' || handle === 'n' || handle === 'w') { ... }] *)
Definition resize_north_west (handle : Handle) (dx dy : Q) (r : FacePartRect)
  : FacePartRect :=
  if is_in handle [h_nw; h_n; h_w] then
    let newW := w r - dx in
    let newH := if is_in handle [h_nw; h_n] then h r - dy else h r in
    if Qltb (1 # 100) newW && Qltb (1 # 100) newH then
      let r := when (is_in handle [h_nw; h_w]) (fun r => set_x r (Qmax 0 (x r + dx))) r in
      let r := when (is_in handle [h_nw; h_n]) (fun r => set_y r (Qmax 0 (y r + dy))) r in
      let r := set_w r newW in
      when (is_in handle [h_nw; h_n]) (fun r => set_h r newH) r
    else r
  else r.

(** [if (handle === 'ne' || handle === 'n' || handle === 'e') { ... }] *)
Definition resize_north_east (handle : Handle) (dx dy : Q) (r : FacePartRect)
  : FacePartRect :=
  if is_in handle [h_ne; h_n; h_e] then
    let newW := if is_in handle [h_ne; h_e] then w r + dx else w r in
    let newH := if is_in handle [h_ne; h_n] then h r - dy else h r in
    if Qltb (1 # 100) newW && Qltb (1 # 100) newH then
      let r := when (is_in handle [h_ne; h_n]) (fun r => set_y r (Qmax 0 (y r + dy))) r in
      let r := set_w r newW in
      when (is_in handle [h_ne; h_n]) (fun r => set_h r newH) r
    else r
  else r.

(** [if (handle === 'sw' || handle === 's' || handle === 'w') { ... }] *)
Definition resize_south_west (handle : Handle) (dx dy : Q) (r : FacePartRect)
  : FacePartRect :=
  if is_in handle [h_sw; h_s; h_w] then
    let newW := if is_in handle [h_sw; h_w] then w r - dx else w r in
    let newH := if is_in handle [h_sw; h_s] then h r + dy else h r in
    if Qltb (1 # 100) newW && Qltb (1 # 100) newH then
      let r := when (is_in handle [h_sw; h_w]) (fun r => set_x r (Qmax 0 (x r + dx))) r in
      let r := set_w r newW in
      set_h r newH
    else r
  else r.

(** [if (handle === 'se' || handle === 's' || handle === 'e') { ... }] *)
Definition resize_south_east (handle : Handle) (dx dy : Q) (r : FacePartRect)
  : FacePartRect :=
  if is_in handle [h_se; h_s; h_e] then
    let newW := if is_in handle [h_se; h_e] then w r + dx else w r in
    let newH := if is_in handle [h_se; h_s] then h r + dy else h r in
    if Qltb (1 # 100) newW && Qltb (1 # 100) newH
       && Qle_bool (x r + newW) 1 && Qle_bool (y r + newH) 1 then
      let r := set_w r newW in
      set_h r newH
    else r
  else r.

(** The rectangle [handleMouseMove] stores for the dragged part: the four
    resize blocks run one after the other on [currentRect]. *)
Definition handleMouseMove (handle : Handle) (startRect : FacePartRect)
           (dx dy : Q) : FacePartRect :=
  let currentRect := startRect in
  match handle with
  | h_move =>
      let currentRect :=
        set_x currentRect (Qmax 0 (Qmin (1 - w currentRect) (x currentRect + dx))) in
      set_y currentRect (Qmax 0 (Qmin (1 - h currentRect) (y currentRect + dy)))
  | _ =>
      resize_south_east handle dx dy
        (resize_south_west handle dx dy
           (resize_north_east handle dx dy
              (resize_north_west handle dx dy currentRect)))
  end.

(** A rectangle that lies in the unit square. *)
Definition in_unit_square (r : FacePartRect) : Prop :=
  0 <= x r /\ 0 <= y r /\ x r + w r <= 1 /\ y r + h r <= 1.

(** ** The pixel heuristic (face-part utilities) *)

Record FacePartRectMap : Type := {
  eyesOpen : FacePartRect;
  eyesClosed : FacePartRect;
  mouthOpen : FacePartRect;
  mouthClosed : FacePartRect
}.

Definition DEFAULT_FACE_PARTS : FacePartRectMap :=
  {| eyesOpen := {| x := 25 # 100; y := 2 # 10; w := 5 # 10; h := 15 # 100 |};
     eyesClosed := {| x := 25 # 100; y := 2 # 10; w := 5 # 10; h := 5 # 100 |};
     mouthOpen := {| x := 3 # 10; y := 5 # 10; w := 4 # 10; h := 2 # 10 |};
     mouthClosed := {| x := 3 # 10; y := 55 # 100; w := 4 # 10; h := 5 # 100 |} |}.

Record BestFrames : Type := {
  eyesOpenFrameIndex : nat;
  eyesClosedFrameIndex : nat;
  mouthOpenFrameIndex : nat;
  mouthClosedFrameIndex : nat
}.

Section Heuristic.

(** The score [analyzeMouthOpenness] resolves with for a frame, a region
    and the frame size; it decodes the image and reads its pixels, which
    is left to the browser. *)
Variable analyzeMouthOpenness : string -> FacePartRect -> Q -> Q -> num.

Record ScanState : Type := {
  maxMouthOpen : num;
  minMouthOpen : num;
  mouthOpenIndex : nat;
  mouthClosedIndex : nat
}.

Definition scan_start : ScanState :=
  {| maxMouthOpen := Fin 0; minMouthOpen := PInf;
     mouthOpenIndex := 0; mouthClosedIndex := 0 |}.

Definition mouthRect : FacePartRect :=
  let mo := mouthOpen DEFAULT_FACE_PARTS in
  let mc := mouthClosed DEFAULT_FACE_PARTS in
  {| x := Qmin (x mo) (x mc);
     y := Qmin (y mo) (y mc);
     w := Qmax (x mo + w mo) (x mc + w mc) - Qmin (x mo) (x mc);
     h := Qmax (y mo + h mo) (y mc + h mc) - Qmin (y mo) (y mc) |}.

(** One pass through the body of the loop over the frames, at index [i]. *)
Definition scan_frame (frameWidth frameHeight : Q) (i : nat) (frame : string)
           (st : ScanState) : ScanState :=
  let openness := analyzeMouthOpenness frame mouthRect frameWidth frameHeight in
  let st1 :=
    if gt openness (maxMouthOpen st) then
      {| maxMouthOpen := openness; minMouthOpen := minMouthOpen st;
         mouthOpenIndex := i; mouthClosedIndex := mouthClosedIndex st |}
    else st in
  if lt openness (minMouthOpen st1) then
    {| maxMouthOpen := maxMouthOpen st1; minMouthOpen := openness;
       mouthOpenIndex := mouthOpenIndex st1; mouthClosedIndex := i |}
  else st1.

Fixpoint scan_frames (frameWidth frameHeight : Q) (i : nat)
         (frames : list string) (st : ScanState) : ScanState :=
  match frames with
  | [] => st
  | frame :: rest =>
      scan_frames frameWidth frameHeight (S i) rest
                  (scan_frame frameWidth frameHeight i frame st)
  end.

Definition findBestExpressionFrames (frames : list string)
           (frameWidth frameHeight : Q) : BestFrames :=
  let st := scan_frames frameWidth frameHeight 0 frames scan_start in
  {| eyesOpenFrameIndex := 0;
     eyesClosedFrameIndex := 0;
     mouthOpenFrameIndex := mouthOpenIndex st;
     mouthClosedFrameIndex := mouthClosedIndex st |}.

End Heuristic.

(** ** services/geminiService: [analyzeSpriteSheet] *)

Record Part : Type := {
  text : option string
}.

Record Content : Type := {
  parts : option (list Part)
}.

Record Candidate : Type := {
  content : option Content
}.

Record Response : Type := {
  candidates : option (list Candidate)
}.

(** What a call ends with: the value it returns, or the message of the
    [Error] it throws. *)
Inductive Outcome (A : Type) : Type :=
| Returns (value : A)
| Throws (message : string).

Arguments Returns {A} value.
Arguments Throws {A} message.

Section AnalyzeSpriteSheet.

(** The values [JSON.parse] produces, and [JSON.parse] itself: [None] when
    it throws a [SyntaxError]. *)
Variable Json : Type.
Variable JSON_parse : string -> option Json.

(** [response.candidates?.[0]?.content?.parts] *)
Definition first_candidate_parts (response : Response) : option (list Part) :=
  match candidates response with
  | Some (c :: _) =>
      match content c with
      | Some ct => parts ct
      | None => None
      end
  | _ => None
  end.

(** [if (part.text)]: the text when it is there and not empty *)
Definition truthy_text (part : Part) : option string :=
  match text part with
  | Some t => if String.eqb t "" then None else Some t
  | None => None
  end.

(** [for (const part of parts) { if (part.text) { try { return JSON.parse(part.text) } catch { throw ... } } }];
    [None] when the loop runs to its end. *)
Fixpoint scan_parts (ps : list Part) : option (Outcome Json) :=
  match ps with
  | [] => None
  | part :: rest =>
      match truthy_text part with
      | Some t =>
          match JSON_parse t with
          | Some analysis => Some (Returns analysis)
          | None => Some (Throws "Failed to parse analysis response as JSON")
          end
      | None => scan_parts rest
      end
  end.

(** [analyzeSpriteSheet], from the point where [generateContent] has
    settled: with the response, or with the error it rejected with, which
    the outer [catch] throws again. *)
Definition analyzeSpriteSheet (remote : Outcome Response) : Outcome Json :=
  match remote with
  | Throws message => Throws message
  | Returns response =>
      match first_candidate_parts response with
      | Some ps =>
          match scan_parts ps with
          | Some outcome => outcome
          | None => Throws "No analysis data in the response."
          end
      | None => Throws "No analysis data in the response."
      end
  end.

(** The text parts of a response, in order. *)
Definition text_parts (response : Response) : list string :=
  match first_candidate_parts response with
  | Some ps =>
      flat_map (fun p => match truthy_text p with Some t => [t] | None => [] end) ps
  | None => []
  end.

End AnalyzeSpriteSheet.

(** ** [FaceAnimator]: the loop that drives a recording

    [updateFrame] runs on a timer.  Each call reads the clock; [elapsed]
    is the time in seconds since the recorder was started. *)

Record MuxState : Type := {
  frameIndex : nat;            (* the next frame of [volumeFrames] to show *)
  mouthStateRef : MouthState   (* [mouthStateRef.current] *)
}.

(** What a call of [updateFrame] schedules before it returns. *)
Inductive Scheduled : Type :=
| StopRecording             (* [setTimeout(stop everything, 200)] *)
| CallAgain (delay : num).  (* [setTimeout(updateFrame, delay)] *)

(** The state [generateVideo] sets up before the first call: the class of
    the first frame, or the mouth as it was for an empty list. *)
Definition mux_start (classify : num -> MouthState)
           (volumeFrames : list VolumeFrame) (current : MouthState) : MuxState :=
  match volumeFrames with
  | [] => {| frameIndex := 0; mouthStateRef := current |}
  | f0 :: _ => {| frameIndex := 0; mouthStateRef := classify (volume f0) |}
  end.

Definition updateFrame (classify : num -> MouthState) (frameInterval : num)
           (volumeFrames : list VolumeFrame) (elapsed : Q) (s : MuxState)
  : MuxState * Scheduled :=
  match nth_error volumeFrames (frameIndex s) with
  | None => (s, StopRecording)
  | Some currentFrame =>
      let s1 :=
        if ge (Fin elapsed) (time currentFrame) then
          let target := classify (volume currentFrame) in
          let nextMouth := smoothTransition (mouthStateRef s) target in
          {| frameIndex := S (frameIndex s); mouthStateRef := nextMouth |}
        else s in
      match nth_error volumeFrames (frameIndex s1) with
      | Some nextFrame =>
          let nextFrameTime := time nextFrame in
          let waitTime :=
            Math_max (Fin 0) (mul (sub nextFrameTime (Fin elapsed)) (Fin 1000)) in
          (s1, CallAgain (Math_min waitTime frameInterval))
      | None => (s1, CallAgain frameInterval)
      end
  end.

(** The calls of [updateFrame] at the clock readings [clock], one after
    the other. *)
Definition run_updates (classify : num -> MouthState) (frameInterval : num)
           (volumeFrames : list VolumeFrame) (clock : list Q) (s : MuxState)
  : MuxState :=
  fold_left (fun s elapsed => fst (updateFrame classify frameInterval volumeFrames elapsed s))
            clock s.

(** The order of the mouth states, from closed to open. *)
Definition openness (m : MouthState) : nat :=
  match m with
  | m_closed => 0
  | m_mid => 1
  | m_open => 2
  end.

(** ** [FaceAnimationEditor]: choosing a frame for a key *)

Definition key_eqb (a b : SelectionKey) : bool :=
  match a, b with
  | eyesOpenMouthOpen, eyesOpenMouthOpen
  | eyesOpenMouthMid, eyesOpenMouthMid
  | eyesOpenMouthClosed, eyesOpenMouthClosed
  | eyesClosedMouthOpen, eyesClosedMouthOpen
  | eyesClosedMouthMid, eyesClosedMouthMid
  | eyesClosedMouthClosed, eyesClosedMouthClosed => true
  | _, _ => false
  end.

(** [{ ...(prev || createInitialSelection(spriteAnalysis)), [key]: frameIndex }] *)
Definition handleFrameSelect (spriteAnalysis : option SpriteSheetAnalysis)
           (prev : option ExpressionFrameSelection)
           (key : SelectionKey) (frameIndex : Z) : ExpressionFrameSelection :=
  let base :=
    match prev with
    | Some sel => sel
    | None => createInitialSelection spriteAnalysis
    end in
  fun k => if key_eqb k key then Some frameIndex else base k.

(** The selection after the clicks [clicks] in the frame selector. *)
Definition select_all (spriteAnalysis : option SpriteSheetAnalysis)
           (prev : option ExpressionFrameSelection)
           (clicks : list (SelectionKey * Z)) : option ExpressionFrameSelection :=
  fold_left (fun sel click =>
               Some (handleFrameSelect spriteAnalysis sel (fst click) (snd click)))
            clicks prev.

(** ** [FacePartEditor]: normalised and pixel coordinates

    [container] is the size of the container's bounding rectangle, absent
    while the element is not mounted; [width] and [height] are the props
    of the component. *)




(** Two rectangles with the same coordinates. *)
Definition same_rect (a b : FacePartRect) : Prop :=
  x a == x b /\ y a == y b /\ w a == w b /\ h a == h b.

(** ** Face-part utilities: the pixels of a part

    [Math.floor(rect.x * width)] and its three companions, as
    [analyzeMouthOpenness] and [extractFaceParts] compute them before they
    crop a frame. *)
Record PixelRect : Type := {
  px : Z;
  py : Z;
  pw : Z;
  ph : Z
}.

Definition pixel_rect (rect : FacePartRect) (width height : Q) : PixelRect :=
  {| px := Qfloor (x rect * width);
     py := Qfloor (y rect * height);
     pw := Qfloor (w rect * width);
     ph := Qfloor (h rect * height) |}.

(** ** services/geminiService: [generateSprite] *)

(** The field of a part that [generateSprite] reads: [inlineData.data]. *)
Record InlineData : Type := {
  data : option string
}.

Record ImagePart : Type := {
  inlineData : option InlineData
}.

(** [if (part.inlineData && part.inlineData.data)]: the data when it is
    there and not empty *)
Definition truthy_data (part : ImagePart) : option string :=
  match inlineData part with
  | Some d =>
      match data d with
      | Some s => if String.eqb s "" then None else Some s
      | None => None
      end
  | None => None
  end.

(** [s] without the prefix [p], when it starts with it. *)
Fixpoint drop_prefix (p s : string) : option string :=
  match p with
  | EmptyString => Some s
  | String c p' =>
      match s with
      | EmptyString => None
      | String d s' => if Ascii.eqb c d then drop_prefix p' s' else None
      end
  end.

(** [s.replace(/^data:image\/(png|jpeg|jpg|webp);base64,/, '')] *)
Definition cleanBase64 (s : string) : string :=
  match drop_prefix "data:image/png;base64," s with
  | Some rest => rest
  | None =>
      match drop_prefix "data:image/jpeg;base64," s with
      | Some rest => rest
      | None =>
          match drop_prefix "data:image/jpg;base64," s with
          | Some rest => rest
          | None =>
              match drop_prefix "data:image/webp;base64," s with
              | Some rest => rest
              | None => s
              end
          end
      end
  end.

(** [for (const part of parts) { if (part.inlineData && part.inlineData.data) return `data:image/png;base64,${...}` }] *)
Fixpoint first_image (ps : list ImagePart) : option string :=
  match ps with
  | [] => None
  | part :: rest =>
      match truthy_data part with
      | Some d => Some (String.append "data:image/png;base64," d)
      | None => first_image rest
      end
  end.

(** [generateSprite], from the point where [generateContent] has settled;
    [parts] is [response.candidates?.[0]?.content?.parts]. *)
Definition generateSprite (remote : Outcome (option (list ImagePart)))
  : Outcome string :=
  match remote with
  | Throws message => Throws message
  | Returns (Some ps) =>
      match first_image ps with
      | Some url => Returns url
      | None => Throws "No image generated in the response."
      end
  | Returns None => Throws "No image generated in the response."
  end.

(** ** Face-part utilities: the score of [analyzeMouthOpenness]

    What the [onload] handler computes from the bytes [data] of the
    cropped region, [w] pixels wide and [h] pixels high, with
    [Math.sqrt] given by [sqrtQ].  A pixel whose alpha byte lies outside
    [data] reads [undefined], fails [alpha > 128] and is skipped like a
    transparent one. *)

Definition brightness_of (r g b : Z) : Q :=
  (inject_Z r * (299 # 1000) + inject_Z g * (587 # 1000) + inject_Z b * (114 # 1000)) / 255.

Definition byte_at (data : list Z) (idx : Z) : option Z :=
  if (idx <? 0)%Z then None else nth_error data (Z.to_nat idx).

(** The body of the inner loop, at row [row] and column [col]: what it
    pushes on [brightnessValues]. *)
Definition pixel_values (data : list Z) (w row col : Z) : list Q :=
  let idx := ((row * w + col) * 4)%Z in
  match byte_at data (idx + 3) with
  | Some alpha =>
      if (128 <? alpha)%Z then
        [brightness_of (nth (Z.to_nat idx) data 0%Z)
                       (nth (Z.to_nat (idx + 1)) data 0%Z)
                       (nth (Z.to_nat (idx + 2)) data 0%Z)]
      else []
  | None => []
  end.

(** [for (i = from; i < to; i++)] over integers *)
Definition range (from to : Z) : list Z :=
  map (fun k => (from + Z.of_nat k)%Z) (seq 0 (Z.to_nat (to - from))).

Definition brightnessValues (data : list Z) (w h : Z) : list Q :=
  let centerStartY := Qfloor (inject_Z h * (2 # 10)) in
  let centerEndY := Qfloor (inject_Z h * (8 # 10)) in
  flat_map (fun row => flat_map (pixel_values data w row) (range 0 w))
           (range centerStartY centerEndY).

Definition Qsum (values : list Q) : Q := fold_left Qplus values 0.

Definition darkPixels (values : list Q) : nat :=
  List.length (filter (fun brightness => Qltb brightness (3 # 10)) values).

Definition mouth_score (sqrtQ : Q -> Q) (data : list Z) (w h : Z) : Q :=
  let values := brightnessValues data w h in
  match values with
  | [] => 0
  | _ =>
      let count := inject_Z (Z.of_nat (List.length values)) in
      let avgBrightness := Qsum values / count in
      let variance :=
        fold_left (fun sum val =>
                     let diff := val - avgBrightness in sum + diff * diff)
                  values 0 / count in
      let stdDev := sqrtQ variance in
      let darkRatio := inject_Z (Z.of_nat (darkPixels values)) / count in
      let normalizedVariance := Qmin (stdDev * 3) 1 in
      normalizedVariance * (7 # 10) + darkRatio * (3 # 10)
  end.

(** A region of two rows kept by the centre band, one dark and one light
    pixel in each; and a fully transparent one. *)
Definition two_tone_region : list Z :=
  concat (repeat [0; 0; 0; 255; 255; 255; 255; 255]%Z 5).

Definition transparent_region : list Z := repeat 0%Z 40.

(** ** hooks/useAudioMouthSync: the live analysis loop

    [analyze] runs once per animation frame on the loudness [rms] of the
    analyser's current window; every release timeout it sets fires later
    on its own.  The refs are those of the hook. *)

Module Sync.

Record Hook : Type := {
  smoothingRef : Q;
  lastVolumeRef : Q;
  mouthStateRef : MouthState;
  isActive : bool;
  releaseTimers : nat     (* timeouts set by [analyze] that have not fired *)
}.

(** The hook as mounted. *)
Definition mounted : Hook :=
  {| smoothingRef := 0; lastVolumeRef := 0; mouthStateRef := m_closed;
     isActive := true; releaseTimers := 0 |}.

Definition analyze (threshold rms : Q) (s : Hook) : Hook :=
  if negb (isActive s) then s
  else
    let smoothedVolume := smoothingRef s * (7 # 10) + rms * (3 # 10) in
    if Qltb threshold smoothedVolume then
      {| smoothingRef := smoothedVolume; lastVolumeRef := smoothedVolume;
         mouthStateRef := m_open;
         isActive := isActive s; releaseTimers := releaseTimers s |}
    else if Qltb threshold (lastVolumeRef s) then
      {| smoothingRef := smoothedVolume; lastVolumeRef := lastVolumeRef s;
         mouthStateRef := mouthStateRef s;
         isActive := isActive s; releaseTimers := S (releaseTimers s) |}
    else
      {| smoothingRef := smoothedVolume; lastVolumeRef := lastVolumeRef s;
         mouthStateRef := m_closed;
         isActive := isActive s; releaseTimers := releaseTimers s |}.

(** The callback of a release timeout. *)
Definition release (threshold : Q) (s : Hook) : Hook :=
  match releaseTimers s with
  | O => s
  | S n =>
      {| smoothingRef := smoothingRef s; lastVolumeRef := lastVolumeRef s;
         mouthStateRef :=
           if isActive s && Qle_bool (smoothingRef s) threshold
           then m_closed else mouthStateRef s;
         isActive := isActive s; releaseTimers := n |}
  end.

(** The cleanup of the effect. *)
Definition cleanup (s : Hook) : Hook :=
  {| smoothingRef := smoothingRef s; lastVolumeRef := lastVolumeRef s;
     mouthStateRef := mouthStateRef s;
     isActive := false; releaseTimers := releaseTimers s |}.

Inductive Event : Type :=
| Frame (rms : Q)     (* an animation frame *)
| ReleaseFires        (* a release timeout *)
| Cleanup.            (* the effect is torn down *)

Definition step (threshold : Q) (s : Hook) (e : Event) : Hook :=
  match e with
  | Frame rms => analyze threshold rms s
  | ReleaseFires => release threshold s
  | Cleanup => cleanup s
  end.

Definition run (threshold : Q) (s : Hook) (events : list Event) : Hook :=
  fold_left (step threshold) events s.

(** The loudness of a window of bytes lies between 0 and 1. *)
Definition unit_frames (events : list Event) : Prop :=
  Forall (fun e => match e with Frame rms => 0 <= rms <= 1 | _ => True end) events.

End Sync.

(** ** Predicates and sample inputs of the properties below *)

(** An audio clip of one second at 100 Hz: a burst of full-scale samples
    in its first 50 ms, silence after it. *)
Definition burst_clip : AudioBuffer :=
  buffer_of 100 (repeat 1 5 ++ repeat 0 95).

(** A quarter of a second at 44100 Hz: 12348 samples of half scale. *)
Definition quarter_second_clip : AudioBuffer :=
  buffer_of 44100 (repeat (1 # 2) (Z.to_nat 12348)).

(** Four samples at 8000 Hz analysed at 16000 frames per second: the
    window length is [floor(8000 / 16000) = 0]. *)
Definition short_clip : AudioBuffer := buffer_of 8000 [1; 1; 1; 1].

(** Every index an analysis recommends lies in [0, n). *)
Definition analysis_in_range (n : Z) (a : SpriteSheetAnalysis) : Prop :=
  forall field,
    In field [recommendedEyesOpenFrame; recommendedEyesClosedFrame;
              recommendedMouthOpenFrame; recommendedMouthClosedFrame] ->
    forall v, field a = Some v -> (0 <= v < n)%Z.

(** Every index a selection holds lies in [0, n). *)
Definition selection_in_range (n : Z) (sel : ExpressionFrameSelection) : Prop :=
  forall key v, sel key = Some v -> (0 <= v < n)%Z.

(** An analysis that recommends frame 16 of a sheet of 16 frames. *)
Definition analysis_past_the_sheet : SpriteSheetAnalysis :=
  {| recommendedEyesOpenFrame := Some 16%Z;
     recommendedEyesClosedFrame := Some 2%Z;
     recommendedMouthOpenFrame := Some 5%Z;
     recommendedMouthClosedFrame := Some 15%Z |}.

(** Two analyses that differ in the recommended eyes-closed frame. *)
Definition analysis_eyes_closed_at (frame : Z) : SpriteSheetAnalysis :=
  {| recommendedEyesOpenFrame := Some 1%Z;
     recommendedEyesClosedFrame := Some frame;
     recommendedMouthOpenFrame := Some 5%Z;
     recommendedMouthClosedFrame := Some 15%Z |}.

(** The states a first, accepted trigger for [key] can lead to while
    nothing fails and nothing else is triggered; [attempts] counts the
    recordings before that trigger.  Either the start is still pending, or
    the one generation it started is in flight, or that generation has
    left its video. *)
Inductive Triggered (key : Z) (attempts : nat) (s : Animator) : Prop :=
| start_pending :
    lastRegenerateKeyRef s = key -> startTimer s = true ->
    videoGenerationRef s = false -> recordingAttempts s = attempts ->
    Triggered key attempts s
| in_flight :
    lastRegenerateKeyRef s = key -> startTimer s = false ->
    videoGenerationRef s = true -> recordingAttempts s = S attempts ->
    Triggered key attempts s
| video_ready :
    lastRegenerateKeyRef s = key -> startTimer s = false ->
    videoGenerationRef s = false -> truthy_url (generatedVideoUrl s) = true ->
    recordingAttempts s = S attempts ->
    Triggered key attempts s.

(** The props of the example traces. *)
Definition same_props : EffectProps := with_audio 0 0.

(** A freshly mounted component whose first generation was triggered,
    started after 500 ms and failed. *)
Definition failed_once : Animator :=
  run (step (mounted 0) (Trigger same_props)) [TimerFires; GenerationFails].

(** A freshly mounted component whose first generation was triggered,
    started and left its video. *)
Definition recorded_once : Animator :=
  run (step (mounted 0) (Trigger same_props)) [TimerFires; RecorderStops 1].

(** The default rectangle of the open eyes. *)
Definition eyes_rect : FacePartRect := eyesOpen DEFAULT_FACE_PARTS.

(** Two scorers that disagree on which of two frames is the most open. *)
Definition score_first_open (frame : string) (_ : FacePartRect) (_ _ : Q) : num :=
  if String.eqb frame "a" then Fin (1 # 2) else Fin (1 # 4).

Definition score_second_open (frame : string) (_ : FacePartRect) (_ _ : Q) : num :=
  if String.eqb frame "a" then Fin (1 # 4) else Fin (1 # 2).

(** A parser that accepts one text only, and two responses: one whose
    text is not that text, one without a text part. *)
Definition parse_only_braces (t : string) : option nat :=
  if String.eqb t "{}" then Some 0%nat else None.

Definition response_with_text (t : string) : Response :=
  {| candidates :=
       Some [ {| content := Some {| parts := Some [ {| text := Some t |} ] |} |} ] |}.

Definition response_without_text : Response :=
  {| candidates :=
       Some [ {| content := Some {| parts := Some [ {| text := None |} ] |} |} ] |}.

(** ** Predicates of the further properties *)

(** A value that is 0 or [NaN]. *)
Definition zero_or_nan (a : num) : Prop :=
  match a with
  | Fin q => q == 0
  | NaN => True
  | _ => False
  end.

(** A value between 0 and 1, or [NaN]. *)
Definition unit_or_nan (a : num) : Prop :=
  match a with
  | Fin q => 0 <= q <= 1
  | NaN => True
  | _ => False
  end.

(** Three frames of a recording at 10 frames per second: loud, quiet,
    loud. *)
Definition three_frames : list VolumeFrame :=
  [ {| time := Fin 0; volume := Fin (1 # 2); mouthState := oc_open |};
    {| time := Fin (1 # 10); volume := Fin 0; mouthState := oc_open |};
    {| time := Fin (2 # 10); volume := Fin (1 # 2); mouthState := oc_open |} ].

(** A render that can start a generation: it has a canvas and an audio
    buffer. *)
Definition can_start (e : Event) : bool :=
  match e with
  | Trigger p => canvas p && is_buffer (audioSource p)
  | _ => false
  end.

(** A start is pending only while no generation is in flight. *)
Definition timer_excludes_flight (s : Animator) : Prop :=
  startTimer s = true -> videoGenerationRef s = false.

(** What the effect was last asked for: a render for [key]. *)
Definition for_key (key : Z) (e : Event) : Prop :=
  match e with
  | Trigger p => regenerateKey p = key
  | _ => True
  end.

(** A finished video for [key]: nothing pending, nothing in flight. *)
Definition done_for (key : Z) (s : Animator) : Prop :=
  videoGenerationRef s = false /\ startTimer s = false /\
  truthy_url (generatedVideoUrl s) = true /\ lastRegenerateKeyRef s = key.


(** * Properties *)

(** ** Comparisons and rounding *)

Lemma Qltb_lt (a b : Q) : Qltb a b = true <-> a < b.
Proof.
  unfold Qltb. rewrite negb_true_iff. split; intro H.
  - apply Qnot_le_lt. intro Hle. apply Qle_bool_iff in Hle. congruence.
  - destruct (Qle_bool b a) eqn:E; [|reflexivity].
    apply Qle_bool_iff in E. exfalso. exact (Qlt_not_le _ _ H E).
Qed.

Lemma Qltb_ge (a b : Q) : Qltb a b = false <-> b <= a.
Proof.
  unfold Qltb. rewrite negb_false_iff. apply Qle_bool_iff.
Qed.

Lemma lt_ofZ (a b : Z) : lt (ofZ a) (ofZ b) = true <-> (a < b)%Z.
Proof.
  unfold ofZ. simpl. rewrite Qltb_lt, Zlt_Qlt. reflexivity.
Qed.

Lemma is_zero_false (a : Q) : ~ a == 0 -> is_zero a = false.
Proof.
  intro H. unfold is_zero. destruct (Qeq_bool a 0) eqn:E; [|reflexivity].
  apply Qeq_bool_iff in E. contradiction.
Qed.

Lemma Qceiling_inject_sub0 (z : Z) : Qceiling (inject_Z z - inject_Z 0) = z.
Proof.
  rewrite <- (Qceiling_Z z) at 2. apply Qceiling_comp.
  unfold Qminus. simpl. ring.
Qed.

(** ** Rounding to the nearest double *)

Lemma pow2_pos (e : Z) : 0 < 2 ^ e.
Proof. apply Qpower_0_lt. reflexivity. Qed.

Lemma pow2_succ (e : Z) : 2 ^ (e + 1) == 2 * 2 ^ e.
Proof. rewrite Qpower_plus; [|discriminate]. change (2 ^ 1) with 2. ring. Qed.

Lemma pow2_mono (a b : Z) : (a <= b)%Z -> 2 ^ a <= 2 ^ b.
Proof. intro H. apply Qpower_le_compat_l; [exact H|discriminate]. Qed.

Lemma pow2_mono_inv (a b : Z) : 2 ^ a < 2 ^ b -> (a < b)%Z.
Proof. intro H. apply (Qpower_lt_compat_l_inv 2); [exact H|reflexivity]. Qed.

Lemma pow2_Z (n : Z) : (0 <= n)%Z -> inject_Z (2 ^ n) == 2 ^ n.
Proof. intro H. apply (Zpower_Qpower 2 n H). Qed.

(** [floor_log2 x] is the exponent of the binade of a positive [x]. *)
Lemma floor_log2_spec (x : Q) :
  0 < x -> 2 ^ floor_log2 x <= x /\ x < 2 ^ (floor_log2 x + 1).
Proof.
  intro Hx. destruct x as [n d]. unfold floor_log2. cbn [Qnum Qden].
  assert (Hn : (0 < n)%Z).
  { unfold Qlt in Hx. simpl in Hx. lia. }
  set (a := Z.log2 n). set (b := Z.log2 (Z.pos d)).
  destruct (Z.log2_spec n Hn) as [Ha1 Ha2]. fold a in Ha1, Ha2.
  destruct (Z.log2_spec (Z.pos d) ltac:(lia)) as [Hb1 Hb2]. fold b in Hb1, Hb2.
  assert (Ha0 : (0 <= a)%Z) by apply Z.log2_nonneg.
  assert (Hb0 : (0 <= b)%Z) by apply Z.log2_nonneg.
  assert (Qa1 : 2 ^ a <= inject_Z n) by (rewrite <- pow2_Z by lia; now rewrite <- Zle_Qle).
  assert (Qa2 : inject_Z n < 2 ^ (a + 1))
    by (rewrite <- pow2_Z by lia; rewrite <- Zlt_Qlt; now rewrite <- Z.add_1_r in Ha2).
  assert (Qb1 : 2 ^ b <= inject_Z (Z.pos d)) by (rewrite <- pow2_Z by lia; now rewrite <- Zle_Qle).
  assert (Qb2 : inject_Z (Z.pos d) < 2 ^ (b + 1))
    by (rewrite <- pow2_Z by lia; rewrite <- Zlt_Qlt; now rewrite <- Z.add_1_r in Hb2).
  assert (Hd : 0 < inject_Z (Z.pos d)) by reflexivity.
  assert (Hq : (n # d) * inject_Z (Z.pos d) == inject_Z n).
  { rewrite (Qmake_Qdiv n d). field. intro E. rewrite E in Hd. discriminate. }
  set (x := n # d) in *.
  pose proof (pow2_pos a) as Pa. pose proof (pow2_pos b) as Pb.
  pose proof (pow2_pos (a - b)) as Pl.
  assert (Eab : 2 ^ a == 2 ^ (a - b) * 2 ^ b).
  { rewrite <- Qpower_plus by discriminate. now replace (a - b + b)%Z with a by lia. }
  rewrite pow2_succ in Qa2, Qb2.
  destruct (Qle_bool (2 ^ (a - b)) x) eqn:E.
  - apply Qle_bool_iff in E. split; [exact E|].
    rewrite pow2_succ.
    apply Qnot_le_lt. intro Hc.
    assert (2 * 2 ^ (a - b) * 2 ^ b <= x * inject_Z (Z.pos d)).
    { apply Qle_trans with (x * 2 ^ b).
      - apply Qmult_le_compat_r; [exact Hc|now apply Qlt_le_weak].
      - rewrite (Qmult_comm x (2 ^ b)), (Qmult_comm x (inject_Z _)).
        apply Qmult_le_compat_r; [exact Qb1|now apply Qlt_le_weak]. }
    rewrite Hq in H. rewrite <- Qmult_assoc, <- Eab in H. lra.
  - assert (E' : x < 2 ^ (a - b)).
    { apply Qnot_le_lt. intro Hc. apply Qle_bool_iff in Hc. congruence. }
    replace (a - b - 1 + 1)%Z with (a - b)%Z by lia. split; [|exact E'].
    assert (E1 : 2 ^ (a - b) == 2 * 2 ^ (a - b - 1)).
    { rewrite <- pow2_succ. now replace (a - b - 1 + 1)%Z with (a - b)%Z by lia. }
    pose proof (pow2_pos (a - b - 1)) as Pl1.
    apply Qnot_lt_le. intro Hc.
    assert (x * inject_Z (Z.pos d) < 2 ^ (a - b - 1) * (2 * 2 ^ b)).
    { apply Qle_lt_trans with (x * (2 * 2 ^ b)).
      - rewrite (Qmult_comm x (inject_Z _)), (Qmult_comm x (2 * 2 ^ b)).
        apply Qmult_le_compat_r; [now apply Qlt_le_weak|now apply Qlt_le_weak].
      - apply Qmult_lt_compat_r; [lra|exact Hc]. }
    rewrite Hq in H.
    assert (2 ^ (a - b - 1) * (2 * 2 ^ b) == 2 ^ a) by (rewrite Eab, E1; ring).
    lra.
Qed.

Lemma floor_log2_unique (x : Q) (e : Z) :
  0 < x -> 2 ^ e <= x -> x < 2 ^ (e + 1) -> floor_log2 x = e.
Proof.
  intros Hx H1 H2. destruct (floor_log2_spec x Hx) as [F1 F2].
  assert (A : (e < floor_log2 x + 1)%Z)
    by (apply pow2_mono_inv; eapply Qle_lt_trans; eassumption).
  assert (B : (floor_log2 x < e + 1)%Z)
    by (apply pow2_mono_inv; eapply Qle_lt_trans; eassumption).
  lia.
Qed.

Lemma floor_log2_comp (x y : Q) : 0 < x -> x == y -> floor_log2 x = floor_log2 y.
Proof.
  intros Hx E. assert (Hy : 0 < y) by now rewrite <- E.
  destruct (floor_log2_spec y Hy) as [F1 F2].
  apply floor_log2_unique; [exact Hx|now rewrite E|now rewrite E].
Qed.

Lemma floor_log2_mono (x y : Q) : 0 < x -> x <= y -> (floor_log2 x <= floor_log2 y)%Z.
Proof.
  intros Hx H. assert (Hy : 0 < y) by (eapply Qlt_le_trans; eassumption).
  destruct (floor_log2_spec x Hx) as [F1 _], (floor_log2_spec y Hy) as [_ G2].
  assert (A : (floor_log2 x < floor_log2 y + 1)%Z).
  { apply pow2_mono_inv. eapply Qle_lt_trans; [exact F1|]. eapply Qle_lt_trans; eassumption. }
  lia.
Qed.

Lemma nearest_even_cases (x : Q) :
  (nearest_even x = Qfloor x /\ x - inject_Z (Qfloor x) <= 1 # 2) \/
  (nearest_even x = (Qfloor x + 1)%Z /\ 1 # 2 <= x - inject_Z (Qfloor x)).
Proof.
  unfold nearest_even. cbv zeta.
  destruct (Qcompare (x - inject_Z (Qfloor x)) (1 # 2)) eqn:E.
  - apply Qeq_alt in E. destruct (Z.even (Qfloor x)); [left|right]; split;
      try reflexivity; rewrite E; apply Qle_refl.
  - apply Qlt_alt in E. left. split; [reflexivity|now apply Qlt_le_weak].
  - apply Qgt_alt in E. right. split; [reflexivity|now apply Qlt_le_weak].
Qed.



Lemma nearest_even_comp (x y : Q) : x == y -> nearest_even x = nearest_even y.
Proof.
  intro E. unfold nearest_even. cbv zeta.
  rewrite (Qfloor_comp x y E).
  assert (C : Qcompare (x - inject_Z (Qfloor y)) (1 # 2)
              = Qcompare (y - inject_Z (Qfloor y)) (1 # 2)).
  { apply Qcompare_comp; [now rewrite E|reflexivity]. }
  now rewrite C.
Qed.

Lemma nearest_even_Z (k : Z) : nearest_even (inject_Z k) = k.
Proof.
  unfold nearest_even. cbv zeta. rewrite Qfloor_Z.
  assert (C : Qcompare (inject_Z k - inject_Z k) (1 # 2) = Lt).
  { apply Qlt_alt. setoid_replace (inject_Z k - inject_Z k) with 0 by ring. reflexivity. }
  now rewrite C.
Qed.

Lemma nearest_even_mono (x y : Q) : x <= y -> (nearest_even x <= nearest_even y)%Z.
Proof.
  intro H. pose proof (Qfloor_resp_le x y H) as Hf.
  destruct (Z.eq_dec (Qfloor x) (Qfloor y)) as [E|N].
  - unfold nearest_even. cbv zeta. rewrite E.
    destruct (Qcompare (x - inject_Z (Qfloor y)) (1 # 2)) eqn:Cx;
      destruct (Qcompare (y - inject_Z (Qfloor y)) (1 # 2)) eqn:Cy;
      try (destruct (Z.even (Qfloor y))); try lia; exfalso;
      first [apply Qeq_alt in Cx | apply Qlt_alt in Cx | apply Qgt_alt in Cx];
      first [apply Qeq_alt in Cy | apply Qlt_alt in Cy | apply Qgt_alt in Cy];
      lra.
  - destruct (nearest_even_cases x) as [[-> _] | [-> _]];
      destruct (nearest_even_cases y) as [[-> _] | [-> _]]; lia.
Qed.

Lemma double_pos_scaled (x : Q) :
  0 < x ->
  2 ^ 52 <= x / 2 ^ (floor_log2 x - 52) /\ x / 2 ^ (floor_log2 x - 52) < 2 ^ 53.
Proof.
  intro Hx. destruct (floor_log2_spec x Hx) as [F1 F2].
  set (l := floor_log2 x) in *. pose proof (pow2_pos (l - 52)) as P.
  assert (E1 : 2 ^ l == 2 ^ 52 * 2 ^ (l - 52)).
  { rewrite <- Qpower_plus by discriminate. now replace (52 + (l - 52))%Z with l by lia. }
  assert (E2 : 2 ^ (l + 1) == 2 ^ 53 * 2 ^ (l - 52)).
  { rewrite <- Qpower_plus by discriminate. now replace (53 + (l - 52))%Z with (l + 1)%Z by lia. }
  split.
  - apply Qle_shift_div_l; [exact P|]. now rewrite <- E1.
  - apply Qlt_shift_div_r; [exact P|]. now rewrite <- E2.
Qed.

Lemma double_pos_comp (x y : Q) : 0 < x -> x == y -> double_pos x == double_pos y.
Proof.
  intros Hx E. unfold double_pos. cbv zeta.
  rewrite (floor_log2_comp x y Hx E).
  rewrite (nearest_even_comp (x / 2 ^ (floor_log2 y - 52)) (y / 2 ^ (floor_log2 y - 52)));
    [reflexivity|now rewrite E].
Qed.

Lemma double_pos_lower (x : Q) :
  0 < x -> 2 ^ 52 * 2 ^ (floor_log2 x - 52) <= double_pos x.
Proof.
  intro Hx. unfold double_pos. cbv zeta.
  destruct (double_pos_scaled x Hx) as [S1 _].
  pose proof (pow2_pos (floor_log2 x - 52)) as P.
  apply Qmult_le_compat_r; [|now apply Qlt_le_weak].
  rewrite <- (pow2_Z 52) by lia. rewrite <- Zle_Qle.
  rewrite <- (nearest_even_Z (2 ^ 52)). apply nearest_even_mono.
  now rewrite (pow2_Z 52) by lia.
Qed.

Lemma double_pos_upper (x : Q) :
  0 < x -> double_pos x <= 2 ^ 53 * 2 ^ (floor_log2 x - 52).
Proof.
  intro Hx. unfold double_pos. cbv zeta.
  destruct (double_pos_scaled x Hx) as [_ S2].
  pose proof (pow2_pos (floor_log2 x - 52)) as P.
  apply Qmult_le_compat_r; [|now apply Qlt_le_weak].
  rewrite <- (pow2_Z 53) by lia. rewrite <- Zle_Qle.
  rewrite <- (nearest_even_Z (2 ^ 53)). apply nearest_even_mono.
  rewrite (pow2_Z 53) by lia. now apply Qlt_le_weak.
Qed.

Lemma double_pos_positive (x : Q) : 0 < x -> 0 < double_pos x.
Proof.
  intro Hx. eapply Qlt_le_trans; [|apply (double_pos_lower x Hx)].
  pose proof (pow2_pos 52). pose proof (pow2_pos (floor_log2 x - 52)).
  apply Qmult_lt_0_compat; assumption.
Qed.

Lemma double_pos_mono (x y : Q) : 0 < x -> x <= y -> double_pos x <= double_pos y.
Proof.
  intros Hx H. assert (Hy : 0 < y) by (eapply Qlt_le_trans; eassumption).
  pose proof (floor_log2_mono x y Hx H) as Hl.
  destruct (Z.eq_dec (floor_log2 x) (floor_log2 y)) as [E|N].
  - unfold double_pos. cbv zeta. rewrite E.
    pose proof (pow2_pos (floor_log2 y - 52)) as P.
    apply Qmult_le_compat_r; [|now apply Qlt_le_weak].
    rewrite <- Zle_Qle. apply nearest_even_mono.
    apply Qmult_le_compat_r; [exact H|]. apply Qlt_le_weak. now apply Qinv_lt_0_compat.
  - eapply Qle_trans; [apply (double_pos_upper x Hx)|].
    eapply Qle_trans; [|apply (double_pos_lower y Hy)].
    assert (E : 2 ^ 53 * 2 ^ (floor_log2 x - 52) == 2 ^ 52 * 2 ^ (floor_log2 x + 1 - 52)).
    { replace (floor_log2 x + 1 - 52)%Z with ((floor_log2 x - 52) + 1)%Z by lia.
      rewrite pow2_succ. change (2 ^ 53) with (2 * 2 ^ 52). ring. }
    rewrite E. rewrite !(Qmult_comm (2 ^ 52)).
    apply Qmult_le_compat_r; [|now apply Qlt_le_weak, pow2_pos].
    apply pow2_mono. lia.
Qed.


Lemma Qnum_pos (x : Q) : 0 < x -> exists p, Qnum x = Z.pos p.
Proof.
  destruct x as [[|p|p] d]; unfold Qlt; simpl; intro H; try lia. now exists p.
Qed.

Lemma Qnum_neg (x : Q) : x < 0 -> exists p, Qnum x = Z.neg p.
Proof.
  destruct x as [[|p|p] d]; unfold Qlt; simpl; intro H; try lia. now exists p.
Qed.

Lemma Qnum_zero (x : Q) : x == 0 -> Qnum x = 0%Z.
Proof.
  destruct x as [n d]; unfold Qeq; simpl; lia.
Qed.

Lemma double_zero (x : Q) : x == 0 -> double x = 0.
Proof. intro H. unfold double. now rewrite (Qnum_zero x H). Qed.

Lemma double_positive_eq (x : Q) : 0 < x -> double x = Qred (double_pos x).
Proof. intro H. unfold double. destruct (Qnum_pos x H) as [p ->]. reflexivity. Qed.

Lemma double_negative_eq (x : Q) : x < 0 -> double x = Qred (- double_pos (- x)).
Proof. intro H. unfold double. destruct (Qnum_neg x H) as [p ->]. reflexivity. Qed.

Lemma double_comp (x y : Q) : x == y -> double x = double y.
Proof.
  intro E. destruct (Q_dec x 0) as [[H | H] | H].
  - assert (Hy : y < 0) by now rewrite <- E.
    rewrite (double_negative_eq x H), (double_negative_eq y Hy).
    apply Qred_complete. apply Qopp_comp. apply double_pos_comp; [lra|now rewrite E].
  - assert (Hy : 0 < y) by now rewrite <- E.
    rewrite (double_positive_eq x H), (double_positive_eq y Hy).
    apply Qred_complete. now apply double_pos_comp.
  - rewrite (double_zero x H), (double_zero y); [reflexivity|now rewrite <- E].
Qed.

Lemma double_opp (x : Q) : double (- x) == - double x.
Proof.
  destruct (Q_dec x 0) as [[H | H] | H].
  - assert (H' : 0 < - x) by lra.
    rewrite (double_positive_eq _ H'), (double_negative_eq x H), !Qred_correct. ring.
  - assert (H' : - x < 0) by lra.
    rewrite (double_negative_eq _ H'), (double_positive_eq x H), !Qred_correct.
    apply Qopp_comp. apply double_pos_comp; [lra|ring].
  - rewrite (double_zero x H), (double_zero (- x)); [reflexivity|lra].
Qed.

Lemma double_positive (x : Q) : 0 < x -> 0 < double x.
Proof.
  intro H. rewrite (double_positive_eq x H), Qred_correct. now apply double_pos_positive.
Qed.

Lemma double_negative (x : Q) : x < 0 -> double x < 0.
Proof.
  intro H. rewrite (double_negative_eq x H), Qred_correct.
  assert (0 < double_pos (- x)) by (apply double_pos_positive; lra). lra.
Qed.

Lemma double_nonneg (x : Q) : 0 <= x -> 0 <= double x.
Proof.
  intro H. destruct (Qle_lt_or_eq _ _ H) as [P | E].
  - apply Qlt_le_weak. now apply double_positive.
  - rewrite (double_zero x); [apply Qle_refl|now symmetry].
Qed.

Lemma double_nonpos (x : Q) : x <= 0 -> double x <= 0.
Proof.
  intro H. destruct (Qle_lt_or_eq _ _ H) as [P | E].
  - apply Qlt_le_weak. now apply double_negative.
  - rewrite (double_zero x E). apply Qle_refl.
Qed.

(** Rounding is monotone. *)
Lemma double_le (x y : Q) : x <= y -> double x <= double y.
Proof.
  intro H. destruct (Q_dec x 0) as [[Hx | Hx] | Hx].
  - destruct (Qlt_le_dec y 0) as [Hy | Hy].
    + rewrite (double_negative_eq x Hx), (double_negative_eq y Hy), !Qred_correct.
      assert (double_pos (- y) <= double_pos (- x)) by (apply double_pos_mono; lra).
      lra.
    + apply Qle_trans with 0; [now apply double_nonpos, Qlt_le_weak|now apply double_nonneg].
  - assert (Hy : 0 < y) by lra.
    rewrite (double_positive_eq x Hx), (double_positive_eq y Hy), !Qred_correct.
    now apply double_pos_mono.
  - rewrite (double_zero x Hx). apply double_nonneg. lra.
Qed.


(** Integers below [2^53] are doubles. *)
Lemma double_pos_Z (k : Z) : (0 < k < 2 ^ 53)%Z -> double_pos (inject_Z k) == inject_Z k.
Proof.
  intros [H0 H1].
  assert (Hx : 0 < inject_Z k) by (change 0 with (inject_Z 0); now rewrite <- Zlt_Qlt).
  destruct (floor_log2_spec _ Hx) as [F1 _].
  set (l := floor_log2 (inject_Z k)) in *.
  assert (Hl : (l < 53)%Z).
  { apply pow2_mono_inv. eapply Qle_lt_trans; [exact F1|].
    rewrite <- (pow2_Z 53) by lia. now rewrite <- Zlt_Qlt. }
  unfold double_pos. cbv zeta. fold l.
  assert (Ep : 2 ^ (l - 52) * 2 ^ (52 - l) == 1).
  { rewrite <- Qpower_plus by discriminate. now replace (l - 52 + (52 - l))%Z with 0%Z by lia. }
  pose proof (pow2_pos (l - 52)) as P.
  assert (Es : inject_Z k / 2 ^ (l - 52) == inject_Z (k * 2 ^ (52 - l))).
  { rewrite inject_Z_mult, (pow2_Z (52 - l)) by lia.
    apply Qmult_inj_r with (2 ^ (l - 52)); [intro E; rewrite E in P; discriminate|].
    rewrite <- Qmult_assoc, (Qmult_comm (2 ^ (52 - l))), Ep. field.
    intro E; rewrite E in P; discriminate. }
  rewrite (nearest_even_comp _ _ Es), nearest_even_Z.
  rewrite inject_Z_mult, (pow2_Z (52 - l)) by lia.
  rewrite <- Qmult_assoc, (Qmult_comm (2 ^ (52 - l))), Ep. ring.
Qed.

Lemma double_Z (k : Z) : (- 2 ^ 53 < k < 2 ^ 53)%Z -> double (inject_Z k) == inject_Z k.
Proof.
  intros [H0 H1]. destruct (Z.lt_trichotomy k 0) as [N | [E | P]].
  - assert (Hx : inject_Z k < 0) by (change 0 with (inject_Z 0); now rewrite <- Zlt_Qlt).
    rewrite (double_negative_eq _ Hx), Qred_correct.
    rewrite (double_pos_comp (- inject_Z k) (inject_Z (- k)));
      [|lra|now rewrite inject_Z_opp].
    rewrite double_pos_Z by lia. rewrite inject_Z_opp. ring.
  - subst k. reflexivity.
  - assert (Hx : 0 < inject_Z k) by (change 0 with (inject_Z 0); now rewrite <- Zlt_Qlt).
    rewrite (double_positive_eq _ Hx), Qred_correct. apply double_pos_Z. lia.
Qed.

(** ** The loudness pass *)

Section AnalyzerFacts.

Variable sqrtQ : Q -> Q.
Variables (data : list Q) (frameInterval samplesPerFrame threshold : num).
Variable R : Z.

Local Abbreviation body := (frame_body sqrtQ data frameInterval samplesPerFrame threshold (ofZ R)).
Local Abbreviation loop := (frames_loop sqrtQ data frameInterval samplesPerFrame threshold (ofZ R)).

Lemma frames_loop_length (n : nat) : forall k st, length (loop n k st) = n.
Proof.
  induction n as [|n IH]; intros k st; simpl; [reflexivity|].
  destruct (body k st) as [st' f]. simpl. now rewrite IH.
Qed.



(** A frame louder than the threshold is open and restarts the release
    window. *)
Lemma frame_body_loud (k : Z) (st : LoopState) :
  gt (volume (snd (body k st))) threshold = true ->
  mouthState (snd (body k st)) = oc_open /\
  isOpen (fst (body k st)) = true /\
  lastOpenTime (fst (body k st)) = k.
Proof.
  unfold frame_body. cbv zeta.
  set (v := addD (mulD (smoothing st) _) _).
  destruct (gt v threshold) eqn:E; [intros _; repeat split|].
  destruct (isOpen st && _); simpl; intro H; congruence.
Qed.

(** Inside the release window the mouth stays open whatever the volume. *)
Lemma frame_body_release (k : Z) (st : LoopState) :
  isOpen st = true -> (k - lastOpenTime st < R)%Z ->
  mouthState (snd (body k st)) = oc_open /\
  isOpen (fst (body k st)) = true /\
  (lastOpenTime (fst (body k st)) = k \/
   lastOpenTime (fst (body k st)) = lastOpenTime st).
Proof.
  intros Ho Hr. apply lt_ofZ in Hr. unfold frame_body. cbv zeta.
  set (v := addD (mulD (smoothing st) _) _).
  destruct (gt v threshold); [simpl; auto|].
  rewrite Ho, Hr. simpl. auto.
Qed.

Lemma frame_body_last (k : Z) (st : LoopState) :
  lastOpenTime (fst (body k st)) = k \/
  lastOpenTime (fst (body k st)) = lastOpenTime st.
Proof.
  unfold frame_body. cbv zeta.
  set (v := addD (mulD (smoothing st) _) _).
  destruct (gt v threshold); [simpl; auto|].
  destruct (isOpen st && _); simpl; auto.
Qed.

Lemma release_window_open (n : nat) : forall k st p f,
  isOpen st = true -> (lastOpenTime st < k)%Z ->
  (k + Z.of_nat p - lastOpenTime st < R)%Z ->
  nth_error (loop n k st) p = Some f ->
  mouthState f = oc_open.
Proof.
  induction n as [|n IH]; intros k st p f Ho Hl Hr H; simpl in H.
  - destruct p; discriminate.
  - destruct (frame_body_release k st Ho) as (Hm & Ho' & Hl'); [lia|].
    destruct (body k st) as [st' f0]. simpl in Hm, Ho', Hl'.
    destruct p as [|p]; simpl in H.
    + now injection H as <-.
    + apply (IH (k + 1)%Z st' p f Ho'); [lia| |exact H].
      destruct Hl' as [-> | ->]; lia.
Qed.

Lemma hysteresis_loop (n : nat) : forall k st i j fi fj,
  (lastOpenTime st < k)%Z ->
  nth_error (loop n k st) i = Some fi ->
  gt (volume fi) threshold = true ->
  (i <= j)%nat -> (Z.of_nat j < Z.of_nat i + R)%Z ->
  nth_error (loop n k st) j = Some fj ->
  mouthState fj = oc_open.
Proof.
  induction n as [|n IH]; intros k st i j fi fj Hl Hi Hv Hij Hr Hj; simpl in Hi, Hj.
  - destruct i; discriminate.
  - pose proof (frame_body_loud k st) as Hloud.
    pose proof (frame_body_last k st) as Hlast.
    destruct (body k st) as [st' f0]. simpl in Hloud, Hlast.
    destruct i as [|i]; simpl in Hi.
    + injection Hi as <-. destruct (Hloud Hv) as (Hm & Ho & Hk).
      destruct j as [|j]; simpl in Hj.
      * now injection Hj as <-.
      * apply (release_window_open n (k + 1)%Z st' j fj Ho); [lia|lia|exact Hj].
    + destruct j as [|j]; [lia|]. simpl in Hj.
      apply (IH (k + 1)%Z st' i j fi fj); try assumption; lia.
Qed.

End AnalyzerFacts.

Lemma analyzer_as_loop (sqrtQ : Q -> Q) (audioBuffer : AudioBuffer)
      (fps threshold releaseTime : Q) :
  analyzeAudioBuffer sqrtQ audioBuffer fps threshold releaseTime =
  frames_loop sqrtQ (channelData audioBuffer) (frameInterval_of fps)
              (samplesPerFrame_of audioBuffer fps) (number threshold)
              (ofZ (Qceiling (double (double releaseTime * double fps))))
              (Z.to_nat (Qceiling (double (double (duration audioBuffer) * double fps))))
              0%Z initial_state.
Proof.
  unfold analyzeAudioBuffer, frame_bound, releaseFrames_of, trip_count. simpl.
  unfold ofZ. now rewrite Qceiling_inject_sub0.
Qed.

Lemma double_not_zero (x : Q) : ~ x == 0 -> ~ double x == 0.
Proof.
  intros Hx E. destruct (Q_dec x 0) as [[H | H] | H]; [| |contradiction].
  - pose proof (double_negative x H). lra.
  - pose proof (double_positive x H). lra.
Qed.

Lemma frameInterval_nonzero_rate (fps : Q) :
  ~ fps == 0 -> frameInterval_of fps = Fin (double (1 / double fps)).
Proof.
  intro H. unfold frameInterval_of, divD, number, div.
  rewrite is_zero_false; [reflexivity|]. now apply double_not_zero.
Qed.




(** The number of frames: [Math.ceil] of the product of the two doubles,
    itself a double. *)
Lemma frame_count (sqrtQ : Q -> Q) (audioBuffer : AudioBuffer)
      (fps threshold releaseTime : Q) :
  0 <= fps -> 0 <= duration audioBuffer ->
  Z.of_nat (length (analyzeAudioBuffer sqrtQ audioBuffer fps threshold releaseTime))
  = Qceiling (double (double (duration audioBuffer) * double fps)).
Proof.
  intros Hfps Hd. rewrite analyzer_as_loop, frames_loop_length.
  apply Z2Nat.id. change 0%Z with (Qceiling 0).
  apply Qceiling_resp_le. apply double_nonneg.
  apply Qmult_le_0_compat; now apply double_nonneg.
Qed.

(** The loops of the analysis end.  At a frame rate of 0 the bound of the
    outer loop is [ceil(duration * 0) = 0] and no frame is made; at any
    other rate the window of every frame has finite ends, so that
    [trip_count] counts the iterations of the inner loop. *)
Lemma no_frames_at_rate_zero (sqrtQ : Q -> Q) (audioBuffer : AudioBuffer)
      (fps threshold releaseTime : Q) :
  fps == 0 ->
  analyzeAudioBuffer sqrtQ audioBuffer fps threshold releaseTime = [].
Proof.
  intro Hz. rewrite analyzer_as_loop. rewrite (double_zero fps Hz).
  rewrite (double_zero (double (duration audioBuffer) * 0)) by ring.
  reflexivity.
Qed.

Lemma window_ends_finite (audioBuffer : AudioBuffer) (fps : Q) (frameIndex : Z) :
  ~ fps == 0 ->
  let samplesPerFrame := samplesPerFrame_of audioBuffer fps in
  let startSample := Math_floor (mulD (ofZ frameIndex) samplesPerFrame) in
  let endSample :=
    Math_min (addD startSample samplesPerFrame)
             (ofZ (Z.of_nat (length (channelData audioBuffer)))) in
  exists s e : Q, startSample = Fin s /\ endSample = Fin e.
Proof.
  intros Hfps. unfold samplesPerFrame_of.
  rewrite (frameInterval_nonzero_rate fps Hfps).
  cbn [number mulD mul rounded Math_floor ofZ addD add Math_min].
  match goal with |- context [if ?c then _ else _] => destruct c end;
    eexists; eexists; split; reflexivity.
Qed.






(** The release window is counted on doubles: 0.28 s at 25 frames per
    second are 8 frames, since the double nearest to 0.28 lies above it,
    and 0.1 s at 10 frames per second is 1 frame. *)
Example release_frames_are_counted_on_doubles :
  releaseFrames_of (28 # 100) 25 = ofZ 8 /\ releaseFrames_of (1 # 10) 10 = ofZ 1.
Proof. split; vm_compute; reflexivity. Qed.

(** C2.  Hysteresis: when the smoothed loudness of frame [i] exceeds the
    threshold, every frame [j] with [i <= j < i + releaseFrames] is open,
    whatever its own loudness, where [releaseFrames] is
    [Math.ceil(releaseTime * fps)] as the code computes it, on doubles. *)
Theorem hysteresis_release_window
        (sqrtQ : Q -> Q) (audioBuffer : AudioBuffer)
        (fps threshold releaseTime : Q) (i j : nat) (fi fj : VolumeFrame) :
  let frames := analyzeAudioBuffer sqrtQ audioBuffer fps threshold releaseTime in
  nth_error frames i = Some fi ->
  gt (volume fi) (number threshold) = true ->
  (i <= j)%nat ->
  (Z.of_nat j < Z.of_nat i + Qceiling (double (double releaseTime * double fps)))%Z ->
  nth_error frames j = Some fj ->
  mouthState fj = oc_open.
Proof.
  intros frames Hi Hv Hij Hr Hj. subst frames.
  rewrite analyzer_as_loop in Hi, Hj.
  assert (H0 : (lastOpenTime initial_state < 0)%Z) by (simpl; lia).
  exact (hysteresis_loop _ _ _ _ _ _ _ _ _ _ _ _ _ H0 Hi Hv Hij Hr Hj).
Qed.

(** The burst at threshold 0.2 and a release time of 0.3 s: frame 0 is
    above the threshold, frame 2 is below it and still open. *)
Lemma hysteresis_release_window_witness :
  exists f0 f2,
    nth_error (analyzeAudioBuffer sqrt_approx burst_clip 10 (2 # 10) (3 # 10)) 0 = Some f0 /\
    nth_error (analyzeAudioBuffer sqrt_approx burst_clip 10 (2 # 10) (3 # 10)) 2 = Some f2 /\
    gt (volume f0) (number (2 # 10)) = true /\
    gt (volume f2) (number (2 # 10)) = false /\
    mouthState f2 = oc_open.
Proof.
  destruct (nth_error (analyzeAudioBuffer sqrt_approx burst_clip 10 (2 # 10) (3 # 10)) 0)
    as [f0|] eqn:E0; [|vm_compute in E0; discriminate].
  destruct (nth_error (analyzeAudioBuffer sqrt_approx burst_clip 10 (2 # 10) (3 # 10)) 2)
    as [f2|] eqn:E2; [|vm_compute in E2; discriminate].
  exists f0, f2.
  assert (Hv0 : gt (volume f0) (number (2 # 10)) = true).
  { vm_compute in E0. injection E0 as <-. vm_compute. reflexivity. }
  assert (Hv2 : gt (volume f2) (number (2 # 10)) = false).
  { vm_compute in E2. injection E2 as <-. vm_compute. reflexivity. }
  repeat split; try assumption.
  apply (hysteresis_release_window sqrt_approx burst_clip 10 (2 # 10) (3 # 10)
           0 2 f0 f2 E0 Hv0); [lia | vm_compute; reflexivity | exact E2].
Defined.

(** One second of silence at threshold 0.01, 10 frames per second and a
    release time of 0.1 s: ten closed frames. *)
Example silence_stays_closed :
  map mouthState
      (analyzeAudioBuffer sqrt_approx (buffer_of 100 (repeat 0 100)) 10 (1 # 100) (1 # 10))
  = repeat oc_closed 10.
Proof. vm_compute. reflexivity. Qed.

(** The 50 ms burst under the same settings: frame 0 is open, and so is
    the frame after it. *)
Example burst_opens_the_mouth :
  firstn 2 (map mouthState
                (analyzeAudioBuffer sqrt_approx burst_clip 10 (1 # 100) (1 # 10)))
  = [oc_open; oc_open].
Proof. vm_compute. reflexivity. Qed.

(** A window without samples: the loop adds nothing, [sum / count] is
    [0 / 0], and the frame's loudness is [NaN] whatever came before. *)
Lemma empty_window_volume
      (sqrtQ : Q -> Q) (data : list Q)
      (frameInterval samplesPerFrame threshold releaseFrames : num)
      (frameIndex : Z) (st : LoopState) :
  let startSample := Math_floor (mulD (ofZ frameIndex) samplesPerFrame) in
  let endSample :=
    Math_min (addD startSample samplesPerFrame) (ofZ (Z.of_nat (length data))) in
  trip_count startSample endSample = 0%nat ->
  volume (snd (frame_body sqrtQ data frameInterval samplesPerFrame threshold
                          releaseFrames frameIndex st)) = NaN.
Proof.
  intros startSample endSample H.
  assert (Hr : window_rms sqrtQ data startSample endSample = NaN)
    by (unfold window_rms; rewrite H; reflexivity).
  unfold frame_body. cbv zeta.
  change (Math_floor (mulD (ofZ frameIndex) samplesPerFrame)) with startSample.
  change (Math_min (addD startSample samplesPerFrame) (ofZ (Z.of_nat (length data))))
    with endSample.
  rewrite Hr.
  set (v := addD (mulD (smoothing st) _) _).
  assert (Hv : v = NaN) by (subst v; destruct (mulD (smoothing st) _); reflexivity).
  destruct (gt v threshold); [exact Hv|].
  destruct (isOpen st && _); exact Hv.
Qed.

(** Frame [k + i] of the loop is made by one pass through its body. *)
Lemma frames_loop_nth (sqrtQ : Q -> Q) (data : list Q)
      (frameInterval samplesPerFrame threshold releaseFrames : num) (n : nat) :
  forall k st i f,
    nth_error (frames_loop sqrtQ data frameInterval samplesPerFrame threshold
                           releaseFrames n k st) i = Some f ->
    exists st', f = snd (frame_body sqrtQ data frameInterval samplesPerFrame threshold
                                    releaseFrames (k + Z.of_nat i) st').
Proof.
  induction n as [|n IH]; intros k st i f H; simpl in H.
  - destruct i; discriminate.
  - destruct (frame_body sqrtQ data frameInterval samplesPerFrame threshold
                         releaseFrames k st) as [st1 f0] eqn:E.
    destruct i as [|i]; simpl in H.
    + injection H as <-. exists st. rewrite Z.add_0_r, E. reflexivity.
    + destruct (IH (k + 1)%Z st1 i f H) as [st' Hf]. exists st'.
      now replace (k + Z.of_nat (S i))%Z with (k + 1 + Z.of_nat i)%Z by lia.
Qed.

(** A frame whose window has no iteration carries the loudness [NaN]. *)
Lemma frame_of_empty_window (sqrtQ : Q -> Q) (audioBuffer : AudioBuffer)
      (fps threshold releaseTime : Q) (i : nat) (f : VolumeFrame) :
  nth_error (analyzeAudioBuffer sqrtQ audioBuffer fps threshold releaseTime) i = Some f ->
  trip_count
    (Math_floor (mulD (ofZ (Z.of_nat i)) (samplesPerFrame_of audioBuffer fps)))
    (Math_min (addD (Math_floor (mulD (ofZ (Z.of_nat i)) (samplesPerFrame_of audioBuffer fps)))
                    (samplesPerFrame_of audioBuffer fps))
              (ofZ (Z.of_nat (length (channelData audioBuffer))))) = 0%nat ->
  volume f = NaN.
Proof.
  intros E H. unfold analyzeAudioBuffer in E. apply frames_loop_nth in E.
  destruct E as [st' ->]. rewrite Z.add_0_l. now apply empty_window_volume.
Qed.

Lemma nth_error_below {A : Type} (l : list A) (i : nat) :
  (Z.of_nat i < Z.of_nat (length l))%Z -> exists a, nth_error l i = Some a.
Proof.
  intro H. destruct (nth_error l i) as [a|] eqn:E; [now exists a|].
  apply nth_error_None in E. lia.
Qed.

(** An empty window needs no unusual frame rate.  The quarter of a second
    at 44100 Hz, analysed at 25 frames per second, gets an eighth frame
    from the rounded product [duration * fps]; its window starts at sample
    [7 * 1764 = 12348], the end of the data, and its loudness is [NaN]. *)
Example rounded_count_adds_an_empty_frame :
  exists f,
    nth_error (analyzeAudioBuffer sqrt_approx quarter_second_clip 25 (1 # 100) (1 # 10)) 7
    = Some f /\ volume f = NaN.
Proof.
  assert (Hfps : 0 <= 25) by discriminate.
  assert (Hd : 0 <= duration quarter_second_clip) by (vm_compute; discriminate).
  destruct (nth_error_below
              (analyzeAudioBuffer sqrt_approx quarter_second_clip 25 (1 # 100) (1 # 10)) 7)
    as [f E].
  { rewrite (frame_count sqrt_approx quarter_second_clip 25 (1 # 100) (1 # 10) Hfps Hd).
    vm_compute. reflexivity. }
  exists f. split; [exact E|].
  apply (frame_of_empty_window _ _ _ _ _ _ _ E). vm_compute. reflexivity.
Qed.

(** C6.  On [short_clip] at [fps = 16000] every one of the 8 windows is
    empty, and every frame carries the loudness [NaN], not 0. *)
Theorem empty_window_loudness_is_nan (sqrtQ : Q -> Q) :
  map volume (analyzeAudioBuffer sqrtQ short_clip 16000 (1 # 100) (1 # 10)) =
  repeat NaN 8.
Proof.
  vm_compute. reflexivity.
Qed.

(** ** The smoother *)

Lemma smooth_step_no_jump (prev target : MouthState) :
  ~ jump prev (smoothTransition prev target).
Proof.
  intros [[Hp Hn] | [Hp Hn]]; subst prev; destruct target; discriminate.
Qed.

(** Two neighbours in [prev :: displayed prev targets] are a state and the
    state the smoother made of it. *)
Lemma displayed_neighbours (targets : list MouthState) :
  forall prev i a b,
    nth_error (prev :: displayed prev targets) i = Some a ->
    nth_error (prev :: displayed prev targets) (S i) = Some b ->
    exists target, b = smoothTransition a target.
Proof.
  induction targets as [|t rest IH]; intros prev i a b Ha Hb.
  - destruct i; discriminate.
  - destruct i as [|i].
    + simpl in Ha, Hb. injection Ha as <-. injection Hb as <-. now exists t.
    + simpl in Ha, Hb. exact (IH (smoothTransition prev t) i a b Ha Hb).
Qed.

(** In a list without a direct open/closed cut, a [mid] stands between an
    entry of one extreme and any later entry of the other. *)
Lemma mid_between (l : list MouthState) :
  (forall i a b, nth_error l i = Some a -> nth_error l (S i) = Some b -> ~ jump a b) ->
  forall d i a b,
    jump a b ->
    nth_error l i = Some a -> nth_error l (i + S d) = Some b ->
    exists k, (i < k < i + S d)%nat /\ nth_error l k = Some m_mid.
Proof.
  intros Hadj. induction d as [|d IH]; intros i a b Hab Hi Hj.
  - replace (i + 1)%nat with (S i) in Hj by lia.
    exfalso. exact (Hadj i a b Hi Hj Hab).
  - assert (Hlt : (S i < length l)%nat).
    { apply Nat.lt_le_trans with (i + S (S d))%nat; [lia|].
      apply Nat.lt_le_incl, nth_error_Some. congruence. }
    destruct (nth_error l (S i)) as [c|] eqn:Hc;
      [|apply nth_error_None in Hc; lia].
    pose proof (Hadj i a c Hi Hc) as Hac.
    replace (i + S (S d))%nat with (S i + S d)%nat in Hj by lia.
    destruct c.
    + destruct a.
      * destruct (IH (S i) m_open b Hab Hc Hj) as (k & Hk & Hm).
        exists k. split; [lia|exact Hm].
      * destruct Hab as [[E _] | [E _]]; discriminate.
      * exfalso. apply Hac. right. now split.
    + exists (S i). split; [lia|exact Hc].
    + destruct a.
      * exfalso. apply Hac. left. now split.
      * destruct Hab as [[E _] | [E _]]; discriminate.
      * destruct (IH (S i) m_closed b Hab Hc Hj) as (k & Hk & Hm).
        exists k. split; [lia|exact Hm].
Qed.

(** C3.  The transition table of the smoother, and what it gives along
    any sequence of calls: the state never steps from open to closed or
    back in one call, so between an open and a later closed state (or the
    reverse) a [mid] state is passed. *)
Theorem smoother_passes_through_mid :
  (smoothTransition m_closed m_open = m_mid /\
   smoothTransition m_open m_closed = m_mid /\
   smoothTransition m_mid m_open = m_open /\
   smoothTransition m_mid m_closed = m_closed) /\
  (forall prev target, ~ jump prev (smoothTransition prev target)) /\
  (forall prev targets i a b,
     nth_error (prev :: displayed prev targets) i = Some a ->
     nth_error (prev :: displayed prev targets) (S i) = Some b ->
     ~ jump a b) /\
  (forall prev targets i j a b,
     (i < j)%nat -> jump a b ->
     nth_error (prev :: displayed prev targets) i = Some a ->
     nth_error (prev :: displayed prev targets) j = Some b ->
     exists k, (i < k < j)%nat /\
               nth_error (prev :: displayed prev targets) k = Some m_mid).
Proof.
  assert (Hadj : forall prev targets i a b,
             nth_error (prev :: displayed prev targets) i = Some a ->
             nth_error (prev :: displayed prev targets) (S i) = Some b ->
             ~ jump a b).
  { intros prev targets i a b Ha Hb.
    destruct (displayed_neighbours targets prev i a b Ha Hb) as [t ->].
    apply smooth_step_no_jump. }
  split; [repeat split|].
  split; [exact smooth_step_no_jump|].
  split; [exact Hadj|].
  intros prev targets i j a b Hij Hab Hi Hj.
  replace j with (i + S (j - i - 1))%nat in Hj |- * by lia.
  exact (mid_between _ (Hadj prev targets) _ i a b Hab Hi Hj).
Qed.

(** The smoother asked for open, open, closed, closed from a closed
    mouth: closed, mid, open, mid, closed. *)
Lemma smoother_passes_through_mid_witness :
  displayed m_closed [m_open; m_open; m_closed; m_closed] =
    [m_mid; m_open; m_mid; m_closed] /\
  exists k, (2 < k < 4)%nat /\
    nth_error (m_closed :: displayed m_closed [m_open; m_open; m_closed; m_closed]) k
    = Some m_mid.
Proof.
  split; [reflexivity|].
  destruct smoother_passes_through_mid as (_ & _ & _ & H).
  apply (H m_closed [m_open; m_open; m_closed; m_closed] 2%nat 4%nat m_open m_closed).
  - lia.
  - left. split; reflexivity.
  - reflexivity.
  - reflexivity.
Defined.


(** ** Frame resolution *)

Lemma recommended_in_range (n : Z) (a : SpriteSheetAnalysis)
      (field : SpriteSheetAnalysis -> option Z) :
  (0 < n)%Z -> analysis_in_range n a ->
  In field [recommendedEyesOpenFrame; recommendedEyesClosedFrame;
            recommendedMouthOpenFrame; recommendedMouthClosedFrame] ->
  (0 <= recommended (Some a) field < n)%Z.
Proof.
  intros Hn Ha Hf. unfold recommended, nullish.
  destruct (field a) as [v|] eqn:E; [exact (Ha field Hf v E)|lia].
Qed.

Lemma or_else_in_range (n a b : Z) :
  (0 <= a < n)%Z -> (0 <= b < n)%Z -> (0 <= or_else a b < n)%Z.
Proof.
  intros Ha Hb. unfold or_else. destruct (a =? 0)%Z; assumption.
Qed.

Lemma frameSrc_some (frames : list string) (frameIdx : Z) :
  frames <> [] -> exists src, frameSrc frames frameIdx = Some src /\ In src frames.
Proof.
  intro Hne. destruct frames as [|f0 rest]; [contradiction|].
  unfold frameSrc.
  destruct (array_get (f0 :: rest) frameIdx) as [src|] eqn:E.
  - destruct (String.eqb src ""); [exists f0; split; [reflexivity|now left]|].
    exists src. split; [reflexivity|].
    unfold array_get in E. destruct (0 <=? frameIdx)%Z; [|discriminate].
    exact (nth_error_In _ _ E).
  - exists f0. split; [reflexivity|now left].
Qed.

(** C4, as stated, fails: the recommended index is passed on unchecked. *)
Lemma resolve_frame_index_out_of_range :
  resolveFrameIndex None (Some analysis_past_the_sheet) e_open m_open = 16%Z /\
  ~ (0 <= resolveFrameIndex None (Some analysis_past_the_sheet) e_open m_open < 16)%Z.
Proof.
  split; [reflexivity|]. vm_compute. intros [_ H]. discriminate.
Qed.

(** C4, amended.  [resolveFrameIndex] is total.  With a user selection it
    returns the selected index of the key (0 for an absent one), without
    one the index made from the recommendations of the analysis, and with
    neither 0.  It does not check the range: the index lies in
    [0, frameCount) when the indices it is made from do.  For any index
    the renderer finds a frame to draw in a non-empty frame list, falling
    back to frame 0. *)
Theorem resolve_frame_index_fallback
        (selectedFrames : option ExpressionFrameSelection)
        (spriteAnalysis : option SpriteSheetAnalysis)
        (eye : EyeState) (mouth : MouthState) :
  resolveFrameIndex None None eye mouth = 0%Z /\
  (forall sel, selectedFrames = Some sel ->
     resolveFrameIndex selectedFrames spriteAnalysis eye mouth =
     nullish (sel (selection_key eye mouth)) 0%Z) /\
  (selectedFrames = None ->
     resolveFrameIndex selectedFrames spriteAnalysis eye mouth =
     nullish (createInitialSelection spriteAnalysis (selection_key eye mouth)) 0%Z) /\
  (forall frameCount, (0 < frameCount)%Z ->
     (forall sel, selectedFrames = Some sel -> selection_in_range frameCount sel) ->
     (forall a, selectedFrames = None -> spriteAnalysis = Some a ->
                analysis_in_range frameCount a) ->
     (0 <= resolveFrameIndex selectedFrames spriteAnalysis eye mouth < frameCount)%Z) /\
  (forall frames, frames <> [] ->
     exists src,
       frameSrc frames (resolveFrameIndex selectedFrames spriteAnalysis eye mouth)
       = Some src /\ In src frames).
Proof.
  split; [destruct eye, mouth; reflexivity|].
  split; [intros sel ->; reflexivity|].
  split; [intros ->; reflexivity|].
  split; [|intros frames Hne; now apply frameSrc_some].
  intros n Hn Hsel Han. unfold resolveFrameIndex, resolvedSelection.
  destruct selectedFrames as [sel|].
  - specialize (Hsel sel eq_refl). unfold nullish.
    destruct (sel (selection_key eye mouth)) as [v|] eqn:E; [|lia].
    exact (Hsel _ v E).
  - destruct spriteAnalysis as [a|].
    + specialize (Han a eq_refl eq_refl).
      assert (Hf : forall field,
                 In field [recommendedEyesOpenFrame; recommendedEyesClosedFrame;
                           recommendedMouthOpenFrame; recommendedMouthClosedFrame] ->
                 (0 <= recommended (Some a) field < n)%Z)
        by (intros field Hin; now apply recommended_in_range).
      destruct eye, mouth; cbn [selection_key nullish];
        try apply or_else_in_range; apply Hf; simpl; tauto.
    + destruct eye, mouth; cbn; lia.
Qed.

Lemma resolve_frame_index_fallback_witness :
  (0 <= resolveFrameIndex None
          (Some {| recommendedEyesOpenFrame := Some 0%Z;
                   recommendedEyesClosedFrame := Some 2%Z;
                   recommendedMouthOpenFrame := Some 5%Z;
                   recommendedMouthClosedFrame := Some 15%Z |})
          e_closed m_closed < 16)%Z.
Proof.
  apply (resolve_frame_index_fallback None
           (Some {| recommendedEyesOpenFrame := Some 0%Z;
                    recommendedEyesClosedFrame := Some 2%Z;
                    recommendedMouthOpenFrame := Some 5%Z;
                    recommendedMouthClosedFrame := Some 15%Z |})
           e_closed m_closed).
  - lia.
  - intros sel H. discriminate.
  - intros a _ H. injection H as <-. intros field Hin v Hv.
    simpl in Hin.
    destruct Hin as [<- | [<- | [<- | [<- | []]]]];
      simpl in Hv; injection Hv as <-; lia.
Defined.

(** C10.  Without a user selection the key (eyes closed, mouth closed) is
    [eyesClosed || mouthClosed], where both are the recommendations of the
    analysis after [?? 0]: an eyes-closed frame of exactly 0 gives way to a
    non-zero mouth-closed frame, and every non-zero eyes-closed frame is
    kept.  The editor's [createInitialSelection] does the same. *)
Theorem eyes_closed_mouth_closed_default
        (analysis : option SpriteSheetAnalysis) (eyesClosedRec mouthClosedRec : Z) :
  recommended analysis recommendedEyesClosedFrame = eyesClosedRec ->
  recommended analysis recommendedMouthClosedFrame = mouthClosedRec ->
  resolveFrameIndex None analysis e_closed m_closed
  = or_else eyesClosedRec mouthClosedRec /\
  (eyesClosedRec = 0%Z -> mouthClosedRec <> 0%Z ->
     resolveFrameIndex None analysis e_closed m_closed = mouthClosedRec /\
     createInitialSelection analysis eyesClosedMouthClosed = Some mouthClosedRec) /\
  (eyesClosedRec <> 0%Z ->
     resolveFrameIndex None analysis e_closed m_closed = eyesClosedRec /\
     createInitialSelection analysis eyesClosedMouthClosed = Some eyesClosedRec).
Proof.
  intros He Hm.
  unfold resolveFrameIndex, resolvedSelection, createInitialSelection.
  cbn [selection_key nullish]. rewrite He, Hm. unfold or_else.
  split; [reflexivity|]. split.
  - intros -> _. simpl. split; reflexivity.
  - intro Hne. apply Z.eqb_neq in Hne. rewrite Hne. split; reflexivity.
Qed.

Lemma eyes_closed_mouth_closed_default_witness :
  resolveFrameIndex None (Some (analysis_eyes_closed_at 0)) e_closed m_closed = 15%Z /\
  resolveFrameIndex None (Some (analysis_eyes_closed_at 2)) e_closed m_closed = 2%Z.
Proof.
  split.
  - destruct (eyes_closed_mouth_closed_default (Some (analysis_eyes_closed_at 0))
                0%Z 15%Z eq_refl eq_refl) as (_ & H & _).
    apply H; [reflexivity | discriminate].
  - destruct (eyes_closed_mouth_closed_default (Some (analysis_eyes_closed_at 2))
                2%Z 15%Z eq_refl eq_refl) as (_ & _ & H).
    apply H. discriminate.
Defined.

(** ** The recording trigger *)

Lemma first_trigger_accepted (s : Animator) (buffer : nat) (key : Z) :
  videoGenerationRef s = false ->
  truthy_url (generatedVideoUrl s) && (lastRegenerateKeyRef s =? key)%Z = false ->
  Triggered key (recordingAttempts s) (step s (Trigger (with_audio buffer key))).
Proof.
  intros Hf Hg. unfold step, effect_body, with_audio. simpl.
  rewrite Hf, Hg. apply start_pending; reflexivity.
Qed.

Lemma quiet_step (key : Z) (attempts : nat) (s : Animator) (e : Event) :
  quiet e -> Triggered key attempts s -> Triggered key attempts (step s e).
Proof.
  intros Hq Ht. destruct e as [p| |url|]; try contradiction.
  - destruct Ht as [Hk Ht Hf Ha | Hk Ht Hf Ha | Hk Ht Hf Hu Ha];
      unfold step; rewrite Ht.
    + apply in_flight; simpl; congruence.
    + apply in_flight; assumption.
    + apply video_ready; assumption.
  - destruct Ht as [Hk Ht Hf Ha | Hk Ht Hf Ha | Hk Ht Hf Hu Ha];
      unfold step; rewrite Hf.
    + apply start_pending; assumption.
    + apply video_ready; simpl; congruence.
    + apply video_ready; assumption.
Qed.

Lemma quiet_run (key : Z) (attempts : nat) (events : list Event) :
  Forall quiet events ->
  forall s, Triggered key attempts s -> Triggered key attempts (run s events).
Proof.
  induction 1 as [|e events He _ IH]; intros s Hs; [exact Hs|].
  simpl. apply IH. now apply quiet_step.
Qed.

(** Once the start has fired, the same trigger changes nothing. *)
Lemma settled_trigger_noop (key : Z) (attempts : nat) (s : Animator) (buffer : nat) :
  Triggered key attempts s -> startTimer s = false ->
  step s (Trigger (with_audio buffer key)) = s.
Proof.
  intros Ht Hs. unfold step, effect_body, effect_cleanup, with_audio.
  destruct Ht as [Hk Ht Hf Ha | Hk Ht Hf Ha | Hk Ht Hf Hu Ha].
  - congruence.
  - destruct s; simpl in *; subst. reflexivity.
  - destruct s; simpl in *; subst. rewrite Hu, Z.eqb_refl. reflexivity.
Qed.

Lemma settled_attempts (key : Z) (attempts : nat) (s : Animator) :
  Triggered key attempts s -> startTimer s = false ->
  recordingAttempts s = S attempts.
Proof.
  intros [Hk Ht Hf Ha | Hk Ht Hf Ha | Hk Ht Hf Hu Ha] Hs; congruence.
Qed.

Lemma settled_stays (key : Z) (attempts : nat) (events : list Event) :
  Forall quiet events ->
  forall s, Triggered key attempts s -> startTimer s = false ->
            startTimer (run s events) = false.
Proof.
  induction 1 as [|e events He _ IH]; intros s Hs Ht; [exact Ht|].
  simpl. apply IH; [now apply quiet_step|].
  destruct e as [p| |url|]; try contradiction; unfold step.
  - now rewrite Ht.
  - destruct (videoGenerationRef s); exact Ht.
Qed.

(** C5, as stated, fails: a first attempt that fails clears the flag and
    leaves no video, so the same trigger, with nothing cancelled in
    between, is accepted again and a second recording is attempted. *)
Lemma trigger_after_failure_records_again :
  Forall untriggered [TimerFires; GenerationFails] /\
  ~ cancels failed_once /\
  step failed_once (Trigger same_props) <> failed_once /\
  recordingAttempts (run (step failed_once (Trigger same_props)) [TimerFires])
  = 2%nat.
Proof.
  repeat split.
  - repeat constructor.
  - unfold cancels. simpl. discriminate.
  - vm_compute. discriminate.
Qed.

(** C5, amended.  Take a trigger that is accepted (no generation in
    flight, and not a video for the same key).  While nothing fails, a
    second trigger with the same audio source and the same key that finds
    no pending start to cancel is a no-op: it meets the in-flight flag or
    the generated video with an unchanged key.  Exactly one recording has
    been attempted then, and it stays at that one. *)
Theorem trigger_twice_records_once
        (s : Animator) (buffer : nat) (key : Z) (between after : list Event) :
  videoGenerationRef s = false ->
  truthy_url (generatedVideoUrl s) && (lastRegenerateKeyRef s =? key)%Z = false ->
  Forall quiet between -> Forall quiet after ->
  let s1 := run (step s (Trigger (with_audio buffer key))) between in
  ~ cancels s1 ->
  step s1 (Trigger (with_audio buffer key)) = s1 /\
  (videoGenerationRef s1 = true \/
   truthy_url (generatedVideoUrl s1) && (lastRegenerateKeyRef s1 =? key)%Z = true) /\
  recordingAttempts s1 = S (recordingAttempts s) /\
  recordingAttempts (run (step s1 (Trigger (with_audio buffer key))) after)
  = S (recordingAttempts s).
Proof.
  intros Hf Hg Hb Ha s1 Hc.
  assert (Ht : Triggered key (recordingAttempts s) s1)
    by (apply quiet_run; [exact Hb|now apply first_trigger_accepted]).
  assert (Hs : startTimer s1 = false)
    by (unfold cancels in Hc; destruct (startTimer s1); congruence).
  rewrite (settled_trigger_noop key _ s1 buffer Ht Hs).
  split; [reflexivity|]. split.
  - destruct Ht as [Hk Hp Hv Hn | Hk Hp Hv Hn | Hk Hp Hv Hu Hn].
    + congruence.
    + now left.
    + right. rewrite Hu, Hk, Z.eqb_refl. reflexivity.
  - split; [exact (settled_attempts key _ s1 Ht Hs)|].
    apply (settled_attempts key).
    + now apply quiet_run.
    + now apply (settled_stays key (recordingAttempts s)).
Qed.

Lemma trigger_twice_records_once_witness :
  step recorded_once (Trigger same_props) = recorded_once /\
  recordingAttempts (run (step recorded_once (Trigger same_props)) [TimerFires])
  = 1%nat.
Proof.
  assert (Hb : Forall quiet [TimerFires; RecorderStops 1])
    by (repeat constructor).
  assert (Ha : Forall quiet [TimerFires]) by (repeat constructor).
  assert (Hc : ~ cancels recorded_once)
    by (unfold cancels; simpl; discriminate).
  destruct (trigger_twice_records_once (mounted 0) 0 0
              [TimerFires; RecorderStops 1] [TimerFires]
              eq_refl eq_refl Hb Ha Hc) as (H1 & _ & _ & H2).
  split; [exact H1 | exact H2].
Defined.

(** Under React's rule (the cleanup runs before every re-run) a trigger
    that arrives before the start of a first generation has fired cancels
    that start and schedules its own: the state is the same, and one
    recording is attempted. *)
Lemma early_trigger_restarts_timer (s : Animator) (buffer : nat) (key : Z) :
  videoGenerationRef s = false -> generatedVideoUrl s = None ->
  let s1 := step s (Trigger (with_audio buffer key)) in
  cancels s1 /\
  step s1 (Trigger (with_audio buffer key)) = s1 /\
  recordingAttempts (run s1 [Trigger (with_audio buffer key); TimerFires; TimerFires])
  = S (recordingAttempts s).
Proof.
  intros Hf Hu. destruct s as [f u l t n]. simpl in Hf, Hu. subst f u.
  repeat split.
Qed.

(** With a video of an earlier key in place the same early re-run loses
    the regeneration: the cancelled start is not scheduled again, because
    the key was already recorded by the run that was cancelled. *)
Lemma early_trigger_drops_regeneration :
  cancels (step recorded_once (Trigger (with_audio 0 1))) /\
  recordingAttempts
    (run recorded_once
         [Trigger (with_audio 0 1); Trigger (with_audio 0 1); TimerFires])
  = recordingAttempts recorded_once.
Proof.
  split; reflexivity.
Qed.

(** ** Dragging a rectangle *)

(** Moving a rectangle keeps it inside the unit square: both coordinates
    are clamped. *)
Lemma move_stays_in_unit_square (r : FacePartRect) (dx dy : Q) :
  in_unit_square r -> in_unit_square (handleMouseMove h_move r dx dy).
Proof.
  intros (Hx & Hy & Hw & Hh). unfold in_unit_square, handleMouseMove. simpl.
  destruct (Q.max_spec 0 (Qmin (1 - w r) (x r + dx))) as [[_ Ex] | [_ Ex]];
    destruct (Q.max_spec 0 (Qmin (1 - h r) (y r + dy))) as [[_ Ey] | [_ Ey]];
    rewrite Ex, Ey;
    pose proof (Q.le_min_l (1 - w r) (x r + dx));
    pose proof (Q.le_min_l (1 - h r) (y r + dy));
    pose proof (Q.le_max_l 0 (Qmin (1 - w r) (x r + dx))) as Mx;
    pose proof (Q.le_max_l 0 (Qmin (1 - h r) (y r + dy))) as My;
    rewrite ?Ex, ?Ey in Mx, My;
    repeat split; lra.
Qed.

(** The south-east handle keeps it inside as well: the block tests the
    right and the lower edge before it stores the new size. *)
Lemma south_east_stays_in_unit_square (r : FacePartRect) (dx dy : Q) :
  in_unit_square r -> in_unit_square (handleMouseMove h_se r dx dy).
Proof.
  intros (Hx & Hy & Hw & Hh). unfold in_unit_square, handleMouseMove.
  unfold resize_north_west, resize_north_east, resize_south_west. simpl.
  unfold resize_south_east. simpl.
  destruct (Qltb (1 # 100) (w r + dx) && Qltb (1 # 100) (h r + dy)
            && Qle_bool (x r + (w r + dx)) 1
            && Qle_bool (y r + (h r + dy)) 1) eqn:E; simpl.
  - apply andb_prop in E. destruct E as [E Eh].
    apply andb_prop in E. destruct E as [_ Ew].
    apply Qle_bool_iff in Ew, Eh. repeat split; assumption.
  - repeat split; assumption.
Qed.

(** C7.  The east handle dragged to the right by half a frame: the
    north-east block stores the new width without a test, and the
    rectangle that lay in the unit square ends at [x + w = 5/4]. *)
Theorem east_handle_leaves_unit_square :
  in_unit_square eyes_rect /\
  w (handleMouseMove h_e eyes_rect (1 # 2) 0) == 1 /\
  x (handleMouseMove h_e eyes_rect (1 # 2) 0)
  + w (handleMouseMove h_e eyes_rect (1 # 2) 0) == 5 # 4 /\
  ~ in_unit_square (handleMouseMove h_e eyes_rect (1 # 2) 0).
Proof.
  split; [|split; [|split]].
  - unfold in_unit_square. vm_compute. repeat split; discriminate.
  - vm_compute. reflexivity.
  - vm_compute. reflexivity.
  - intros (_ & _ & H & _). vm_compute in H. apply H. reflexivity.
Qed.

(** The west handle dragged past the left edge: [x] is clamped to 0 and
    the width still grows by the whole displacement. *)
Lemma west_handle_leaves_unit_square :
  ~ in_unit_square (handleMouseMove h_w eyes_rect (- (1 # 2)) 0).
Proof.
  intros (_ & _ & H & _). vm_compute in H. apply H. reflexivity.
Qed.

(** ** The pixel heuristic *)

Section HeuristicFacts.

Variable score : string -> FacePartRect -> Q -> Q -> num.
Variables frameWidth frameHeight : Q.

(** The indices the scan holds point into the frames seen so far. *)
Lemma scan_frames_indices (frames : list string) :
  forall i st,
    (mouthOpenIndex st <= i)%nat -> (mouthClosedIndex st <= i)%nat ->
    let st' := scan_frames score frameWidth frameHeight i frames st in
    (mouthOpenIndex st' <= Nat.max (mouthOpenIndex st) (i + length frames - 1))%nat /\
    (mouthClosedIndex st' <= Nat.max (mouthClosedIndex st) (i + length frames - 1))%nat.
Proof.
  induction frames as [|frame rest IH]; intros i st Ho Hc; simpl.
  - lia.
  - set (st1 := scan_frame score frameWidth frameHeight i frame st).
    assert (H1 : (mouthOpenIndex st1 = mouthOpenIndex st \/ mouthOpenIndex st1 = i) /\
                 (mouthClosedIndex st1 = mouthClosedIndex st \/ mouthClosedIndex st1 = i)).
    { subst st1. unfold scan_frame.
      destruct (gt _ (maxMouthOpen st)); simpl;
        match goal with |- context [if ?c then _ else _] => destruct c end;
        simpl; auto. }
    destruct H1 as [H1o H1c].
    destruct (IH (S i) st1) as [IHo IHc]; [lia|lia|].
    split; lia.
Qed.

End HeuristicFacts.

(** C9.  Whatever the frames, their size and the scores of the pixels,
    [findBestExpressionFrames] returns 0 for both eye frames; the mouth
    frames are taken from the scan: they point into the frame list, and
    they change with the scores. *)
Theorem heuristic_eye_frames_are_zero :
  (forall score frames frameWidth frameHeight,
     eyesOpenFrameIndex (findBestExpressionFrames score frames frameWidth frameHeight) = 0%nat /\
     eyesClosedFrameIndex (findBestExpressionFrames score frames frameWidth frameHeight) = 0%nat) /\
  (forall score frames frameWidth frameHeight,
     frames <> [] ->
     (mouthOpenFrameIndex (findBestExpressionFrames score frames frameWidth frameHeight)
      < length frames)%nat /\
     (mouthClosedFrameIndex (findBestExpressionFrames score frames frameWidth frameHeight)
      < length frames)%nat) /\
  (mouthOpenFrameIndex (findBestExpressionFrames score_first_open ["a"; "b"]%string 256 256) = 0%nat /\
   mouthClosedFrameIndex (findBestExpressionFrames score_first_open ["a"; "b"]%string 256 256) = 1%nat /\
   mouthOpenFrameIndex (findBestExpressionFrames score_second_open ["a"; "b"]%string 256 256) = 1%nat /\
   mouthClosedFrameIndex (findBestExpressionFrames score_second_open ["a"; "b"]%string 256 256) = 0%nat).
Proof.
  split; [intros; split; reflexivity|].
  split; [|repeat split].
  intros score frames fw fh Hne. unfold findBestExpressionFrames. simpl.
  destruct (scan_frames_indices score fw fh frames 0 scan_start)
    as [Ho Hc]; [simpl; lia|simpl; lia|].
  simpl in Ho, Hc. destruct frames as [|f rest]; [contradiction|].
  simpl length in *. split; lia.
Qed.

Lemma heuristic_eye_frames_are_zero_witness :
  (mouthOpenFrameIndex (findBestExpressionFrames score_first_open ["a"; "b"]%string 256 256)
   < 2)%nat /\
  eyesClosedFrameIndex (findBestExpressionFrames score_first_open ["a"; "b"]%string 256 256)
  = 0%nat.
Proof.
  destruct heuristic_eye_frames_are_zero as (He & Hm & _).
  split.
  - apply (Hm score_first_open ["a"; "b"]%string 256 256). discriminate.
  - apply (He score_first_open ["a"; "b"]%string 256 256).
Defined.

(** ** [analyzeSpriteSheet] *)

Section AnalyzeSpriteSheetFacts.

Variable Json : Type.
Variable JSON_parse : string -> option Json.

(** The loop stops at the first part with a text and decides there. *)
Lemma scan_parts_first_text (ps : list Part) :
  scan_parts Json JSON_parse ps =
  match flat_map (fun p => match truthy_text p with Some t => [t] | None => [] end) ps with
  | [] => None
  | t :: _ =>
      Some match JSON_parse t with
           | Some analysis => Returns analysis
           | None => Throws "Failed to parse analysis response as JSON"
           end
  end.
Proof.
  induction ps as [|part rest IH]; simpl; [reflexivity|].
  destruct (truthy_text part) as [t|]; simpl; [|exact IH].
  destruct (JSON_parse t); reflexivity.
Qed.

Lemma analyzeSpriteSheet_first_text (response : Response) :
  analyzeSpriteSheet Json JSON_parse (Returns response) =
  match text_parts response with
  | [] => Throws "No analysis data in the response."
  | t :: _ =>
      match JSON_parse t with
      | Some analysis => Returns analysis
      | None => Throws "Failed to parse analysis response as JSON"
      end
  end.
Proof.
  unfold analyzeSpriteSheet, text_parts.
  destruct (first_candidate_parts response) as [ps|]; [|reflexivity].
  rewrite scan_parts_first_text.
  destruct (flat_map _ ps); reflexivity.
Qed.

End AnalyzeSpriteSheetFacts.

(** C8.  [analyzeSpriteSheet] throws when the text part of the response
    does not parse as JSON and when the response has no text part, and a
    failed remote call is thrown on; a value it returns is what
    [JSON.parse] made of the text part, never a default. *)
Theorem malformed_response_is_an_error
        (Json : Type) (JSON_parse : string -> option Json) (response : Response) :
  (forall t rest, text_parts response = t :: rest -> JSON_parse t = None ->
     analyzeSpriteSheet Json JSON_parse (Returns response)
     = Throws "Failed to parse analysis response as JSON") /\
  (text_parts response = [] ->
     analyzeSpriteSheet Json JSON_parse (Returns response)
     = Throws "No analysis data in the response.") /\
  (forall analysis,
     analyzeSpriteSheet Json JSON_parse (Returns response) = Returns analysis ->
     exists t rest, text_parts response = t :: rest /\ JSON_parse t = Some analysis) /\
  (forall message,
     analyzeSpriteSheet Json JSON_parse (Throws message) = Throws message).
Proof.
  rewrite analyzeSpriteSheet_first_text.
  split; [|split; [|split]].
  - intros t rest -> ->. reflexivity.
  - intros ->. reflexivity.
  - intros analysis H. destruct (text_parts response) as [|t rest]; [discriminate|].
    exists t, rest. split; [reflexivity|].
    destruct (JSON_parse t) as [a|]; [|discriminate]. now injection H as ->.
  - reflexivity.
Qed.

Lemma malformed_response_is_an_error_witness :
  analyzeSpriteSheet nat parse_only_braces (Returns (response_with_text "{frames:"))
  = Throws "Failed to parse analysis response as JSON" /\
  analyzeSpriteSheet nat parse_only_braces (Returns response_without_text)
  = Throws "No analysis data in the response.".
Proof.
  split.
  - destruct (malformed_response_is_an_error nat parse_only_braces
                (response_with_text "{frames:")) as (H & _).
    apply (H "{frames:"%string []); reflexivity.
  - destruct (malformed_response_is_an_error nat parse_only_braces
                response_without_text) as (_ & H & _).
    apply H. reflexivity.
Defined.

(** * Further properties of the code *)

(** ** The loudness pass: when the mouth is open, and what [NaN] does *)

Section ReleaseFacts.

Variable sqrtQ : Q -> Q.
Variables (data : list Q) (frameInterval samplesPerFrame threshold : num).
Variable R : Z.

Local Abbreviation body := (frame_body sqrtQ data frameInterval samplesPerFrame threshold (ofZ R)).
Local Abbreviation loop := (frames_loop sqrtQ data frameInterval samplesPerFrame threshold (ofZ R)).

(** The three ways through the body of the loop. *)
Lemma frame_body_cases (k : Z) (st : LoopState) :
  (gt (volume (snd (body k st))) threshold = true /\
   mouthState (snd (body k st)) = oc_open /\
   isOpen (fst (body k st)) = true /\ lastOpenTime (fst (body k st)) = k) \/
  (gt (volume (snd (body k st))) threshold = false /\
   isOpen st = true /\ (k - lastOpenTime st < R)%Z /\
   mouthState (snd (body k st)) = oc_open /\
   isOpen (fst (body k st)) = true /\
   lastOpenTime (fst (body k st)) = lastOpenTime st) \/
  (gt (volume (snd (body k st))) threshold = false /\
   mouthState (snd (body k st)) = oc_closed /\
   isOpen (fst (body k st)) = false).
Proof.
  unfold frame_body. cbv zeta.
  set (v := addD (mulD (smoothing st) _) _).
  destruct (gt v threshold) eqn:E; [left; simpl; auto|].
  destruct (isOpen st) eqn:Ho;
    destruct (lt (ofZ (k - lastOpenTime st)) (ofZ R)) eqn:Hr;
    cbn [andb fst snd volume mouthState isOpen lastOpenTime].
  - right. left. apply lt_ofZ in Hr. repeat split; auto.
  - right. right. repeat split; auto.
  - right. right. repeat split; auto.
  - right. right. repeat split; auto.
Qed.

(** The loudness of a frame is the smoothing value the loop carries on. *)
Lemma frame_body_volume (k : Z) (st : LoopState) :
  volume (snd (body k st)) = smoothing (fst (body k st)) /\
  (smoothing st = NaN -> volume (snd (body k st)) = NaN).
Proof.
  unfold frame_body. cbv zeta.
  set (v := addD (mulD (smoothing st) _) _).
  assert (Hn : smoothing st = NaN -> v = NaN) by (intro E; subst v; now rewrite E).
  destruct (gt v threshold); [split; [reflexivity|exact Hn]|].
  destruct (isOpen st && _); split; try reflexivity; exact Hn.
Qed.

(** An open frame is loud itself, or follows a loud frame of the list
    within the release window, or is held open by the state the loop
    started in. *)
Lemma open_frame_has_cause (n : nat) : forall k st p f,
  nth_error (loop n k st) p = Some f -> mouthState f = oc_open ->
  (exists q fq, (q <= p)%nat /\ nth_error (loop n k st) q = Some fq /\
                gt (volume fq) threshold = true /\
                (q = p \/ (Z.of_nat p < Z.of_nat q + R)%Z)) \/
  (isOpen st = true /\ (k + Z.of_nat p - lastOpenTime st < R)%Z).
Proof.
  induction n as [|n IH]; intros k st p f Hp Ho; simpl in Hp.
  - destruct p; discriminate.
  - simpl. pose proof (frame_body_cases k st) as Hc.
    destruct (body k st) as [st' f0]. simpl in Hc.
    destruct p as [|p]; simpl in Hp.
    + injection Hp as <-.
      destruct Hc as [(Hv & _) | [(_ & Hs & Hr & _) | (_ & Hm & _)]].
      * left. exists 0%nat, f0. repeat split; auto.
      * right. split; [exact Hs|lia].
      * congruence.
    + destruct (IH (k + 1)%Z st' p f Hp Ho) as [(q & fq & Hq & Hn & Hv & Hw) | (Hs' & Hr')].
      * left. exists (S q), fq. repeat split; auto; [lia|].
        destruct Hw as [-> | Hw]; [now left|right; lia].
      * destruct Hc as [(Hv & _ & _ & Hl) | [(_ & Hs & _ & _ & _ & Hl) | (_ & _ & Hf)]].
        -- left. exists 0%nat, f0. repeat split; auto; [lia|]. right. lia.
        -- right. split; [exact Hs|]. rewrite Hl in Hr'. lia.
        -- congruence.
Qed.

Lemma nan_state_stays (n : nat) : forall k st p f,
  smoothing st = NaN -> nth_error (loop n k st) p = Some f -> volume f = NaN.
Proof.
  induction n as [|n IH]; intros k st p f Hs Hp; simpl in Hp.
  - destruct p; discriminate.
  - destruct (frame_body_volume k st) as [Hv Hn]. specialize (Hn Hs).
    destruct (body k st) as [st' f0]. simpl in Hv, Hn.
    destruct p as [|p]; simpl in Hp.
    + now injection Hp as <-.
    + apply (IH (k + 1)%Z st' p f); [congruence|exact Hp].
Qed.

Lemma nan_frame_stays (n : nat) : forall k st i j fi fj,
  nth_error (loop n k st) i = Some fi -> volume fi = NaN ->
  (i <= j)%nat -> nth_error (loop n k st) j = Some fj -> volume fj = NaN.
Proof.
  induction n as [|n IH]; intros k st i j fi fj Hi Hn Hij Hj; simpl in Hi, Hj.
  - destruct i; discriminate.
  - destruct (frame_body_volume k st) as [Hv _].
    destruct (body k st) as [st' f0]. simpl in Hv.
    destruct i as [|i]; simpl in Hi.
    + injection Hi as <-. destruct j as [|j]; simpl in Hj.
      * now injection Hj as <-.
      * apply (nan_state_stays n (k + 1)%Z st' j fj); [congruence|exact Hj].
    + destruct j as [|j]; [lia|]. simpl in Hj.
      apply (IH (k + 1)%Z st' i j fi fj); auto. lia.
Qed.

End ReleaseFacts.

Lemma gt_nan_false (a : num) : gt NaN a = false.
Proof. destruct a; reflexivity. Qed.

(** X1.  The mouth does not stay open past the release window: an open
    frame [j] is louder than the threshold itself, or a frame [i < j] with
    [j < i + releaseFrames] was, where [releaseFrames] is
    [Math.ceil(releaseTime * fps)] as the code computes it, on doubles. *)
Theorem open_frame_follows_loud_frame
        (sqrtQ : Q -> Q) (audioBuffer : AudioBuffer)
        (fps threshold releaseTime : Q) (j : nat) (fj : VolumeFrame) :
  nth_error (analyzeAudioBuffer sqrtQ audioBuffer fps threshold releaseTime) j = Some fj ->
  mouthState fj = oc_open ->
  exists i fi,
    (i <= j)%nat /\
    nth_error (analyzeAudioBuffer sqrtQ audioBuffer fps threshold releaseTime) i = Some fi /\
    gt (volume fi) (number threshold) = true /\
    (i = j \/
     (Z.of_nat j < Z.of_nat i + Qceiling (double (double releaseTime * double fps)))%Z).
Proof.
  rewrite analyzer_as_loop. intros Hj Ho.
  destruct (open_frame_has_cause _ _ _ _ _ _ _ _ _ _ _ Hj Ho)
    as [(q & fq & H) | (Hs & _)]; [|discriminate].
  exists q, fq. exact H.
Qed.

Lemma open_frame_follows_loud_frame_witness :
  exists i fi,
    (i <= 2)%nat /\
    nth_error (analyzeAudioBuffer sqrt_approx burst_clip 10 (2 # 10) (3 # 10)) i = Some fi /\
    gt (volume fi) (number (2 # 10)) = true /\
    (i = 2%nat \/
     (Z.of_nat 2 < Z.of_nat i + Qceiling (double (double (3 # 10) * double 10)))%Z).
Proof.
  destruct (nth_error (analyzeAudioBuffer sqrt_approx burst_clip 10 (2 # 10) (3 # 10)) 2)
    as [f2|] eqn:E2; [|vm_compute in E2; discriminate].
  apply (open_frame_follows_loud_frame sqrt_approx burst_clip 10 (2 # 10) (3 # 10)
           2 f2 E2).
  vm_compute in E2. injection E2 as <-. reflexivity.
Defined.

(** X2.  [NaN] is never shaken off: once a frame has the loudness [NaN], so has
    every later frame, and from the end of the release window that was
    running on they are all closed. *)
Theorem nan_loudness_persists
        (sqrtQ : Q -> Q) (audioBuffer : AudioBuffer)
        (fps threshold releaseTime : Q) (i j : nat) (fi fj : VolumeFrame) :
  nth_error (analyzeAudioBuffer sqrtQ audioBuffer fps threshold releaseTime) i = Some fi ->
  volume fi = NaN ->
  (i <= j)%nat ->
  nth_error (analyzeAudioBuffer sqrtQ audioBuffer fps threshold releaseTime) j = Some fj ->
  volume fj = NaN /\
  ((Z.of_nat i + Qceiling (double (double releaseTime * double fps)) <= Z.of_nat j + 1)%Z ->
   mouthState fj = oc_closed).
Proof.
  rewrite analyzer_as_loop. intros Hi Hn Hij Hj.
  split; [exact (nan_frame_stays _ _ _ _ _ _ _ _ _ _ _ _ _ Hi Hn Hij Hj)|].
  intro Hr. destruct (mouthState fj) eqn:Hm; [|reflexivity]. exfalso.
  destruct (open_frame_has_cause _ _ _ _ _ _ _ _ _ _ _ Hj Hm)
    as [(q & fq & Hq & Hnq & Hv & Hw) | (Hs & _)]; [|discriminate].
  destruct (Nat.le_gt_cases i q) as [Hle | Hlt].
  - rewrite (nan_frame_stays _ _ _ _ _ _ _ _ _ _ _ _ _ Hi Hn Hle Hnq) in Hv.
    rewrite gt_nan_false in Hv. discriminate.
  - destruct Hw as [-> | Hw]; lia.
Qed.

Lemma nan_loudness_persists_witness :
  exists f0 f7,
    nth_error (analyzeAudioBuffer sqrt_approx short_clip 16000 (1 # 100) (1 # 10)) 7 = Some f7 /\
    volume f0 = NaN /\ volume f7 = NaN.
Proof.
  destruct (nth_error (analyzeAudioBuffer sqrt_approx short_clip 16000 (1 # 100) (1 # 10)) 0)
    as [f0|] eqn:E0; [|vm_compute in E0; discriminate].
  destruct (nth_error (analyzeAudioBuffer sqrt_approx short_clip 16000 (1 # 100) (1 # 10)) 7)
    as [f7|] eqn:E7; [|vm_compute in E7; discriminate].
  assert (H0 : volume f0 = NaN)
    by (vm_compute in E0; injection E0 as <-; reflexivity).
  exists f0, f7. split; [reflexivity|]. split; [exact H0|].
  apply (nan_loudness_persists sqrt_approx short_clip 16000 (1 # 100) (1 # 10)
           0 7 f0 f7 E0 H0); [lia|exact E7].
Defined.

(** ** The loudness pass: silence, and loudness between 0 and 1 *)

Section Silence.

Variable sqrtQ : Q -> Q.
Hypothesis sqrt_zero : forall q, q == 0 -> sqrtQ q == 0.
Variable data : list Q.
Hypothesis silent : Forall (fun s => s == 0) data.

Lemma typed_get_silent (i : num) : zero_or_nan (typed_get data i).
Proof.
  unfold typed_get. destruct i as [x| | |]; simpl; auto.
  destruct (Qeq_bool x (inject_Z (Qfloor x)) && (0 <=? Qfloor x)%Z); simpl; auto.
  destruct (nth_error data (Z.to_nat (Qfloor x))) as [s|] eqn:E; simpl; auto.
  apply nth_error_In in E. rewrite Forall_forall in silent. now apply silent.
Qed.

Lemma zero_or_nan_rounded (a : num) : zero_or_nan a -> zero_or_nan (rounded a).
Proof.
  destruct a as [x| | |]; simpl; auto. intro H. now rewrite (double_zero x H).
Qed.

Lemma zero_or_nan_square (a : num) : zero_or_nan a -> zero_or_nan (mulD a a).
Proof.
  intro H. apply zero_or_nan_rounded.
  destruct a as [x| | |]; simpl in *; auto. rewrite H. ring.
Qed.

Lemma zero_or_nan_add (a b : num) :
  zero_or_nan a -> zero_or_nan b -> zero_or_nan (addD a b).
Proof.
  intros Ha Hb. apply zero_or_nan_rounded.
  destruct a as [x| | |], b as [y| | |]; simpl in *; auto; try contradiction.
  rewrite Ha, Hb. ring.
Qed.

Lemma zero_or_nan_scale (a : num) (c : Q) : zero_or_nan a -> zero_or_nan (mulD a (Fin c)).
Proof.
  intro H. apply zero_or_nan_rounded.
  destruct a as [x| | |]; simpl in *; auto; try contradiction. rewrite H. ring.
Qed.

Lemma rms_loop_silent (n : nat) : forall i sum c,
  zero_or_nan sum ->
  exists sum' c',
    rms_loop data n i sum (Fin c) = (sum', Fin c') /\ zero_or_nan sum'.
Proof.
  induction n as [|n IH]; intros i sum c Hs; simpl.
  - exists sum, c. auto.
  - apply IH. apply zero_or_nan_add; [exact Hs|].
    apply zero_or_nan_square, zero_or_nan_rounded, typed_get_silent.
Qed.

Lemma window_rms_silent (startSample endSample : num) :
  zero_or_nan (window_rms sqrtQ data startSample endSample).
Proof.
  unfold window_rms.
  destruct (rms_loop_silent (trip_count startSample endSample) startSample
                            (Fin 0) 0 (Qeq_refl 0)) as (sum & c & E & Hs).
  rewrite E. apply zero_or_nan_rounded.
  assert (Hd : zero_or_nan (divD sum (Fin c))).
  { apply zero_or_nan_rounded.
    destruct sum as [x| | |]; simpl in *; auto; try contradiction.
    destruct (is_zero c).
    - assert (Hz : is_zero x = true) by (apply Qeq_bool_iff; exact Hs).
      rewrite Hz. exact I.
    - simpl. rewrite Hs. unfold Qdiv. ring. }
  destruct (divD sum (Fin c)) as [q| | |]; simpl in *; auto; try contradiction.
  assert (Hl : Qltb q 0 = false) by (apply Qltb_ge; rewrite Hd; apply Qle_refl).
  rewrite Hl. simpl. now apply sqrt_zero.
Qed.

Lemma silent_loop (frameInterval samplesPerFrame releaseFrames : num)
      (threshold : Q) (n : nat) :
  0 <= threshold ->
  forall k st,
    zero_or_nan (smoothing st) -> isOpen st = false ->
    Forall (fun f => mouthState f = oc_closed /\ zero_or_nan (volume f))
           (frames_loop sqrtQ data frameInterval samplesPerFrame (number threshold)
                        releaseFrames n k st).
Proof.
  intro Ht. induction n as [|n IH]; intros k st Hs Ho; simpl; [constructor|].
  unfold frame_body. cbv zeta.
  set (v := addD (mulD (smoothing st) _) _).
  assert (Hv : zero_or_nan v).
  { subst v. apply zero_or_nan_add; apply zero_or_nan_scale;
      [exact Hs|apply window_rms_silent]. }
  assert (Hg : gt v (number threshold) = false).
  { destruct v as [x| | |]; simpl in *; auto; try contradiction.
    apply Qltb_ge. rewrite Hv. now apply double_nonneg. }
  rewrite Hg, Ho. simpl. constructor; [split; [reflexivity|exact Hv]|].
  apply IH; [exact Hv|reflexivity].
Qed.

End Silence.

Lemma sqrt_approx_zero (q : Q) : q == 0 -> sqrt_approx q == 0.
Proof.
  intro H. unfold Qeq in H. simpl in H. rewrite Z.mul_1_r in H.
  unfold sqrt_approx. rewrite H. simpl. reflexivity.
Qed.

(** X3.  Silence stays closed: when every sample is 0 and the threshold is not
    negative, every frame is closed and its loudness is 0 (or [NaN], for a
    window without samples); [Math.sqrt] is only asked to map 0 to 0. *)
Theorem silent_audio_stays_closed
        (sqrtQ : Q -> Q) (audioBuffer : AudioBuffer)
        (fps threshold releaseTime : Q) :
  (forall q, q == 0 -> sqrtQ q == 0) ->
  Forall (fun s => s == 0) (channelData audioBuffer) ->
  0 <= threshold ->
  Forall (fun f => mouthState f = oc_closed /\ zero_or_nan (volume f))
         (analyzeAudioBuffer sqrtQ audioBuffer fps threshold releaseTime).
Proof.
  intros Hsq Hd Ht. unfold analyzeAudioBuffer.
  apply silent_loop; try assumption; [apply Qeq_refl|reflexivity].
Qed.

Lemma silent_audio_stays_closed_witness :
  Forall (fun f => mouthState f = oc_closed /\ zero_or_nan (volume f))
         (analyzeAudioBuffer sqrt_approx (buffer_of 100 (repeat 0 100))
                             10 (1 # 100) (1 # 10)).
Proof.
  apply (silent_audio_stays_closed sqrt_approx (buffer_of 100 (repeat 0 100))
           10 (1 # 100) (1 # 10) sqrt_approx_zero).
  - unfold buffer_of. cbn [channelData]. apply Forall_forall. intros s Hs.
    apply repeat_spec in Hs. now subst s.
  - discriminate.
Defined.

Lemma double_unit (x : Q) : 0 <= x <= 1 -> 0 <= double x <= 1.
Proof.
  intros [H0 H1]. split; [now apply double_nonneg|].
  apply Qle_trans with (double 1); [now apply double_le|].
  vm_compute. discriminate.
Qed.

Lemma double_symmetric_unit (x : Q) : -(1) <= x <= 1 -> -(1) <= double x <= 1.
Proof.
  intros [H0 H1]. split.
  - apply Qle_trans with (double (-(1))); [vm_compute; discriminate|now apply double_le].
  - apply Qle_trans with (double 1); [now apply double_le|vm_compute; discriminate].
Qed.

Lemma unit_or_nan_rounded (a : num) : unit_or_nan a -> unit_or_nan (rounded a).
Proof.
  destruct a as [x| | |]; simpl; auto. apply double_unit.
Qed.

(** The smoothing step keeps a value between 0 and 1: the two weights,
    as doubles, add up to 1 when their sum is rounded. *)
Lemma unit_or_nan_smoothing (s r : num) :
  unit_or_nan s -> unit_or_nan r ->
  unit_or_nan (addD (mulD s (number (7 # 10))) (mulD r (number (3 # 10)))).
Proof.
  destruct s as [a| | |], r as [b| | |];
    cbn [unit_or_nan addD mulD add mul rounded number]; try contradiction; auto.
  intros [Ha0 Ha1] [Hb0 Hb1].
  set (c7 := double (7 # 10)). set (c3 := double (3 # 10)).
  assert (H7 : 0 <= c7) by (vm_compute; discriminate).
  assert (H3 : 0 <= c3) by (vm_compute; discriminate).
  assert (P0 : 0 <= double (a * c7)) by (apply double_nonneg; nra).
  assert (Q0 : 0 <= double (b * c3)) by (apply double_nonneg; nra).
  assert (P1 : double (a * c7) <= c7).
  { apply Qle_trans with (double c7); [apply double_le; nra|].
    vm_compute. discriminate. }
  assert (Q1 : double (b * c3) <= c3).
  { apply Qle_trans with (double c3); [apply double_le; nra|].
    vm_compute. discriminate. }
  split; [apply double_nonneg; lra|].
  apply Qle_trans with (double (c7 + c3)); [apply double_le; lra|].
  vm_compute. discriminate.
Qed.

Section UnitVolume.

Variable sqrtQ : Q -> Q.
Hypothesis sqrt_unit : forall q, 0 <= q <= 1 -> 0 <= sqrtQ q <= 1.
Variable data : list Q.
Hypothesis samples_unit : Forall (fun s => -(1) <= s <= 1) data.
Hypothesis data_length : (Z.of_nat (length data) < 2 ^ 53)%Z.

(** A read gives a sample of the data, at an integer index inside it, or
    [undefined]. *)
Lemma typed_get_cases (x : Q) :
  typed_get data (Fin x) = NaN \/
  exists v, typed_get data (Fin x) = Fin v /\ -(1) <= v <= 1 /\
            x == inject_Z (Qfloor x) /\ (0 <= Qfloor x < Z.of_nat (length data))%Z.
Proof.
  unfold typed_get.
  destruct (Qeq_bool x (inject_Z (Qfloor x))) eqn:He; [|now left].
  destruct (0 <=? Qfloor x)%Z eqn:Hl; [|now left]. simpl.
  destruct (nth_error data (Z.to_nat (Qfloor x))) as [v|] eqn:E; [|now left].
  right. exists v. apply Qeq_bool_iff in He. apply Z.leb_le in Hl.
  split; [reflexivity|]. split.
  - apply nth_error_In in E. rewrite Forall_forall in samples_unit.
    now apply samples_unit.
  - split; [exact He|]. split; [exact Hl|].
    assert (Hn : (Z.to_nat (Qfloor x) < length data)%nat)
      by (apply nth_error_Some; congruence).
    lia.
Qed.

Lemma rms_loop_nan (m : nat) : forall i count,
  fst (rms_loop data m i NaN count) = NaN.
Proof.
  induction m as [|m IH]; intros i count; [reflexivity|]. cbn [rms_loop].
  assert (E : addD NaN (mulD (rounded (typed_get data i)) (rounded (typed_get data i)))
              = NaN) by reflexivity.
  rewrite E. apply IH.
Qed.

(** The sum of the squares of [K] samples is at most [K], also when every
    step is rounded: the integers it is compared with are doubles. *)
Lemma rms_loop_unit (m : nat) : forall x a c K,
  (0 <= K)%Z -> (K <= Qfloor x \/ Qfloor x < 0)%Z ->
  0 <= a <= inject_Z K -> c == inject_Z K ->
  fst (rms_loop data m (Fin x) (Fin a) (Fin c)) = NaN \/
  exists a' c',
    rms_loop data m (Fin x) (Fin a) (Fin c) = (Fin a', Fin c') /\
    0 <= a' <= inject_Z (K + Z.of_nat m) /\ c' == inject_Z (K + Z.of_nat m).
Proof.
  induction m as [|m IH]; intros x a c K HK Hs Ha Hc.
  - right. exists a, c. replace (K + Z.of_nat 0)%Z with K by lia. auto.
  - cbn [rms_loop].
    destruct (typed_get_cases x) as [E | (v & E & Hv & Hx & Hr)]; rewrite E.
    + left. cbn [rounded mulD mul addD add]. apply rms_loop_nan.
    + cbn [rounded mulD mul addD add].
      pose proof (double_symmetric_unit v Hv) as Hd. set (d := double v) in *.
      assert (Hq : 0 <= double (d * d) <= 1) by (apply double_unit; split; nra).
      set (q := double (d * d)) in *.
      assert (HK1 : (K + 1 < 2 ^ 53)%Z) by lia.
      assert (Hsum : 0 <= double (a + q) <= inject_Z (K + 1)).
      { split; [apply double_nonneg; lra|].
        rewrite <- (double_Z (K + 1)) by lia. apply double_le.
        rewrite inject_Z_plus. change (inject_Z 1) with 1. lra. }
      assert (Hf : Qfloor (x + 1) = (Qfloor x + 1)%Z).
      { rewrite (Qfloor_comp (x + 1) (inject_Z (Qfloor x + 1))); [apply Qfloor_Z|].
        rewrite inject_Z_plus. change (inject_Z 1) with 1. now rewrite <- Hx. }
      destruct (IH (x + 1) (double (a + q)) (c + 1) (K + 1)%Z) as [N | (a' & c' & R & Ha' & Hc')].
      * lia.
      * rewrite Hf. lia.
      * exact Hsum.
      * rewrite inject_Z_plus, Hc. reflexivity.
      * left. exact N.
      * right. exists a', c'.
        replace (K + Z.of_nat (S m))%Z with (K + 1 + Z.of_nat m)%Z by lia. auto.
Qed.

(** The loudness of a window, whatever its ends. *)
Lemma window_rms_unit (z endSample : num) :
  unit_or_nan (window_rms sqrtQ data (Math_floor z) endSample).
Proof.
  unfold window_rms.
  destruct z as [y| | |]; try (destruct endSample; exact I).
  cbn [Math_floor]. unfold ofZ.
  set (m := trip_count _ _).
  destruct (rms_loop_unit m (inject_Z (Qfloor y)) 0 0 0) as [N | (a & c & R & Ha & Hc)].
  - lia.
  - rewrite Qfloor_Z. lia.
  - split; discriminate.
  - reflexivity.
  - destruct (rms_loop data m _ _ _) as [sum count]. simpl in N. subst sum.
    destruct count; exact I.
  - rewrite R. apply unit_or_nan_rounded.
    replace (0 + Z.of_nat m)%Z with (Z.of_nat m) in * by lia.
    unfold divD, div.
    destruct (is_zero c) eqn:Z0.
    + assert (Za : is_zero a = true).
      { apply Qeq_bool_iff. apply Qeq_bool_iff in Z0. rewrite <- Hc, Z0 in Ha. lra. }
      rewrite Za. exact I.
    + assert (Hc0 : 0 < c).
      { assert (Hn : ~ c == 0) by (intro Hz; apply Qeq_bool_iff in Hz; unfold is_zero in Z0; congruence).
        assert (0 <= c) by (rewrite Hc; change 0 with (inject_Z 0); rewrite <- Zle_Qle; lia).
        destruct (Qle_lt_or_eq _ _ H) as [P | P]; [exact P|]. exfalso. apply Hn. now symmetry. }
      assert (Hq : 0 <= a / c <= 1).
      { split.
        - apply Qle_shift_div_l; [exact Hc0|]. lra.
        - apply Qle_shift_div_r; [exact Hc0|]. rewrite Hc. lra. }
      pose proof (double_unit _ Hq) as Hd. cbn [rounded Math_sqrt].
      assert (Hn : Qltb (double (a / c)) 0 = false) by (apply Qltb_ge; apply Hd).
      rewrite Hn. cbn [unit_or_nan]. now apply sqrt_unit.
Qed.

Lemma unit_loop (frameInterval samplesPerFrame threshold releaseFrames : num) :
  forall n i st,
    unit_or_nan (smoothing st) ->
    Forall (fun f => unit_or_nan (volume f))
           (frames_loop sqrtQ data frameInterval samplesPerFrame threshold
                        releaseFrames n i st).
Proof.
  induction n as [|n IH]; intros i st Hu; simpl; [constructor|].
  unfold frame_body. cbv zeta.
  set (r := window_rms _ _ _ _).
  assert (Hr : unit_or_nan r) by apply window_rms_unit.
  pose proof (unit_or_nan_smoothing (smoothing st) r Hu Hr) as Hv.
  set (v := addD (mulD (smoothing st) _) _) in *.
  destruct (gt v threshold); [constructor; [exact Hv|now apply IH]|].
  destruct (isOpen st && _); constructor; try exact Hv; now apply IH.
Qed.

End UnitVolume.

Lemma sqrt_approx_unit (q : Q) : 0 <= q <= 1 -> 0 <= sqrt_approx q <= 1.
Proof.
  destruct q as [n d]. unfold Qle, sqrt_approx. cbn [Qnum Qden].
  intros [H0 H1]. rewrite ?Z.mul_1_r, ?Z.mul_1_l in *. split.
  - apply Z.sqrt_nonneg.
  - rewrite Pos2Z.inj_mul.
    set (D := Z.pos d) in *. set (P := Z.pos (2 ^ 128)).
    assert (HD : (0 < D)%Z) by (subst D; lia).
    assert (HP : (4 ^ 128 = P * P)%Z) by reflexivity.
    rewrite <- (Z.sqrt_square (D * P)) by (subst P; lia).
    apply Z.sqrt_le_mono. rewrite HP. subst P. nia.
Qed.

(** X4.  Loudness is a number between 0 and 1, as [VolumeFrame] documents
    it, or [NaN]: for samples in [-1, 1], fewer than [2^53] of them, the
    rounding of every step never carries a sum of squares above the count
    of its samples, nor the smoothed value above 1; [Math.sqrt] is only
    asked to map [0, 1] into itself. *)
Theorem loudness_is_unit_or_nan
        (sqrtQ : Q -> Q) (audioBuffer : AudioBuffer)
        (fps threshold releaseTime : Q) :
  (forall q, 0 <= q <= 1 -> 0 <= sqrtQ q <= 1) ->
  Forall (fun s => -(1) <= s <= 1) (channelData audioBuffer) ->
  (Z.of_nat (length (channelData audioBuffer)) < 2 ^ 53)%Z ->
  Forall (fun f => unit_or_nan (volume f))
         (analyzeAudioBuffer sqrtQ audioBuffer fps threshold releaseTime).
Proof.
  intros Hsq Hs Hl. unfold analyzeAudioBuffer.
  apply unit_loop; try assumption. simpl. split; discriminate.
Qed.

Lemma burst_clip_samples : Forall (fun s => -(1) <= s <= 1) (channelData burst_clip).
Proof.
  unfold burst_clip, buffer_of. cbn [channelData]. apply Forall_forall.
  intros s Hs. apply in_app_or in Hs.
  destruct Hs as [Hs | Hs]; apply repeat_spec in Hs; subst s; split; discriminate.
Qed.

Lemma loudness_is_unit_or_nan_witness :
  Forall (fun f => unit_or_nan (volume f))
         (analyzeAudioBuffer sqrt_approx burst_clip 10 (1 # 100) (1 # 10)).
Proof.
  apply (loudness_is_unit_or_nan sqrt_approx burst_clip 10 (1 # 100) (1 # 10)
           sqrt_approx_unit).
  - exact burst_clip_samples.
  - vm_compute. reflexivity.
Defined.

(** ** The classifier *)

Lemma le_finite_trans (t : num) (a b : Q) :
  a <= b -> le t (Fin a) = true -> le t (Fin b) = true.
Proof.
  destruct t as [q| | |]; simpl; auto.
  intros Hab H. apply Qle_bool_iff in H. apply Qle_bool_iff.
  now apply Qle_trans with a.
Qed.

(** X5.  The class never falls when the volume rises, whatever the three
    thresholds are; a volume of [NaN] is classed as closed. *)
Theorem classify_is_monotone
        (volumeThreshold : num) (mouthMidThreshold mouthOpenThreshold : option num)
        (v1 v2 : Q) :
  v1 <= v2 ->
  (openness (classifyMouth volumeThreshold mouthMidThreshold mouthOpenThreshold (Fin v1))
   <= openness (classifyMouth volumeThreshold mouthMidThreshold mouthOpenThreshold (Fin v2)))%nat /\
  classifyMouth volumeThreshold mouthMidThreshold mouthOpenThreshold NaN = m_closed.
Proof.
  intro Hv. unfold classifyMouth. cbv zeta.
  set (mid := nullish mouthMidThreshold _). set (open := nullish mouthOpenThreshold _).
  split.
  - unfold ge.
    destruct (le open (Fin v1)) eqn:Ho1.
    + rewrite (le_finite_trans open v1 v2 Hv Ho1). simpl. lia.
    + destruct (le mid (Fin v1)) eqn:Hm1.
      * rewrite (le_finite_trans mid v1 v2 Hv Hm1).
        destruct (le open (Fin v2)); simpl; lia.
      * simpl. lia.
  - unfold ge. destruct open, mid; reflexivity.
Qed.

Lemma classify_is_monotone_witness :
  (openness (classifyMouth (Fin (1 # 100)) None None (Fin (2 # 100)))
   <= openness (classifyMouth (Fin (1 # 100)) None None (Fin (4 # 100))))%nat.
Proof.
  apply (classify_is_monotone (Fin (1 # 100)) None None (2 # 100) (4 # 100)).
  discriminate.
Defined.


(** X7.  When the open threshold is not above the mid threshold, no volume is
    classed as [mid]. *)
Theorem misordered_thresholds_skip_mid
        (volumeThreshold : num) (midThreshold openThreshold : Q) (volume : num) :
  openThreshold <= midThreshold ->
  classifyMouth volumeThreshold (Some (Fin midThreshold)) (Some (Fin openThreshold))
                volume <> m_mid.
Proof.
  intro H. unfold classifyMouth, nullish, ge. cbv zeta.
  destruct volume as [v| | |]; simpl; try discriminate.
  destruct (Qle_bool openThreshold v) eqn:Ho; [discriminate|].
  destruct (Qle_bool midThreshold v) eqn:Hm; [|discriminate].
  apply Qle_bool_iff in Hm.
  assert (Hc : Qle_bool openThreshold v = true)
    by (apply Qle_bool_iff; now apply Qle_trans with midThreshold).
  congruence.
Qed.

Lemma misordered_thresholds_skip_mid_witness :
  classifyMouth (Fin (1 # 100)) (Some (Fin (5 # 100))) (Some (Fin (2 # 100)))
                (Fin (3 # 100)) <> m_mid.
Proof.
  apply (misordered_thresholds_skip_mid (Fin (1 # 100)) (5 # 100) (2 # 100)
                                        (Fin (3 # 100))).
  discriminate.
Defined.

(** ** The smoother and the recording loop *)

Lemma smooth_twice (prev target : MouthState) :
  smoothTransition (smoothTransition prev target) target = target.
Proof. destruct prev, target; reflexivity. Qed.

(** X8.  The display lags the classifier by one call at most: a state is its
    own fixed point, a target asked for twice in a row is shown after the
    second call, and a target next to the shown state is shown at once. *)
Theorem smoother_reaches_repeated_target :
  (forall m, smoothTransition m m = m) /\
  (forall prev target,
     smoothTransition (smoothTransition prev target) target = target) /\
  (forall prev target,
     ~ jump prev target -> smoothTransition prev target = target) /\
  (forall prev targets i target,
     nth_error targets i = Some target ->
     nth_error targets (S i) = Some target ->
     nth_error (displayed prev targets) (S i) = Some target).
Proof.
  split; [intros []; reflexivity|].
  split; [exact smooth_twice|].
  split.
  - intros prev target Hj. destruct prev, target; try reflexivity;
      exfalso; apply Hj; unfold jump; auto.
  - intros prev targets. revert prev.
    induction targets as [|t rest IH]; intros prev i target Hi Hs.
    + destruct i; discriminate.
    + destruct i as [|i]; simpl in Hi, Hs |- *.
      * injection Hi as ->. destruct rest as [|t' rest']; [discriminate|].
        simpl in Hs |- *. injection Hs as ->. now rewrite smooth_twice.
      * exact (IH _ i target Hi Hs).
Qed.

Lemma smoother_reaches_repeated_target_witness :
  nth_error (displayed m_closed [m_open; m_open; m_closed]) 1 = Some m_open.
Proof.
  destruct smoother_reaches_repeated_target as (_ & _ & _ & H).
  apply (H m_closed [m_open; m_open; m_closed] 0%nat m_open); reflexivity.
Defined.

Lemma displayed_next (targets : list MouthState) : forall prev k m t,
  nth_error (prev :: displayed prev targets) k = Some m ->
  nth_error targets k = Some t ->
  nth_error (prev :: displayed prev targets) (S k) = Some (smoothTransition m t).
Proof.
  induction targets as [|t0 rest IH]; intros prev k m t Hm Ht.
  - destruct k; discriminate.
  - destruct k as [|k].
    + simpl in Hm, Ht. injection Hm as <-. injection Ht as <-. reflexivity.
    + simpl in Hm, Ht. exact (IH _ k m t Hm Ht).
Qed.

Section RecordingLoop.

Variables (volumeThreshold : num) (mouthMidThreshold mouthOpenThreshold : option num).
Variable frameInterval : num.
Variable volumeFrames : list VolumeFrame.

Local Abbreviation classify :=
  (classifyMouth volumeThreshold mouthMidThreshold mouthOpenThreshold).
Local Abbreviation states :=
  (recording_states volumeThreshold mouthMidThreshold mouthOpenThreshold volumeFrames).

(** The loop is at frame [frameIndex] of the list and shows the state the
    smoothed sequence has there. *)
Definition on_track (s : MuxState) : Prop :=
  (frameIndex s <= length volumeFrames)%nat /\
  nth_error states (frameIndex s) = Some (mouthStateRef s).

Lemma updateFrame_on_track (elapsed : Q) (s : MuxState) :
  on_track s ->
  on_track (fst (updateFrame classify frameInterval volumeFrames elapsed s)).
Proof.
  intros [Hle Hs]. unfold updateFrame.
  destruct (nth_error volumeFrames (frameIndex s)) as [currentFrame|] eqn:Hc;
    [|split; assumption].
  assert (Hon : on_track
                  (if ge (Fin elapsed) (time currentFrame)
                   then {| frameIndex := S (frameIndex s);
                           mouthStateRef :=
                             smoothTransition (mouthStateRef s)
                                              (classify (volume currentFrame)) |}
                   else s)).
  { destruct (ge (Fin elapsed) (time currentFrame)); [|split; assumption].
    split; cbn [frameIndex mouthStateRef].
    - apply Nat.le_succ_l, nth_error_Some. congruence.
    - revert Hs. unfold recording_states.
      destruct volumeFrames as [|f0 rest] eqn:Ev; [destruct (frameIndex s); discriminate|].
      intro Hs. apply displayed_next; [exact Hs|].
      rewrite nth_error_map, Hc. reflexivity. }
  cbv zeta. set (s1 := if ge _ _ then _ else s) in *.
  destruct (nth_error volumeFrames (frameIndex s1)); exact Hon.
Qed.

Lemma run_updates_on_track (clock : list Q) : forall s,
  on_track s ->
  on_track (run_updates classify frameInterval volumeFrames clock s).
Proof.
  induction clock as [|elapsed rest IH]; intros s Hs; [exact Hs|].
  apply IH. now apply updateFrame_on_track.
Qed.

Lemma updateFrame_advance (elapsed : Q) (s : MuxState) :
  fst (updateFrame classify frameInterval volumeFrames elapsed s) = s \/
  exists currentFrame,
    nth_error volumeFrames (frameIndex s) = Some currentFrame /\
    ge (Fin elapsed) (time currentFrame) = true /\
    fst (updateFrame classify frameInterval volumeFrames elapsed s) =
    {| frameIndex := S (frameIndex s);
       mouthStateRef := smoothTransition (mouthStateRef s)
                                         (classify (volume currentFrame)) |}.
Proof.
  unfold updateFrame.
  destruct (nth_error volumeFrames (frameIndex s)) as [currentFrame|] eqn:Hc;
    [|now left].
  destruct (ge (Fin elapsed) (time currentFrame)) eqn:Hg; cbv zeta.
  - right. exists currentFrame. split; [reflexivity|]. split; [exact Hg|].
    cbn [frameIndex].
    destruct (nth_error volumeFrames (S (frameIndex s))); reflexivity.
  - left. rewrite Hc. reflexivity.
Qed.

End RecordingLoop.

(** X9.  The clock decides when a frame is shown, not what is shown: after any
    number of calls of [updateFrame], at any clock readings, the loop has
    consumed a prefix of the frames and shows the state the smoothed
    sequence has at that point; a call consumes one frame at most, and
    only a frame whose time has come. *)
Theorem recording_shows_the_smoothed_sequence
        (volumeThreshold : num) (mouthMidThreshold mouthOpenThreshold : option num)
        (frameInterval : num) (volumeFrames : list VolumeFrame)
        (current : MouthState) (clock : list Q) (elapsed : Q) :
  volumeFrames <> [] ->
  let classify := classifyMouth volumeThreshold mouthMidThreshold mouthOpenThreshold in
  let s := run_updates classify frameInterval volumeFrames clock
                       (mux_start classify volumeFrames current) in
  (frameIndex s <= length volumeFrames)%nat /\
  nth_error (recording_states volumeThreshold mouthMidThreshold mouthOpenThreshold
                              volumeFrames)
            (frameIndex s) = Some (mouthStateRef s) /\
  (fst (updateFrame classify frameInterval volumeFrames elapsed s) = s \/
   exists currentFrame,
     nth_error volumeFrames (frameIndex s) = Some currentFrame /\
     ge (Fin elapsed) (time currentFrame) = true /\
     fst (updateFrame classify frameInterval volumeFrames elapsed s) =
     {| frameIndex := S (frameIndex s);
        mouthStateRef := smoothTransition (mouthStateRef s)
                                          (classify (volume currentFrame)) |}).
Proof.
  intros Hne classify s.
  assert (H0 : on_track volumeThreshold mouthMidThreshold mouthOpenThreshold
                        volumeFrames (mux_start classify volumeFrames current)).
  { destruct volumeFrames as [|f0 rest]; [contradiction|].
    split; [simpl; lia|reflexivity]. }
  destruct (run_updates_on_track volumeThreshold mouthMidThreshold mouthOpenThreshold
                                 frameInterval volumeFrames clock _ H0) as [Hle Hs].
  split; [exact Hle|]. split; [exact Hs|]. apply updateFrame_advance.
Qed.

Lemma recording_shows_the_smoothed_sequence_witness :
  nth_error (recording_states (Fin (1 # 100)) None None three_frames)
            (frameIndex (run_updates (classifyMouth (Fin (1 # 100)) None None) (Fin 100)
                                     three_frames [5 # 100; 6 # 100; 15 # 100]
                                     (mux_start (classifyMouth (Fin (1 # 100)) None None)
                                                three_frames m_closed)))
  = Some (mouthStateRef
            (run_updates (classifyMouth (Fin (1 # 100)) None None) (Fin 100)
                         three_frames [5 # 100; 6 # 100; 15 # 100]
                         (mux_start (classifyMouth (Fin (1 # 100)) None None)
                                    three_frames m_closed))).
Proof.
  assert (Hne : three_frames <> []) by discriminate.
  destruct (recording_shows_the_smoothed_sequence
              (Fin (1 # 100)) None None (Fin 100) three_frames m_closed
              [5 # 100; 6 # 100; 15 # 100] 0 Hne) as (_ & H & _).
  exact H.
Defined.

(** X10.  The next call comes within one frame interval: [updateFrame] stops
    when the frames are used up, and otherwise schedules itself after a
    delay between 0 and [frameInterval]; the delay is 0 when the next
    frame is already due.  The times of the frames are finite, as the
    loudness pass makes them. *)
Theorem next_update_within_frame_interval
        (classify : num -> MouthState) (frameInterval : Q)
        (volumeFrames : list VolumeFrame) (elapsed : Q) (s : MuxState) :
  0 <= frameInterval ->
  Forall (fun f => exists t, time f = Fin t) volumeFrames ->
  match snd (updateFrame classify (Fin frameInterval) volumeFrames elapsed s) with
  | StopRecording => (length volumeFrames <= frameIndex s)%nat
  | CallAgain delay =>
      (frameIndex s < length volumeFrames)%nat /\
      exists d, delay = Fin d /\ 0 <= d <= frameInterval /\
        (forall nextFrame t,
           nth_error volumeFrames
                     (frameIndex (fst (updateFrame classify (Fin frameInterval)
                                                   volumeFrames elapsed s)))
           = Some nextFrame ->
           time nextFrame = Fin t -> t <= elapsed -> d == 0)
  end.
Proof.
  intros Hd Hfin. unfold updateFrame.
  destruct (nth_error volumeFrames (frameIndex s)) as [currentFrame|] eqn:Hc.
  2:{ simpl. now apply nth_error_None. }
  assert (Hlt : (frameIndex s < length volumeFrames)%nat)
    by (apply nth_error_Some; congruence).
  cbv zeta. set (s1 := if ge _ _ then _ else s).
  destruct (nth_error volumeFrames (frameIndex s1)) as [nextFrame|] eqn:Hn;
    cbn [fst snd].
  - split; [exact Hlt|].
    assert (Hin : In nextFrame volumeFrames) by (exact (nth_error_In _ _ Hn)).
    rewrite Forall_forall in Hfin. destruct (Hfin nextFrame Hin) as [t Ht].
    rewrite Ht. cbn [sub neg add mul Math_max lt].
    set (X := (t + - elapsed) * 1000).
    destruct (Qltb 0 X) eqn:Hx; cbn [Math_min lt].
    + apply Qltb_lt in Hx.
      destruct (Qltb frameInterval X) eqn:Hm.
      * exists frameInterval. split; [reflexivity|]. split; [lra|].
        intros nf t' Hnf Ht' Hle. rewrite Hn in Hnf. injection Hnf as <-.
        rewrite Ht in Ht'. injection Ht' as <-. subst X. lra.
      * apply Qltb_ge in Hm. exists X. split; [reflexivity|]. split; [lra|].
        intros nf t' Hnf Ht' Hle. rewrite Hn in Hnf. injection Hnf as <-.
        rewrite Ht in Ht'. injection Ht' as <-. subst X. lra.
    + destruct (Qltb frameInterval 0) eqn:Hm.
      * apply Qltb_lt in Hm. lra.
      * exists 0. split; [reflexivity|]. split; [lra|]. intros. reflexivity.
  - split; [exact Hlt|]. exists frameInterval. split; [reflexivity|].
    split; [lra|]. intros nf t Hnf. rewrite Hn in Hnf. discriminate.
Qed.

Lemma next_update_within_frame_interval_witness :
  exists d,
    snd (updateFrame (classifyMouth (Fin (1 # 100)) None None) (Fin 100) three_frames
                     (5 # 100) {| frameIndex := 0; mouthStateRef := m_open |})
    = CallAgain (Fin d) /\ 0 <= d <= 100.
Proof.
  assert (Hd : 0 <= 100) by discriminate.
  assert (Hfin : Forall (fun f => exists t, time f = Fin t) three_frames).
  { repeat constructor; eexists; reflexivity. }
  pose proof (next_update_within_frame_interval
                (classifyMouth (Fin (1 # 100)) None None) 100 three_frames
                (5 # 100) {| frameIndex := 0; mouthStateRef := m_open |} Hd Hfin) as H.
  destruct (snd (updateFrame (classifyMouth (Fin (1 # 100)) None None) (Fin 100)
                             three_frames (5 # 100)
                             {| frameIndex := 0; mouthStateRef := m_open |}))
    as [|delay].
  - simpl in H. lia.
  - destruct H as (_ & d & -> & Hr & _). exists d. split; [reflexivity|exact Hr].
Defined.

(** ** The video-generation effect: what holds on every trace *)

Lemma step_timer_excludes_flight (s : Animator) (e : Event) :
  timer_excludes_flight s -> timer_excludes_flight (step s e).
Proof.
  unfold timer_excludes_flight. intro H.
  destruct e as [p| |url|]; unfold step, effect_body, effect_cleanup.
  - destruct (negb (canvas p) || negb (is_buffer (audioSource p))); simpl;
      [discriminate|].
    destruct (videoGenerationRef s) eqn:Hf; simpl; [discriminate|].
    destruct (truthy_url (generatedVideoUrl s) && _); simpl; congruence.
  - destruct (startTimer s) eqn:Ht; simpl; [discriminate|congruence].
  - destruct (videoGenerationRef s) eqn:Hf; simpl; auto.
  - destruct (videoGenerationRef s) eqn:Hf; simpl; auto.
Qed.

Lemma run_timer_excludes_flight (events : list Event) : forall s,
  timer_excludes_flight s -> timer_excludes_flight (run s events).
Proof.
  induction events as [|e rest IH]; intros s Hs; [exact Hs|].
  simpl. apply IH. now apply step_timer_excludes_flight.
Qed.

(** X11.  One generation at a time: on every trace of a mounted component a
    start is pending only while nothing is in flight, and the count of
    recordings changes only when the start timer fires with nothing in
    flight, which puts that one generation in flight. *)
Theorem generations_never_overlap (key : Z) (events : list Event) (e : Event) :
  (startTimer (run (mounted key) events) = true ->
   videoGenerationRef (run (mounted key) events) = false) /\
  (recordingAttempts (step (run (mounted key) events) e)
   <> recordingAttempts (run (mounted key) events) ->
   e = TimerFires /\
   videoGenerationRef (run (mounted key) events) = false /\
   videoGenerationRef (step (run (mounted key) events) e) = true /\
   recordingAttempts (step (run (mounted key) events) e)
   = S (recordingAttempts (run (mounted key) events))).
Proof.
  assert (H : timer_excludes_flight (run (mounted key) events))
    by (apply run_timer_excludes_flight; intro Hs; discriminate).
  split; [exact H|].
  set (s := run (mounted key) events) in *.
  destruct e as [p| |url|]; unfold step, effect_body, effect_cleanup.
  - destruct (negb (canvas p) || negb (is_buffer (audioSource p))); simpl;
      [congruence|].
    destruct (videoGenerationRef s); simpl; [congruence|].
    destruct (truthy_url (generatedVideoUrl s) && _); simpl; congruence.
  - destruct (startTimer s) eqn:Ht; simpl; [|congruence].
    intros _. repeat split. exact (H Ht).
  - destruct (videoGenerationRef s); simpl; congruence.
  - destruct (videoGenerationRef s); simpl; congruence.
Qed.

Lemma generations_never_overlap_witness :
  videoGenerationRef (run (mounted 0) [Trigger same_props]) = false /\
  recordingAttempts (step (run (mounted 0) [Trigger same_props]) TimerFires) = 1%nat.
Proof.
  destruct (generations_never_overlap 0 [Trigger same_props] TimerFires) as [H1 H2].
  split; [apply H1; reflexivity|].
  apply H2. simpl. discriminate.
Defined.

Lemma step_needs_trigger (s : Animator) (e : Event) (n : nat) :
  (recordingAttempts s + (if startTimer s then 1 else 0) <= n)%nat ->
  (recordingAttempts (step s e) + (if startTimer (step s e) then 1 else 0)
   <= n + (if can_start e then 1 else 0))%nat.
Proof.
  intro H. destruct e as [p| |url|]; unfold step, effect_body, effect_cleanup, can_start.
  - destruct (canvas p), (is_buffer (audioSource p)); simpl;
      try (destruct (startTimer s); lia).
    destruct (videoGenerationRef s); simpl; [destruct (startTimer s); lia|].
    destruct (truthy_url (generatedVideoUrl s) && _); simpl;
      destruct (startTimer s); lia.
  - destruct (startTimer s) eqn:Ht; simpl; rewrite ?Ht; lia.
  - destruct (videoGenerationRef s); simpl; lia.
  - destruct (videoGenerationRef s); simpl; lia.
Qed.

(** X12.  No recording without a render that asked for it: on every trace the
    recordings attempted, plus the start that may be pending, are at most
    as many as the renders with a canvas and an audio buffer. *)
Theorem recordings_need_triggers (key : Z) (events : list Event) :
  (recordingAttempts (run (mounted key) events)
   + (if startTimer (run (mounted key) events) then 1 else 0)
   <= length (filter can_start events))%nat.
Proof.
  assert (G : forall evs s n,
             (recordingAttempts s + (if startTimer s then 1 else 0) <= n)%nat ->
             (recordingAttempts (run s evs) + (if startTimer (run s evs) then 1 else 0)
              <= n + length (filter can_start evs))%nat).
  { induction evs as [|e rest IH]; intros s n Hn; simpl; [lia|].
    pose proof (step_needs_trigger s e n Hn) as Hs.
    specialize (IH (step s e) _ Hs).
    unfold run in IH |- *. destruct (can_start e); simpl; lia. }
  apply (G events (mounted key) 0%nat). simpl. lia.
Qed.

Lemma done_is_inert (key : Z) (s : Animator) (e : Event) :
  done_for key s -> for_key key e -> step s e = s.
Proof.
  intros (Hf & Ht & Hu & Hk) He. destruct s as [f u l t n]. simpl in *. subst.
  destruct e as [p| |url|]; simpl in *; try reflexivity.
  unfold effect_body. simpl. rewrite Hu. subst. rewrite Z.eqb_refl.
  destruct (negb (canvas p) || negb (is_buffer (audioSource p))); reflexivity.
Qed.

Lemma done_run_inert (key : Z) (events : list Event) : forall s,
  done_for key s -> Forall (for_key key) events -> run s events = s.
Proof.
  induction events as [|e rest IH]; intros s Hs He; [reflexivity|].
  inversion He as [|e' rest' Hfe Hrest]; subst. simpl.
  rewrite (done_is_inert key s e Hs Hfe). now apply IH.
Qed.

(** X13.  A regeneration can be lost.  With a video in place, let the effect
    run for a key and run once more before the 500 ms are over: the
    second run cancels the start and does not schedule it again, because
    the first run has already noted the key.  From then on no render for
    that key, no timer and no recorder event makes a recording. *)
Theorem cancelled_regeneration_is_lost
        (s : Animator) (buffer : nat) (key : Z) (events : list Event) :
  videoGenerationRef s = false ->
  truthy_url (generatedVideoUrl s) = true ->
  Forall (for_key key) events ->
  run (step (step s (Trigger (with_audio buffer key))) (Trigger (with_audio buffer key)))
      events
  = step (step s (Trigger (with_audio buffer key))) (Trigger (with_audio buffer key)) /\
  startTimer (run s (Trigger (with_audio buffer key)
                       :: Trigger (with_audio buffer key) :: events)) = false /\
  recordingAttempts (run s (Trigger (with_audio buffer key)
                              :: Trigger (with_audio buffer key) :: events))
  = recordingAttempts s.
Proof.
  intros Hf Hu He.
  set (s2 := step (step s (Trigger (with_audio buffer key)))
                  (Trigger (with_audio buffer key))).
  assert (Hd : done_for key s2 /\ recordingAttempts s2 = recordingAttempts s).
  { subst s2. destruct s as [f u l t n]. simpl in Hf, Hu. subst f.
    unfold step, effect_body, effect_cleanup, with_audio, done_for. simpl.
    rewrite Hu. simpl.
    destruct (l =? key)%Z eqn:Hk; simpl.
    - rewrite Hu, Hk. simpl. apply Z.eqb_eq in Hk. auto.
    - rewrite Hu, Z.eqb_refl. simpl. auto. }
  destruct Hd as [Hd Ha].
  pose proof (done_run_inert key events s2 Hd He) as Hr.
  split; [exact Hr|].
  change (run s (Trigger (with_audio buffer key)
                   :: Trigger (with_audio buffer key) :: events))
    with (run s2 events).
  rewrite Hr. split; [apply Hd|exact Ha].
Qed.

Lemma cancelled_regeneration_is_lost_witness :
  recordingAttempts
    (run recorded_once
         [Trigger (with_audio 0 1); Trigger (with_audio 0 1);
          TimerFires; Trigger (with_audio 0 1); TimerFires])
  = recordingAttempts recorded_once.
Proof.
  assert (He : Forall (for_key 1) [TimerFires; Trigger (with_audio 0 1); TimerFires])
    by (repeat constructor).
  destruct (cancelled_regeneration_is_lost recorded_once 0 1
              [TimerFires; Trigger (with_audio 0 1); TimerFires]
              eq_refl eq_refl He) as (_ & _ & H).
  exact H.
Defined.

(** ** Choosing frames by hand *)

Lemma key_eqb_eq (a b : SelectionKey) : key_eqb a b = true <-> a = b.
Proof. destruct a, b; simpl; split; intro H; try reflexivity; discriminate. Qed.

Lemma handleFrameSelect_in_range (n : Z) (spriteAnalysis : option SpriteSheetAnalysis)
      (sel : ExpressionFrameSelection) (key : SelectionKey) (index : Z) :
  selection_in_range n sel -> (0 <= index < n)%Z ->
  selection_in_range n (handleFrameSelect spriteAnalysis (Some sel) key index).
Proof.
  intros Hs Hi k v. unfold handleFrameSelect.
  destruct (key_eqb k key); [intro E; injection E as <-; exact Hi|apply Hs].
Qed.

Lemma select_all_in_range (n : Z) (spriteAnalysis : option SpriteSheetAnalysis)
      (clicks : list (SelectionKey * Z)) : forall sel,
  selection_in_range n sel ->
  Forall (fun click => (0 <= snd click < n)%Z) clicks ->
  exists sel',
    select_all spriteAnalysis (Some sel) clicks = Some sel' /\
    selection_in_range n sel'.
Proof.
  induction clicks as [|[key index] rest IH]; intros sel Hs Hc.
  - exists sel. split; [reflexivity|exact Hs].
  - inversion Hc as [|c r Hi Hr]; subst. simpl in Hi. unfold select_all. simpl.
    apply IH; [|exact Hr]. now apply handleFrameSelect_in_range.
Qed.

Lemma select_all_last (spriteAnalysis : option SpriteSheetAnalysis)
      (rest : list (SelectionKey * Z)) (key : SelectionKey) (index : Z)
      (prev : option ExpressionFrameSelection) :
  exists sel',
    select_all spriteAnalysis prev (rest ++ [(key, index)]) = Some sel' /\
    sel' key = Some index /\
    forall other, other <> key ->
      sel' other =
      match select_all spriteAnalysis prev rest with
      | Some sel => sel other
      | None => createInitialSelection spriteAnalysis other
      end.
Proof.
  unfold select_all. rewrite fold_left_app. simpl.
  eexists. split; [reflexivity|]. unfold handleFrameSelect. split.
  - assert (E : key_eqb key key = true) by now apply key_eqb_eq.
    now rewrite E.
  - intros other Hne.
    assert (E : key_eqb other key = false).
    { destruct (key_eqb other key) eqn:E; [|reflexivity].
      apply key_eqb_eq in E. contradiction. }
    rewrite E. destruct (fold_left _ rest prev); reflexivity.
Qed.

(** X14.  Frames chosen by clicks can always be drawn: starting from a
    selection inside the sheet, after any clicks on frames of the sheet
    every one of the six combinations resolves to an index in
    [0, frameCount), whatever the analysis says; the last click on a key
    is what that key resolves to, and it leaves the other keys alone. *)
Theorem clicked_frames_stay_in_range
        (frameCount : Z) (spriteAnalysis : option SpriteSheetAnalysis)
        (start : ExpressionFrameSelection) (clicks : list (SelectionKey * Z))
        (eye : EyeState) (mouth : MouthState) :
  (0 < frameCount)%Z ->
  selection_in_range frameCount start ->
  Forall (fun click => (0 <= snd click < frameCount)%Z) clicks ->
  (0 <= resolveFrameIndex (select_all spriteAnalysis (Some start) clicks)
                          spriteAnalysis eye mouth < frameCount)%Z /\
  (forall index,
     resolveFrameIndex
       (select_all spriteAnalysis (Some start)
                   (clicks ++ [(selection_key eye mouth, index)]))
       spriteAnalysis eye mouth = index) /\
  (forall key index,
     key <> selection_key eye mouth ->
     resolveFrameIndex
       (select_all spriteAnalysis (Some start) (clicks ++ [(key, index)]))
       spriteAnalysis eye mouth
     = resolveFrameIndex (select_all spriteAnalysis (Some start) clicks)
                         spriteAnalysis eye mouth).
Proof.
  intros Hn Hs Hc.
  destruct (select_all_in_range frameCount spriteAnalysis clicks start Hs Hc)
    as (sel' & E & Hr).
  split; [|split].
  - rewrite E. unfold resolveFrameIndex, resolvedSelection, nullish.
    destruct (sel' (selection_key eye mouth)) as [v|] eqn:Ev; [exact (Hr _ v Ev)|lia].
  - intro index.
    destruct (select_all_last spriteAnalysis clicks (selection_key eye mouth) index
                              (Some start)) as (s2 & E2 & Hk & _).
    rewrite E2. unfold resolveFrameIndex, resolvedSelection. now rewrite Hk.
  - intros key index Hne.
    destruct (select_all_last spriteAnalysis clicks key index (Some start))
      as (s2 & E2 & _ & Ho).
    rewrite E2, E. unfold resolveFrameIndex, resolvedSelection.
    rewrite (Ho (selection_key eye mouth)) by congruence. now rewrite E.
Qed.

Lemma clicked_frames_stay_in_range_witness :
  (0 <= resolveFrameIndex
          (select_all None (Some (createInitialSelection None))
                      [(eyesOpenMouthOpen, 5%Z); (eyesClosedMouthMid, 9%Z)])
          None e_closed m_mid < 16)%Z.
Proof.
  apply (clicked_frames_stay_in_range 16 None (createInitialSelection None)
           [(eyesOpenMouthOpen, 5%Z); (eyesClosedMouthMid, 9%Z)] e_closed m_mid).
  - lia.
  - intros key v E. destruct key; vm_compute in E; injection E as <-; lia.
  - repeat constructor; simpl; lia.
Defined.

(** ** Dragging a rectangle: what every handle keeps *)

Ltac use_conditions :=
  repeat match goal with
         | H : _ && _ = true |- _ => apply andb_prop in H; destruct H
         | H : Qltb _ _ = true |- _ => apply Qltb_lt in H
         | H : Qle_bool _ _ = true |- _ => apply Qle_bool_iff in H
         end.

Ltac split_conditions :=
  repeat match goal with
         | |- context [if ?c then _ else _] => destruct c eqn:?
         end.

Ltac unfold_drag :=
  unfold handleMouseMove, resize_north_west, resize_north_east,
    resize_south_west, resize_south_east, when;
  cbn [is_in existsb orb].

(** X15.  The left and the upper edge never leave the frame and a rectangle
    never collapses: for every handle and every displacement, [x] and [y]
    stay at or above 0 and a width and height above 0.01 stay above
    0.01. *)
Theorem drag_keeps_origin_and_minimum_size
        (handle : Handle) (r : FacePartRect) (dx dy : Q) :
  0 <= x r -> 0 <= y r -> 1 # 100 < w r -> 1 # 100 < h r ->
  0 <= x (handleMouseMove handle r dx dy) /\
  0 <= y (handleMouseMove handle r dx dy) /\
  1 # 100 < w (handleMouseMove handle r dx dy) /\
  1 # 100 < h (handleMouseMove handle r dx dy).
Proof.
  intros Hx Hy Hw Hh.
  destruct handle; unfold_drag; split_conditions; use_conditions;
    cbn [set_x set_y set_w set_h x y w h];
    repeat split; try assumption; try apply Q.le_max_l.
Qed.

Lemma drag_keeps_origin_and_minimum_size_witness :
  0 <= x (handleMouseMove h_nw eyes_rect (- (1 # 2)) (- (1 # 2))) /\
  1 # 100 < w (handleMouseMove h_nw eyes_rect (- (1 # 2)) (- (1 # 2))).
Proof.
  destruct (drag_keeps_origin_and_minimum_size h_nw eyes_rect (- (1 # 2)) (- (1 # 2)))
    as (H1 & _ & H3 & _); try reflexivity; try discriminate.
  split; assumption.
Defined.

Lemma clamp_nonneg (a : Q) : 0 <= a -> Qmax 0 a == a.
Proof. intro H. now apply Q.max_r. Qed.

Lemma clamp_twice_nonneg (a : Q) : 0 <= a -> Qmax 0 (Qmax 0 (a + 0) + 0) == a.
Proof.
  intro H.
  assert (E : Qmax 0 (a + 0) == a) by (rewrite clamp_nonneg; lra).
  rewrite clamp_nonneg; lra.
Qed.

(** X16.  A pointer that is back where the mouse went down restores the
    rectangle: with no displacement every handle leaves a rectangle of
    the unit square as it was. *)
Theorem no_displacement_restores_rect (handle : Handle) (r : FacePartRect) :
  in_unit_square r -> same_rect (handleMouseMove handle r 0 0) r.
Proof.
  intros (Hx & Hy & Hw & Hh). unfold same_rect.
  assert (Ex : Qmax 0 (x r + 0) == x r) by (rewrite clamp_nonneg; lra).
  assert (Ey : Qmax 0 (y r + 0) == y r) by (rewrite clamp_nonneg; lra).
  assert (Ex2 : Qmax 0 (Qmax 0 (x r + 0) + 0) == x r) by now apply clamp_twice_nonneg.
  assert (Ey2 : Qmax 0 (Qmax 0 (y r + 0) + 0) == y r) by now apply clamp_twice_nonneg.
  destruct handle; unfold_drag.
  - cbn [set_x set_y set_w set_h x y w h].
    repeat split; try reflexivity.
    + rewrite Q.min_r by lra. exact Ex.
    + rewrite Q.min_r by lra. exact Ey.
  - split_conditions; cbn [set_x set_y set_w set_h x y w h];
      repeat split; try reflexivity; try assumption; ring.
  - split_conditions; cbn [set_x set_y set_w set_h x y w h];
      repeat split; try reflexivity; try assumption; ring.
  - split_conditions; cbn [set_x set_y set_w set_h x y w h];
      repeat split; try reflexivity; try assumption; ring.
  - split_conditions; cbn [set_x set_y set_w set_h x y w h];
      repeat split; try reflexivity; try assumption; ring.
  - split_conditions; cbn [set_x set_y set_w set_h x y w h];
      repeat split; try reflexivity; try assumption; ring.
  - split_conditions; cbn [set_x set_y set_w set_h x y w h];
      repeat split; try reflexivity; try assumption; ring.
  - split_conditions; cbn [set_x set_y set_w set_h x y w h];
      repeat split; try reflexivity; try assumption; ring.
  - split_conditions; cbn [set_x set_y set_w set_h x y w h];
      repeat split; try reflexivity; try assumption; ring.
Qed.

Lemma no_displacement_restores_rect_witness :
  same_rect (handleMouseMove h_n eyes_rect 0 0) eyes_rect.
Proof.
  apply (no_displacement_restores_rect h_n eyes_rect).
  unfold in_unit_square. vm_compute. repeat split; discriminate.
Defined.

Lemma Qltb_true (a b : Q) : a < b -> Qltb a b = true.
Proof. apply Qltb_lt. Qed.

Lemma Qle_bool_true (a b : Q) : a <= b -> Qle_bool a b = true.
Proof. apply Qle_bool_iff. Qed.

(** X17.  The handles on the right and the lower edge pass through two of the
    four resize blocks, and each block adds the displacement: while the
    result fits, the east handle widens the rectangle by twice [dx] and
    the south handle heightens it by twice [dy].  The south-east corner
    passes through one block and follows the pointer. *)
Theorem edge_handles_move_twice_as_far (r : FacePartRect) (dx dy : Q) :
  (1 # 100 < h r -> 1 # 100 < w r + dx -> 1 # 100 < w r + dx + dx ->
   x r + (w r + dx + dx) <= 1 -> y r + h r <= 1 ->
   same_rect (handleMouseMove h_e r dx dy)
             {| x := x r; y := y r; w := w r + 2 * dx; h := h r |}) /\
  (1 # 100 < w r -> 1 # 100 < h r + dy -> 1 # 100 < h r + dy + dy ->
   x r + w r <= 1 -> y r + (h r + dy + dy) <= 1 ->
   same_rect (handleMouseMove h_s r dx dy)
             {| x := x r; y := y r; w := w r; h := h r + 2 * dy |}) /\
  (1 # 100 < w r + dx -> 1 # 100 < h r + dy ->
   x r + (w r + dx) <= 1 -> y r + (h r + dy) <= 1 ->
   same_rect (handleMouseMove h_se r dx dy)
             {| x := x r; y := y r; w := w r + dx; h := h r + dy |}).
Proof.
  split; [|split].
  - intros Hh H1 H2 Hx Hy. unfold_drag.
    rewrite (Qltb_true _ _ H1), (Qltb_true _ _ Hh).
    cbn [andb set_x set_y set_w set_h x y w h].
    rewrite (Qltb_true _ _ H2), (Qltb_true _ _ Hh),
      (Qle_bool_true _ _ Hx), (Qle_bool_true _ _ Hy).
    cbn [andb set_x set_y set_w set_h x y w h].
    repeat split; try reflexivity. simpl. ring.
  - intros Hw H1 H2 Hx Hy. unfold_drag.
    rewrite (Qltb_true _ _ H1), (Qltb_true _ _ Hw).
    cbn [andb set_x set_y set_w set_h x y w h].
    rewrite (Qltb_true _ _ H2), (Qltb_true _ _ Hw),
      (Qle_bool_true _ _ Hx), (Qle_bool_true _ _ Hy).
    cbn [andb set_x set_y set_w set_h x y w h].
    repeat split; try reflexivity. simpl. ring.
  - intros H1 H2 Hx Hy. unfold_drag.
    rewrite (Qltb_true _ _ H1), (Qltb_true _ _ H2),
      (Qle_bool_true _ _ Hx), (Qle_bool_true _ _ Hy).
    cbn [andb set_x set_y set_w set_h x y w h].
    repeat split; reflexivity.
Qed.

Lemma edge_handles_move_twice_as_far_witness :
  same_rect (handleMouseMove h_e eyes_rect (1 # 10) 0)
            {| x := x eyes_rect; y := y eyes_rect;
               w := w eyes_rect + 2 * (1 # 10); h := h eyes_rect |}.
Proof.
  destruct (edge_handles_move_twice_as_far eyes_rect (1 # 10) 0) as (H & _).
  apply H; vm_compute; try reflexivity; discriminate.
Defined.

(** X18.  The handle on the upper edge also reads the horizontal movement of
    the pointer: dragged sideways by [dx], with no vertical movement, it
    changes the width by [-dx] and keeps [x], so that the right edge
    moves. *)
Theorem north_handle_changes_width (r : FacePartRect) (dx : Q) :
  0 <= y r -> 1 # 100 < h r -> 1 # 100 < w r - dx ->
  same_rect (handleMouseMove h_n r dx 0)
            {| x := x r; y := y r; w := w r - dx; h := h r |}.
Proof.
  intros Hy Hh Hw. unfold_drag.
  assert (Hh1 : 1 # 100 < h r - 0) by lra.
  rewrite (Qltb_true _ _ Hw), (Qltb_true _ _ Hh1).
  cbn [andb set_x set_y set_w set_h x y w h].
  assert (Hh2 : 1 # 100 < h r - 0 - 0) by lra.
  rewrite (Qltb_true _ _ Hw), (Qltb_true _ _ Hh2).
  cbn [andb set_x set_y set_w set_h x y w h].
  repeat split; try reflexivity.
  - apply clamp_twice_nonneg. exact Hy.
  - simpl. ring.
Qed.

Lemma north_handle_changes_width_witness :
  same_rect (handleMouseMove h_n eyes_rect (1 # 10) 0)
            {| x := x eyes_rect; y := y eyes_rect;
               w := w eyes_rect - (1 # 10); h := h eyes_rect |}.
Proof.
  apply (north_handle_changes_width eyes_rect (1 # 10));
    vm_compute; try reflexivity; discriminate.
Defined.

(** ** Normalised and pixel coordinates *)




(** ** The pixel heuristic: which frames it picks *)

Section BestFrames.

Variable score : string -> FacePartRect -> Q -> Q -> num.
Variables frameWidth frameHeight : Q.
Variable frames : list string.

(** The scores are finite numbers; [sc j] is the score of frame [j]. *)
Variable sc : nat -> Q.
Hypothesis scores_finite : forall j frame,
  nth_error frames j = Some frame ->
  score frame mouthRect frameWidth frameHeight = Fin (sc j).

(** After the first [i] frames: the largest score so far, which is 0 at
    index 0 until a positive score is seen ... *)
Definition max_so_far (i : nat) (st : ScanState) : Prop :=
  exists M,
    maxMouthOpen st = Fin M /\ 0 <= M /\
    (forall j, (j < i)%nat -> sc j <= M) /\
    ((mouthOpenIndex st = 0%nat /\ M = 0) \/
     ((mouthOpenIndex st < i)%nat /\ M = sc (mouthOpenIndex st) /\ 0 < M /\
      forall j, (j < mouthOpenIndex st)%nat -> sc j < M)).

(** ... and the smallest score so far, at the first index that has it. *)
Definition min_so_far (i : nat) (st : ScanState) : Prop :=
  (i = 0%nat /\ minMouthOpen st = PInf /\ mouthClosedIndex st = 0%nat) \/
  ((mouthClosedIndex st < i)%nat /\
   minMouthOpen st = Fin (sc (mouthClosedIndex st)) /\
   (forall j, (j < i)%nat -> sc (mouthClosedIndex st) <= sc j) /\
   (forall j, (j < mouthClosedIndex st)%nat -> sc (mouthClosedIndex st) < sc j)).

Lemma scan_frame_fields (i : nat) (frame : string) (st : ScanState) :
  let o := score frame mouthRect frameWidth frameHeight in
  let st' := scan_frame score frameWidth frameHeight i frame st in
  maxMouthOpen st' = (if gt o (maxMouthOpen st) then o else maxMouthOpen st) /\
  mouthOpenIndex st' = (if gt o (maxMouthOpen st) then i else mouthOpenIndex st) /\
  minMouthOpen st' = (if lt o (minMouthOpen st) then o else minMouthOpen st) /\
  mouthClosedIndex st' = (if lt o (minMouthOpen st) then i else mouthClosedIndex st).
Proof.
  unfold scan_frame. cbv zeta.
  destruct (gt _ (maxMouthOpen st));
    cbn [minMouthOpen];
    destruct (lt _ (minMouthOpen st)); repeat split.
Qed.

Lemma scan_frame_keeps (i : nat) (frame : string) (st : ScanState) :
  nth_error frames i = Some frame ->
  max_so_far i st -> min_so_far i st ->
  max_so_far (S i) (scan_frame score frameWidth frameHeight i frame st) /\
  min_so_far (S i) (scan_frame score frameWidth frameHeight i frame st).
Proof.
  intros Hf (M & EM & HM0 & Hall & Hidx) Hmin.
  destruct (scan_frame_fields i frame st) as (F1 & F2 & F3 & F4).
  rewrite (scores_finite i frame Hf) in F1, F2, F3, F4.
  assert (Hlast : forall j, (j < S i)%nat -> (j < i)%nat \/ j = i) by (intros; lia).
  split.
  - unfold max_so_far. rewrite F1, F2, EM. cbn [gt lt].
    destruct (Qltb M (sc i)) eqn:Hgt.
    + apply Qltb_lt in Hgt. exists (sc i).
      split; [reflexivity|]. split; [lra|]. split.
      * intros j Hj. destruct (Hlast j Hj) as [Hj'| ->];
          [specialize (Hall j Hj'); lra|lra].
      * right. split; [lia|]. split; [reflexivity|]. split; [lra|].
        intros j Hj. specialize (Hall j Hj). lra.
    + apply Qltb_ge in Hgt. exists M.
      split; [reflexivity|]. split; [exact HM0|]. split.
      * intros j Hj. destruct (Hlast j Hj) as [Hj'| ->];
          [exact (Hall j Hj')|exact Hgt].
      * destruct Hidx as [Hz | (Hi & HMe & Hp & Hb)];
          [left; exact Hz|right; split; [lia|]; repeat split; assumption].
  - unfold min_so_far. rewrite F3, F4.
    destruct Hmin as [(-> & Em & Ec) | (Hc & Em & Hle & Hfirst)]; rewrite Em; cbn [lt].
    + right. split; [lia|]. split; [reflexivity|]. split; intros j Hj; [|lia].
      assert (j = 0%nat) by lia. subst j. lra.
    + destruct (Qltb (sc i) (sc (mouthClosedIndex st))) eqn:Hl; right.
      * apply Qltb_lt in Hl. split; [lia|]. split; [reflexivity|].
        split; intros j Hj.
        -- destruct (Hlast j Hj) as [Hj'| ->]; [specialize (Hle j Hj'); lra|lra].
        -- specialize (Hle j Hj). lra.
      * apply Qltb_ge in Hl. split; [lia|]. split; [reflexivity|].
        split; [|exact Hfirst]. intros j Hj.
        destruct (Hlast j Hj) as [Hj'| ->]; [exact (Hle j Hj')|exact Hl].
Qed.

Lemma scan_frames_keeps (suffix : list string) : forall prefix st,
  frames = prefix ++ suffix ->
  max_so_far (length prefix) st -> min_so_far (length prefix) st ->
  max_so_far (length frames)
             (scan_frames score frameWidth frameHeight (length prefix) suffix st) /\
  min_so_far (length frames)
             (scan_frames score frameWidth frameHeight (length prefix) suffix st).
Proof.
  induction suffix as [|frame rest IH]; intros prefix st E Hmax Hmin.
  - rewrite E, app_nil_r. simpl. split; assumption.
  - simpl.
    assert (Hf : nth_error frames (length prefix) = Some frame)
      by (rewrite E, nth_error_app2, Nat.sub_diag by lia; reflexivity).
    destruct (scan_frame_keeps (length prefix) frame st Hf Hmax Hmin) as [Hmax' Hmin'].
    specialize (IH (prefix ++ [frame])). rewrite length_app in IH. simpl in IH.
    rewrite Nat.add_1_r in IH. apply IH; try assumption.
    rewrite <- app_assoc. exact E.
Qed.

End BestFrames.

(** X20.  Which frames the heuristic picks, for finite scores [sc j]: the
    closed mouth is the first frame with the smallest score; the open
    mouth is the first frame with the largest score when some score is
    positive, and frame 0 when none is. *)
Theorem heuristic_picks_first_extremes
        (score : string -> FacePartRect -> Q -> Q -> num)
        (frameWidth frameHeight : Q) (frames : list string) (sc : nat -> Q) :
  (forall j frame, nth_error frames j = Some frame ->
                   score frame mouthRect frameWidth frameHeight = Fin (sc j)) ->
  frames <> [] ->
  let best := findBestExpressionFrames score frames frameWidth frameHeight in
  ((mouthClosedFrameIndex best < length frames)%nat /\
   forall j, (j < length frames)%nat ->
     sc (mouthClosedFrameIndex best) <= sc j /\
     ((j < mouthClosedFrameIndex best)%nat -> sc (mouthClosedFrameIndex best) < sc j)) /\
  ((forall j, (j < length frames)%nat -> sc j <= 0) ->
   mouthOpenFrameIndex best = 0%nat) /\
  ((exists j, (j < length frames)%nat /\ 0 < sc j) ->
   (mouthOpenFrameIndex best < length frames)%nat /\
   forall j, (j < length frames)%nat ->
     sc j <= sc (mouthOpenFrameIndex best) /\
     ((j < mouthOpenFrameIndex best)%nat -> sc j < sc (mouthOpenFrameIndex best))).
Proof.
  intros Hsc Hne best.
  assert (Hlen : (0 < length frames)%nat)
    by (destruct frames; [contradiction|simpl; lia]).
  destruct (scan_frames_keeps score frameWidth frameHeight frames sc Hsc
                              frames [] scan_start eq_refl) as [Hmax Hmin].
  { exists 0. simpl. repeat split; try lra; try (intros; lia). now left. }
  { left. repeat split. }
  simpl in Hmax, Hmin. subst best. unfold findBestExpressionFrames.
  cbn [mouthClosedFrameIndex mouthOpenFrameIndex].
  set (st := scan_frames score frameWidth frameHeight 0 frames scan_start) in *.
  destruct Hmax as (M & EM & HM0 & Hall & Hidx).
  split; [|split].
  - destruct Hmin as [(E & _) | (Hc & _ & Hle & Hfirst)]; [lia|].
    split; [exact Hc|]. intros j Hj. split; [exact (Hle j Hj)|exact (Hfirst j)].
  - intros Hnon. destruct Hidx as [(Hz & _) | (Hi & HMe & Hp & _)]; [exact Hz|].
    specialize (Hnon _ Hi). rewrite HMe in Hp. lra.
  - intros (j0 & Hj0 & Hpos).
    destruct Hidx as [(Hz & HMe) | (Hi & HMe & Hp & Hb)].
    + specialize (Hall j0 Hj0). rewrite HMe in Hall. lra.
    + split; [exact Hi|]. intros j Hj. rewrite <- HMe.
      split; [exact (Hall j Hj)|exact (Hb j)].
Qed.

Lemma heuristic_picks_first_extremes_witness :
  mouthOpenFrameIndex (findBestExpressionFrames score_second_open ["a"; "b"]%string 256 256)
  = 1%nat /\
  (mouthClosedFrameIndex (findBestExpressionFrames score_second_open ["a"; "b"]%string 256 256)
   < 2)%nat.
Proof.
  assert (Hsc : forall j frame,
             nth_error ["a"; "b"]%string j = Some frame ->
             score_second_open frame mouthRect 256 256
             = Fin ((fun j => match j with 0%nat => 1 # 4 | _ => 1 # 2 end) j)).
  { intros [|[|j]] frame E; simpl in E; try (destruct j; discriminate);
      injection E as <-; reflexivity. }
  assert (Hne : ["a"; "b"]%string <> []) by discriminate.
  destruct (heuristic_picks_first_extremes score_second_open 256 256
              ["a"; "b"]%string _ Hsc Hne) as ((Hc & _) & _ & Ho).
  split; [reflexivity|exact Hc].
Defined.

(** X21.  The pixels of a part lie inside the frame: for a rectangle of the
    unit square with a width and height that are not negative, the
    cropped region [floor(x*W), floor(y*H), floor(w*W), floor(h*H)] starts
    at or after 0 and ends at or before the frame's width and height. *)
Theorem pixel_rect_inside_frame (rect : FacePartRect) (width height : Q) :
  in_unit_square rect -> 0 <= w rect -> 0 <= h rect ->
  0 <= width -> 0 <= height ->
  (0 <= px (pixel_rect rect width height))%Z /\
  (0 <= py (pixel_rect rect width height))%Z /\
  (0 <= pw (pixel_rect rect width height))%Z /\
  (0 <= ph (pixel_rect rect width height))%Z /\
  inject_Z (px (pixel_rect rect width height) + pw (pixel_rect rect width height))
  <= width /\
  inject_Z (py (pixel_rect rect width height) + ph (pixel_rect rect width height))
  <= height.
Proof.
  intros (Hx & Hy & Hxw & Hyh) Hw Hh HW HH. unfold pixel_rect. cbn [px py pw ph].
  assert (Hpos : forall a b, 0 <= a -> 0 <= b -> (0 <= Qfloor (a * b))%Z).
  { intros a b Ha Hb. change 0%Z with (Qfloor 0). apply Qfloor_resp_le.
    now apply Qmult_le_0_compat. }
  assert (Hsum : forall a b c, 0 <= c -> a + b <= 1 ->
                               inject_Z (Qfloor (a * c) + Qfloor (b * c)) <= c).
  { intros a b c Hc Hab. rewrite inject_Z_plus.
    pose proof (Qfloor_le (a * c)). pose proof (Qfloor_le (b * c)).
    assert ((a + b) * c <= 1 * c) by (apply Qmult_le_compat_r; assumption).
    lra. }
  repeat split; auto.
Qed.

Lemma pixel_rect_inside_frame_witness :
  inject_Z (px (pixel_rect mouthRect 255 255) + pw (pixel_rect mouthRect 255 255))
  <= 255.
Proof.
  assert (Hin : in_unit_square mouthRect)
    by (unfold in_unit_square; vm_compute; repeat split; discriminate).
  assert (Hw : 0 <= w mouthRect) by (vm_compute; discriminate).
  assert (Hh : 0 <= h mouthRect) by (vm_compute; discriminate).
  assert (H255 : 0 <= 255) by discriminate.
  destruct (pixel_rect_inside_frame mouthRect 255 255 Hin Hw Hh H255 H255)
    as (_ & _ & _ & _ & H & _).
  exact H.
Defined.

(** ** [generateSprite] and the data-URL prefix *)

Lemma first_image_spec (ps : list ImagePart) :
  first_image ps =
  match flat_map (fun p => match truthy_data p with Some d => [d] | None => [] end) ps with
  | [] => None
  | d :: _ => Some (String.append "data:image/png;base64," d)
  end.
Proof.
  induction ps as [|part rest IH]; simpl; [reflexivity|].
  destruct (truthy_data part); simpl; [reflexivity|exact IH].
Qed.

Lemma drop_prefix_some (p : string) : forall s rest,
  drop_prefix p s = Some rest -> s = String.append p rest.
Proof.
  induction p as [|c p IH]; intros s rest H; simpl in H.
  - now injection H as <-.
  - destruct s as [|d s]; [discriminate|].
    destruct (Ascii.eqb c d) eqn:E; [|discriminate].
    apply Ascii.eqb_eq in E. subst d. simpl. f_equal. now apply IH.
Qed.

(** X22.  What [generateSprite] returns is the data of the first part that
    carries image data, behind the PNG data-URL prefix, and [cleanBase64]
    takes exactly that prefix off again; without such a part the call
    throws, and a failed remote call is thrown on.  [cleanBase64] strips
    the JPEG and WebP prefixes as well, and what it returns is always the
    end of its argument. *)
Theorem sprite_data_url_round_trip :
  (forall remote url,
     generateSprite remote = Returns url ->
     exists ps d rest,
       remote = Returns (Some ps) /\
       flat_map (fun p => match truthy_data p with Some d => [d] | None => [] end) ps
       = d :: rest /\
       url = String.append "data:image/png;base64," d /\
       cleanBase64 url = d) /\
  (forall ps,
     flat_map (fun p => match truthy_data p with Some d => [d] | None => [] end) ps = [] ->
     generateSprite (Returns (Some ps)) = Throws "No image generated in the response.") /\
  generateSprite (Returns None) = Throws "No image generated in the response." /\
  (forall message, generateSprite (Throws message) = Throws message) /\
  (forall d,
     cleanBase64 (String.append "data:image/png;base64," d) = d /\
     cleanBase64 (String.append "data:image/jpeg;base64," d) = d /\
     cleanBase64 (String.append "data:image/jpg;base64," d) = d /\
     cleanBase64 (String.append "data:image/webp;base64," d) = d) /\
  (forall s, exists prefix, s = String.append prefix (cleanBase64 s)).
Proof.
  split; [|split; [|split; [|split; [|split]]]].
  - intros remote url H. destruct remote as [[ps|]|message]; simpl in H; try discriminate.
    rewrite first_image_spec in H.
    destruct (flat_map _ ps) as [|d rest] eqn:E; [discriminate|].
    injection H as <-. exists ps, d, rest.
    split; [reflexivity|]. split; [exact E|]. split; [reflexivity|].
    reflexivity.
  - intros ps E. simpl. rewrite first_image_spec, E. reflexivity.
  - reflexivity.
  - reflexivity.
  - intro d. repeat split.
  - intro s. unfold cleanBase64.
    destruct (drop_prefix "data:image/png;base64," s) as [r|] eqn:E1;
      [eexists; exact (drop_prefix_some _ _ _ E1)|].
    destruct (drop_prefix "data:image/jpeg;base64," s) as [r|] eqn:E2;
      [eexists; exact (drop_prefix_some _ _ _ E2)|].
    destruct (drop_prefix "data:image/jpg;base64," s) as [r|] eqn:E3;
      [eexists; exact (drop_prefix_some _ _ _ E3)|].
    destruct (drop_prefix "data:image/webp;base64," s) as [r|] eqn:E4;
      [eexists; exact (drop_prefix_some _ _ _ E4)|].
    exists ""%string. reflexivity.
Qed.

Lemma sprite_data_url_round_trip_witness :
  cleanBase64 "data:image/png;base64,iVBORw0KGgo=" = "iVBORw0KGgo="%string.
Proof.
  destruct sprite_data_url_round_trip as (H & _).
  destruct (H (Returns (Some [ {| inlineData := None |};
                               {| inlineData := Some {| data := Some "iVBORw0KGgo="%string |} |} ]))
              "data:image/png;base64,iVBORw0KGgo="%string eq_refl)
    as (ps & d & rest & E1 & E2 & E3 & E4).
  injection E1 as <-. simpl in E2. injection E2 as <- _. exact E4.
Defined.

(** ** Further edge cases *)

(** X23.  No frames without a positive frame rate: for a duration that is not
    negative, a frame rate of 0 or below gives the empty list, and so
    does a duration of 0 at any rate. *)
Theorem no_frames_without_positive_rate
        (sqrtQ : Q -> Q) (audioBuffer : AudioBuffer)
        (fps threshold releaseTime : Q) :
  0 <= duration audioBuffer ->
  fps <= 0 \/ duration audioBuffer == 0 ->
  analyzeAudioBuffer sqrtQ audioBuffer fps threshold releaseTime = [].
Proof.
  intros Hd H. rewrite analyzer_as_loop.
  pose proof (double_nonneg _ Hd) as HD.
  set (P := double (duration audioBuffer) * double fps).
  assert (Hle : P <= 0).
  { subst P. destruct H as [H | H].
    - pose proof (double_nonpos _ H). nra.
    - rewrite (double_zero _ H). lra. }
  assert (Hc : (Qceiling (double P) <= 0)%Z).
  { change 0%Z with (Qceiling 0). apply Qceiling_resp_le. now apply double_nonpos. }
  destruct (Qceiling (double P)); try reflexivity. lia.
Qed.

Lemma no_frames_without_positive_rate_witness :
  analyzeAudioBuffer sqrt_approx burst_clip (- (10)) (1 # 100) (1 # 10) = [].
Proof.
  apply (no_frames_without_positive_rate sqrt_approx burst_clip (- (10))
           (1 # 100) (1 # 10)).
  - vm_compute. discriminate.
  - left. discriminate.
Defined.

(** X24.  Moving a rectangle and dragging its south-east corner keep it in the
    unit square, for every displacement. *)
Theorem move_and_south_east_stay_inside (r : FacePartRect) (dx dy : Q) :
  in_unit_square r ->
  in_unit_square (handleMouseMove h_move r dx dy) /\
  in_unit_square (handleMouseMove h_se r dx dy).
Proof.
  intro H. split;
    [now apply move_stays_in_unit_square|now apply south_east_stays_in_unit_square].
Qed.

Lemma move_and_south_east_stay_inside_witness :
  in_unit_square (handleMouseMove h_move eyes_rect 5 (- (5))) /\
  in_unit_square (handleMouseMove h_se eyes_rect 5 (- (5))).
Proof.
  apply (move_and_south_east_stay_inside eyes_rect 5 (- (5))).
  unfold in_unit_square. vm_compute. repeat split; discriminate.
Defined.


(** ** The live analysis loop of [useAudioMouthSync] *)

Lemma sync_step_latch (threshold : Q) (s : Sync.Hook) (e : Sync.Event) :
  threshold < Sync.lastVolumeRef s ->
  threshold < Sync.lastVolumeRef (Sync.step threshold s e).
Proof.
  intro H. destruct e as [rms| |]; simpl.
  - unfold Sync.analyze. destruct (negb (Sync.isActive s)); [exact H|]. cbv zeta.
    destruct (Qltb threshold _) eqn:E; simpl.
    + now apply Qltb_lt in E.
    + destruct (Qltb threshold (Sync.lastVolumeRef s)); exact H.
  - unfold Sync.release. destruct (Sync.releaseTimers s); exact H.
  - exact H.
Qed.

(** X26.  The release is a latch.  Once a frame has been louder than the
    threshold, [lastVolumeRef] stays above it for good; from then on no
    animation frame closes the mouth, a quiet frame only sets one more
    timeout, and the mouth closes only when a timeout fires while the
    smoothed volume is at or below the threshold. *)
Theorem mouth_closes_only_by_release
        (threshold : Q) (s : Sync.Hook) (events : list Sync.Event) (e : Sync.Event) :
  threshold < Sync.lastVolumeRef s ->
  threshold < Sync.lastVolumeRef (Sync.run threshold s events) /\
  (Sync.mouthStateRef (Sync.step threshold (Sync.run threshold s events) e) = m_closed ->
   Sync.mouthStateRef (Sync.run threshold s events) = m_closed \/
   (e = Sync.ReleaseFires /\
    Sync.smoothingRef (Sync.run threshold s events) <= threshold)) /\
  (forall rms,
     Sync.isActive (Sync.run threshold s events) = true ->
     Sync.smoothingRef (Sync.run threshold s events) * (7 # 10) + rms * (3 # 10)
     <= threshold ->
     Sync.releaseTimers (Sync.step threshold (Sync.run threshold s events) (Sync.Frame rms))
     = S (Sync.releaseTimers (Sync.run threshold s events))).
Proof.
  intro H.
  assert (Hl : threshold < Sync.lastVolumeRef (Sync.run threshold s events)).
  { revert s H. induction events as [|e0 rest IH]; intros s H; [exact H|].
    simpl. apply IH. now apply sync_step_latch. }
  set (t := Sync.run threshold s events) in *.
  split; [exact Hl|]. split.
  - destruct e as [rms| |]; simpl.
    + unfold Sync.analyze. destruct (negb (Sync.isActive t)); [now left|]. cbv zeta.
      destruct (Qltb threshold _); simpl; [discriminate|].
      rewrite (Qltb_true _ _ Hl). simpl. now left.
    + unfold Sync.release. destruct (Sync.releaseTimers t); [now left|]. simpl.
      destruct (Sync.isActive t); simpl; [|now left].
      destruct (Qle_bool (Sync.smoothingRef t) threshold) eqn:E; [|now left].
      intros _. right. split; [reflexivity|now apply Qle_bool_iff].
    + now left.
  - intros rms Ha Hq. simpl. unfold Sync.analyze. rewrite Ha. cbv zeta. simpl.
    assert (E : Qltb threshold (Sync.smoothingRef t * (7 # 10) + rms * (3 # 10)) = false)
      by now apply Qltb_ge.
    rewrite E, (Qltb_true _ _ Hl). reflexivity.
Qed.

Lemma mouth_closes_only_by_release_witness :
  (1 # 100) < Sync.lastVolumeRef
                (Sync.run (1 # 100) (Sync.step (1 # 100) Sync.mounted (Sync.Frame 1))
                          [Sync.Frame 0; Sync.Frame 0; Sync.ReleaseFires]).
Proof.
  apply (mouth_closes_only_by_release (1 # 100)
           (Sync.step (1 # 100) Sync.mounted (Sync.Frame 1))
           [Sync.Frame 0; Sync.Frame 0; Sync.ReleaseFires] Sync.Cleanup).
  reflexivity.
Defined.

(** X27.  What the hook keeps on every trace: the mouth is open or closed,
    never [mid]; the smoothed volume stays between 0 and 1 as long as the
    window loudness does; and after the cleanup the mouth does not change
    any more, whatever frame or timeout of that run of the effect still
    fires. *)
Theorem live_loop_invariants (threshold : Q) (events after : list Sync.Event) :
  Sync.unit_frames events ->
  Sync.mouthStateRef (Sync.run threshold Sync.mounted events) <> m_mid /\
  0 <= Sync.smoothingRef (Sync.run threshold Sync.mounted events) <= 1 /\
  Sync.mouthStateRef
    (Sync.run threshold (Sync.cleanup (Sync.run threshold Sync.mounted events)) after)
  = Sync.mouthStateRef (Sync.run threshold Sync.mounted events).
Proof.
  intro Hu.
  assert (G : forall evs s,
             Sync.unit_frames evs ->
             Sync.mouthStateRef s <> m_mid -> 0 <= Sync.smoothingRef s <= 1 ->
             Sync.mouthStateRef (Sync.run threshold s evs) <> m_mid /\
             0 <= Sync.smoothingRef (Sync.run threshold s evs) <= 1).
  { induction evs as [|e rest IH]; intros s Hf Hm Hs; [split; assumption|].
    inversion Hf as [|e' r' He Hr]; subst. simpl. apply IH; [exact Hr| |].
    - destruct e as [rms| |]; simpl.
      + unfold Sync.analyze. destruct (negb (Sync.isActive s)); [exact Hm|]. cbv zeta.
        destruct (Qltb threshold _); simpl; [discriminate|].
        destruct (Qltb threshold (Sync.lastVolumeRef s)); simpl;
          [exact Hm|discriminate].
      + unfold Sync.release. destruct (Sync.releaseTimers s); [exact Hm|]. simpl.
        destruct (Sync.isActive s && _); [discriminate|exact Hm].
      + exact Hm.
    - destruct e as [rms| |]; simpl.
      + unfold Sync.analyze. destruct (negb (Sync.isActive s)); [exact Hs|]. cbv zeta.
        destruct (Qltb threshold _); simpl;
          [|destruct (Qltb threshold (Sync.lastVolumeRef s)); simpl];
          destruct Hs, He; split; lra.
      + unfold Sync.release. destruct (Sync.releaseTimers s); exact Hs.
      + exact Hs. }
  destruct (G events Sync.mounted Hu) as [Hm Hs];
    [discriminate|simpl; split; discriminate|].
  split; [exact Hm|]. split; [exact Hs|].
  set (t := Sync.run threshold Sync.mounted events).
  assert (F : forall evs s,
             Sync.isActive s = false ->
             Sync.mouthStateRef (Sync.run threshold s evs) = Sync.mouthStateRef s).
  { induction evs as [|e rest IH]; intros s Hi; [reflexivity|]. simpl.
    assert (Hstep : Sync.isActive (Sync.step threshold s e) = false /\
                    Sync.mouthStateRef (Sync.step threshold s e) = Sync.mouthStateRef s).
    { destruct e as [rms| |]; simpl.
      - unfold Sync.analyze. rewrite Hi. simpl. now split.
      - unfold Sync.release. destruct (Sync.releaseTimers s); [now split|].
        simpl. rewrite Hi. simpl. now split.
      - now split. }
    destruct Hstep as [Hi' Hm']. rewrite (IH _ Hi'). exact Hm'. }
  apply (F after (Sync.cleanup t)). reflexivity.
Qed.

Lemma live_loop_invariants_witness :
  0 <= Sync.smoothingRef
         (Sync.run (1 # 100) Sync.mounted [Sync.Frame 1; Sync.Frame (1 # 2)]) <= 1.
Proof.
  apply (live_loop_invariants (1 # 100) [Sync.Frame 1; Sync.Frame (1 # 2)] []).
  repeat constructor; discriminate.
Defined.

(** ** The score of [analyzeMouthOpenness] *)

Lemma sqrt_approx_nonneg (q : Q) : 0 <= sqrt_approx q.
Proof.
  unfold sqrt_approx, Qle. cbn [Qnum Qden]. rewrite Z.mul_1_r, Z.mul_0_l.
  apply Z.sqrt_nonneg.
Qed.

Lemma filter_length_le {A : Type} (f : A -> bool) (l : list A) :
  (List.length (filter f l) <= List.length l)%nat.
Proof.
  induction l as [|a l IH]; simpl; [lia|]. destruct (f a); simpl; lia.
Qed.

(** X28.  The score is normalised.  Whatever the bytes and the size of the
    region, the score lies between 0 and 1 as soon as [Math.sqrt] returns
    no negative number; and a region in which no pixel of the centre band
    is opaque scores 0. *)
Theorem mouth_score_between_0_and_1
        (sqrtQ : Q -> Q) (data : list Z) (w h : Z) :
  (forall q, 0 <= sqrtQ q) ->
  0 <= mouth_score sqrtQ data w h <= 1 /\
  (brightnessValues data w h = [] -> mouth_score sqrtQ data w h = 0).
Proof.
  intro Hs. split.
  - unfold mouth_score. destruct (brightnessValues data w h) as [|v vs] eqn:E.
    + split; [apply Qle_refl|discriminate].
    + cbv zeta.
      set (values := v :: vs).
      set (count := inject_Z (Z.of_nat (List.length values))).
      assert (Hc : 0 < count).
      { unfold count. replace 0 with (inject_Z 0) by reflexivity.
        rewrite <- Zlt_Qlt. subst values. simpl List.length. lia. }
      set (stdDev := sqrtQ _).
      assert (Hd : 0 <= stdDev) by apply Hs.
      set (dark := inject_Z (Z.of_nat (darkPixels values))).
      assert (Hk : 0 <= dark <= count).
      { unfold dark, count. split.
        - replace 0 with (inject_Z 0) by reflexivity. rewrite <- Zle_Qle. lia.
        - rewrite <- Zle_Qle. apply inj_le. apply filter_length_le. }
      assert (Hr : 0 <= dark / count <= 1).
      { split.
        - apply Qle_shift_div_l; [exact Hc|]. destruct Hk. lra.
        - apply Qle_shift_div_r; [exact Hc|]. destruct Hk. lra. }
      assert (Hn : 0 <= Qmin (stdDev * 3) 1 <= 1).
      { split.
        - apply Q.min_glb; lra.
        - apply Q.le_min_r. }
      destruct Hr, Hn. split; lra.
  - intro E. unfold mouth_score. rewrite E. reflexivity.
Qed.

Lemma mouth_score_between_0_and_1_witness :
  0 <= mouth_score sqrt_approx two_tone_region 2 5 <= 1 /\
  mouth_score sqrt_approx transparent_region 2 5 = 0.
Proof.
  split.
  - apply (mouth_score_between_0_and_1 sqrt_approx two_tone_region 2 5
             sqrt_approx_nonneg).
  - apply (mouth_score_between_0_and_1 sqrt_approx transparent_region 2 5
             sqrt_approx_nonneg).
    reflexivity.
Defined.
